(** * AES-128 with ECB, CBC and CTR modes, and the CBC padding-oracle attack

    A shallow embedding of the Go package [aesgo] (cipher engine, padding,
    modes of operation) and of the padding-oracle attack of package [main],
    together with the properties stated about them. The embedding follows
    the version of aes.go that has [New], [Encrypt] and [Decrypt] and keeps
    the round keys in the cipher object.

    Conventions.
    - A Go [byte] is a [Z] in the range [0, 256); the conversions [byte(x)]
      and the wrap-around of [<<=] are written out with [mod 256].
    - A slice [[]byte] is a [list byte]; a fixed array [[16]byte] is a list
      whose length is 16, obtained from a slice by [toArray16], which panics
      on a short slice exactly as Go's slice-to-array conversion does.
    - The state [[4][4]byte] is a record of four rows of four bytes.
    - A call that may return an error or panic yields an [outcome].
    - Methods with a pointer receiver that update the cipher object take the
      object and return the updated one. *)

From Stdlib Require Import ZArith Lia Bool Btauto.
From stdpp Require Import base list strings.

Local Open Scope Z_scope.

(** ** Outcomes of Go calls *)

(** The ways a call can abort. *)
Inductive panic : Type :=
| IndexOutOfRange                (* runtime error: index out of range *)
| SliceToArray                   (* runtime error: slice shorter than the array converted to *)
| SliceBounds                    (* runtime error: slice bounds out of range *)
| Explicit (msg : string).       (* panic("...") and panic(err) *)

(** [Ok v] is a normal return (with a nil error, where the function has an
    error result), [Err msg] a return with a non-nil error. *)
Inductive outcome (A : Type) : Type :=
| Ok (a : A)
| Err (msg : string)
| Panic (p : panic).
Arguments Ok {A} a.
Arguments Err {A} msg.
Arguments Panic {A} p.

Definition bind {A B} (m : outcome A) (k : A -> outcome B) : outcome B :=
  match m with
  | Ok a => k a
  | Err e => Err e
  | Panic p => Panic p
  end.

Notation "'let*' x ':=' m 'in' k" := (bind m (fun x => k))
  (at level 10, x pattern, m at level 100, k at level 200).

(** ** Bytes, slices and arrays *)

Abbreviation byte := Z.

Definition is_byte (x : Z) : Prop := 0 <= x < 256.
Definition bytes (l : list byte) : Prop := Forall is_byte l.

(** [byte(x)] for an [int] x. *)
Definition toByte (x : Z) : byte := x mod 256.

(** [l[i]] for an [int] index: panics out of range. *)
Definition index {A} (l : list A) (i : Z) : outcome A :=
  if i <? 0 then Panic IndexOutOfRange
  else match l !! Z.to_nat i with
       | Some x => Ok x
       | None => Panic IndexOutOfRange
       end.

(** [l[i] = v] for an [int] index: panics out of range. *)
Definition store {A} (l : list A) (i : Z) (v : A) : outcome (list A) :=
  if (i <? 0) || (Z.of_nat (length l) <=? i) then Panic IndexOutOfRange
  else Ok (<[Z.to_nat i := v]> l).

(** [[16]byte(s)]: the first 16 bytes of [s]; panics when [s] is shorter. *)
Definition toArray16 (s : list byte) : outcome (list byte) :=
  if (length s <? 16)%nat then Panic SliceToArray else Ok (take 16 s).

(** [copy(make([]byte, n), src)]. *)
Definition copyInto (n : nat) (src : list byte) : list byte :=
  take n src ++ replicate (n - length src) 0.

(** ** Substitution tables *)

(** Modelled from the spec: the function [sBox], which returns the table,
    is not among the sources. The spec fixes the table as the standard
    FIPS-197 Rijndael S-box, supplied as constant data. *)
Definition sBox : list byte :=
  [ 0x63; 0x7c; 0x77; 0x7b; 0xf2; 0x6b; 0x6f; 0xc5; 0x30; 0x01; 0x67; 0x2b; 0xfe; 0xd7; 0xab; 0x76;
    0xca; 0x82; 0xc9; 0x7d; 0xfa; 0x59; 0x47; 0xf0; 0xad; 0xd4; 0xa2; 0xaf; 0x9c; 0xa4; 0x72; 0xc0;
    0xb7; 0xfd; 0x93; 0x26; 0x36; 0x3f; 0xf7; 0xcc; 0x34; 0xa5; 0xe5; 0xf1; 0x71; 0xd8; 0x31; 0x15;
    0x04; 0xc7; 0x23; 0xc3; 0x18; 0x96; 0x05; 0x9a; 0x07; 0x12; 0x80; 0xe2; 0xeb; 0x27; 0xb2; 0x75;
    0x09; 0x83; 0x2c; 0x1a; 0x1b; 0x6e; 0x5a; 0xa0; 0x52; 0x3b; 0xd6; 0xb3; 0x29; 0xe3; 0x2f; 0x84;
    0x53; 0xd1; 0x00; 0xed; 0x20; 0xfc; 0xb1; 0x5b; 0x6a; 0xcb; 0xbe; 0x39; 0x4a; 0x4c; 0x58; 0xcf;
    0xd0; 0xef; 0xaa; 0xfb; 0x43; 0x4d; 0x33; 0x85; 0x45; 0xf9; 0x02; 0x7f; 0x50; 0x3c; 0x9f; 0xa8;
    0x51; 0xa3; 0x40; 0x8f; 0x92; 0x9d; 0x38; 0xf5; 0xbc; 0xb6; 0xda; 0x21; 0x10; 0xff; 0xf3; 0xd2;
    0xcd; 0x0c; 0x13; 0xec; 0x5f; 0x97; 0x44; 0x17; 0xc4; 0xa7; 0x7e; 0x3d; 0x64; 0x5d; 0x19; 0x73;
    0x60; 0x81; 0x4f; 0xdc; 0x22; 0x2a; 0x90; 0x88; 0x46; 0xee; 0xb8; 0x14; 0xde; 0x5e; 0x0b; 0xdb;
    0xe0; 0x32; 0x3a; 0x0a; 0x49; 0x06; 0x24; 0x5c; 0xc2; 0xd3; 0xac; 0x62; 0x91; 0x95; 0xe4; 0x79;
    0xe7; 0xc8; 0x37; 0x6d; 0x8d; 0xd5; 0x4e; 0xa9; 0x6c; 0x56; 0xf4; 0xea; 0x65; 0x7a; 0xae; 0x08;
    0xba; 0x78; 0x25; 0x2e; 0x1c; 0xa6; 0xb4; 0xc6; 0xe8; 0xdd; 0x74; 0x1f; 0x4b; 0xbd; 0x8b; 0x8a;
    0x70; 0x3e; 0xb5; 0x66; 0x48; 0x03; 0xf6; 0x0e; 0x61; 0x35; 0x57; 0xb9; 0x86; 0xc1; 0x1d; 0x9e;
    0xe1; 0xf8; 0x98; 0x11; 0x69; 0xd9; 0x8e; 0x94; 0x9b; 0x1e; 0x87; 0xe9; 0xce; 0x55; 0x28; 0xdf;
    0x8c; 0xa1; 0x89; 0x0d; 0xbf; 0xe6; 0x42; 0x68; 0x41; 0x99; 0x2d; 0x0f; 0xb0; 0x54; 0xbb; 0x16 ].

(** Modelled from the spec: the function [invSBox] is not among the sources.
    The spec fixes its table as the inverse permutation of the S-box. *)
Definition invSBox : list byte :=
  [ 0x52; 0x09; 0x6a; 0xd5; 0x30; 0x36; 0xa5; 0x38; 0xbf; 0x40; 0xa3; 0x9e; 0x81; 0xf3; 0xd7; 0xfb;
    0x7c; 0xe3; 0x39; 0x82; 0x9b; 0x2f; 0xff; 0x87; 0x34; 0x8e; 0x43; 0x44; 0xc4; 0xde; 0xe9; 0xcb;
    0x54; 0x7b; 0x94; 0x32; 0xa6; 0xc2; 0x23; 0x3d; 0xee; 0x4c; 0x95; 0x0b; 0x42; 0xfa; 0xc3; 0x4e;
    0x08; 0x2e; 0xa1; 0x66; 0x28; 0xd9; 0x24; 0xb2; 0x76; 0x5b; 0xa2; 0x49; 0x6d; 0x8b; 0xd1; 0x25;
    0x72; 0xf8; 0xf6; 0x64; 0x86; 0x68; 0x98; 0x16; 0xd4; 0xa4; 0x5c; 0xcc; 0x5d; 0x65; 0xb6; 0x92;
    0x6c; 0x70; 0x48; 0x50; 0xfd; 0xed; 0xb9; 0xda; 0x5e; 0x15; 0x46; 0x57; 0xa7; 0x8d; 0x9d; 0x84;
    0x90; 0xd8; 0xab; 0x00; 0x8c; 0xbc; 0xd3; 0x0a; 0xf7; 0xe4; 0x58; 0x05; 0xb8; 0xb3; 0x45; 0x06;
    0xd0; 0x2c; 0x1e; 0x8f; 0xca; 0x3f; 0x0f; 0x02; 0xc1; 0xaf; 0xbd; 0x03; 0x01; 0x13; 0x8a; 0x6b;
    0x3a; 0x91; 0x11; 0x41; 0x4f; 0x67; 0xdc; 0xea; 0x97; 0xf2; 0xcf; 0xce; 0xf0; 0xb4; 0xe6; 0x73;
    0x96; 0xac; 0x74; 0x22; 0xe7; 0xad; 0x35; 0x85; 0xe2; 0xf9; 0x37; 0xe8; 0x1c; 0x75; 0xdf; 0x6e;
    0x47; 0xf1; 0x1a; 0x71; 0x1d; 0x29; 0xc5; 0x89; 0x6f; 0xb7; 0x62; 0x0e; 0xaa; 0x18; 0xbe; 0x1b;
    0xfc; 0x56; 0x3e; 0x4b; 0xc6; 0xd2; 0x79; 0x20; 0x9a; 0xdb; 0xc0; 0xfe; 0x78; 0xcd; 0x5a; 0xf4;
    0x1f; 0xdd; 0xa8; 0x33; 0x88; 0x07; 0xc7; 0x31; 0xb1; 0x12; 0x10; 0x59; 0x27; 0x80; 0xec; 0x5f;
    0x60; 0x51; 0x7f; 0xa9; 0x19; 0xb5; 0x4a; 0x0d; 0x2d; 0xe5; 0x7a; 0x9f; 0x93; 0xc9; 0x9c; 0xef;
    0xa0; 0xe0; 0x3b; 0x4d; 0xae; 0x2a; 0xf5; 0xb0; 0xc8; 0xeb; 0xbb; 0x3c; 0x83; 0x53; 0x99; 0x61;
    0x17; 0x2b; 0x04; 0x7e; 0xba; 0x77; 0xd6; 0x26; 0xe1; 0x69; 0x14; 0x63; 0x55; 0x21; 0x0c; 0x7d ].

(** ** Galois field multiplication (galois.go) *)

Fixpoint gmul_loop (counter : nat) (a b p : byte) : byte :=
  match counter with
  | O => p
  | S counter' =>
      let p := if negb (Z.land b 1 =? 0) then Z.lxor p a else p in
      let hiBitSet := negb (Z.land a 0x80 =? 0) in
      let a := Z.shiftl a 1 mod 256 in
      let a := if hiBitSet then Z.lxor a 0x1B else a in
      let b := Z.shiftr b 1 in
      gmul_loop counter' a b p
  end.

Definition gmul (a b : byte) : byte := gmul_loop 8 a b 0.

(** ** The state matrix *)

Record row : Type := Row { c0 : byte; c1 : byte; c2 : byte; c3 : byte }.
Record matrix : Type := Mat { r0 : row; r1 : row; r2 : row; r3 : row }.

(** [m[i][j]] with constant bounds 4. *)
Definition rowAt (r : row) (j : nat) : byte :=
  match j with
  | 0%nat => c0 r | 1%nat => c1 r | 2%nat => c2 r | _ => c3 r
  end.

Definition at_ (m : matrix) (i j : nat) : byte :=
  match i with
  | 0%nat => rowAt (r0 m) j | 1%nat => rowAt (r1 m) j
  | 2%nat => rowAt (r2 m) j | _ => rowAt (r3 m) j
  end.

(** The nested loops [for i < 4 { for j < 4 { s[i][j] = f i j } }]. *)
Definition build (f : nat -> nat -> byte) : matrix :=
  (Mat (Row (f 0 0) (f 0 1) (f 0 2) (f 0 3))
       (Row (f 1 0) (f 1 1) (f 1 2) (f 1 3))
       (Row (f 2 0) (f 2 1) (f 2 2) (f 2 3))
       (Row (f 3 0) (f 3 1) (f 3 2) (f 3 3)))%nat.

Definition sub (t : list byte) (x : byte) : byte := t !!! Z.to_nat x.

Definition xorMatrix (a b : matrix) : matrix :=
  build (fun i j => Z.lxor (at_ a i j) (at_ b i j)).

Definition addRoundKey (state key : matrix) : matrix := xorMatrix state key.

Definition subMatrix (word : matrix) : matrix :=
  build (fun i j => sub sBox (at_ word i j)).

Definition invSubMatrix (word : matrix) : matrix :=
  build (fun i j => sub invSBox (at_ word i j)).

Definition shiftRows (state : matrix) : matrix :=
  Mat (r0 state)
      (Row (at_ state 1 1) (at_ state 1 2) (at_ state 1 3) (at_ state 1 0))
      (Row (at_ state 2 2) (at_ state 2 3) (at_ state 2 0) (at_ state 2 1))
      (Row (at_ state 3 3) (at_ state 3 0) (at_ state 3 1) (at_ state 3 2)).

Definition invShiftRows (state : matrix) : matrix :=
  Mat (r0 state)
      (Row (at_ state 1 3) (at_ state 1 0) (at_ state 1 1) (at_ state 1 2))
      (Row (at_ state 2 2) (at_ state 2 3) (at_ state 2 0) (at_ state 2 1))
      (Row (at_ state 3 1) (at_ state 3 2) (at_ state 3 3) (at_ state 3 0)).

Definition mixColumns (s : matrix) : matrix :=
  build (fun i c =>
    match i with
    | 0%nat => Z.lxor (Z.lxor (Z.lxor (gmul 0x02 (at_ s 0 c)) (gmul 0x03 (at_ s 1 c))) (at_ s 2 c)) (at_ s 3 c)
    | 1%nat => Z.lxor (Z.lxor (Z.lxor (at_ s 0 c) (gmul 0x02 (at_ s 1 c))) (gmul 0x03 (at_ s 2 c))) (at_ s 3 c)
    | 2%nat => Z.lxor (Z.lxor (Z.lxor (at_ s 0 c) (at_ s 1 c)) (gmul 0x02 (at_ s 2 c))) (gmul 0x03 (at_ s 3 c))
    | _ => Z.lxor (Z.lxor (Z.lxor (gmul 0x03 (at_ s 0 c)) (at_ s 1 c)) (at_ s 2 c)) (gmul 0x02 (at_ s 3 c))
    end).

(** Modelled from the spec: [invMixColumns] is not among the sources. The
    spec gives it as the column-wise GF(2^8) product with the inverse
    matrix {14,11,13,9} / {9,14,11,13} / {13,9,14,11} / {11,13,9,14}; it is
    written here in the shape of [mixColumns]. *)
Definition invMixColumns (s : matrix) : matrix :=
  build (fun i c =>
    match i with
    | 0%nat => Z.lxor (Z.lxor (Z.lxor (gmul 14 (at_ s 0 c)) (gmul 11 (at_ s 1 c))) (gmul 13 (at_ s 2 c))) (gmul 9 (at_ s 3 c))
    | 1%nat => Z.lxor (Z.lxor (Z.lxor (gmul 9 (at_ s 0 c)) (gmul 14 (at_ s 1 c))) (gmul 11 (at_ s 2 c))) (gmul 13 (at_ s 3 c))
    | 2%nat => Z.lxor (Z.lxor (Z.lxor (gmul 13 (at_ s 0 c)) (gmul 9 (at_ s 1 c))) (gmul 14 (at_ s 2 c))) (gmul 11 (at_ s 3 c))
    | _ => Z.lxor (Z.lxor (Z.lxor (gmul 11 (at_ s 0 c)) (gmul 13 (at_ s 1 c))) (gmul 9 (at_ s 2 c))) (gmul 14 (at_ s 3 c))
    end).

Definition convertArrayToMatrix (b : list byte) : matrix :=
  Mat (Row (b !!! 0%nat) (b !!! 4%nat) (b !!! 8%nat) (b !!! 12%nat))
      (Row (b !!! 1%nat) (b !!! 5%nat) (b !!! 9%nat) (b !!! 13%nat))
      (Row (b !!! 2%nat) (b !!! 6%nat) (b !!! 10%nat) (b !!! 14%nat))
      (Row (b !!! 3%nat) (b !!! 7%nat) (b !!! 11%nat) (b !!! 15%nat)).

Definition convertMatrixToArray (m : matrix) : list byte :=
  [ at_ m 0 0; at_ m 1 0; at_ m 2 0; at_ m 3 0;
    at_ m 0 1; at_ m 1 1; at_ m 2 1; at_ m 3 1;
    at_ m 0 2; at_ m 1 2; at_ m 2 2; at_ m 3 2;
    at_ m 0 3; at_ m 1 3; at_ m 2 3; at_ m 3 3 ]%nat.

(** ** Keys (key/key.go) *)

(** The [Key] interface with its implementation [key128]. *)
Record Key : Type := NewKey { material : list byte }.

Definition GetBytes (k : Key) : list byte := material k.
Definition Len (k : Key) : Z := Z.of_nat (length (material k)).

(** ** Key schedule words *)

Definition rconTable : list (list byte) :=
  [ [0x01; 0x00; 0x00; 0x00];
    [0x02; 0x00; 0x00; 0x00];
    [0x04; 0x00; 0x00; 0x00];
    [0x08; 0x00; 0x00; 0x00];
    [0x10; 0x00; 0x00; 0x00];
    [0x20; 0x00; 0x00; 0x00];
    [0x40; 0x00; 0x00; 0x00];
    [0x80; 0x00; 0x00; 0x00];
    [0x1B; 0x00; 0x00; 0x00];
    [0x36; 0x00; 0x00; 0x00] ].

(** [s[lo:hi]] within bounds. *)
Definition slice (lo hi : nat) (s : list byte) : list byte :=
  take (hi - lo) (drop lo s).

Definition rotWord (word : list byte) : list byte :=
  [ word !!! 1%nat; word !!! 2%nat; word !!! 3%nat; word !!! 0%nat ].

Definition subWord (word : list byte) : list byte :=
  [ sub sBox (word !!! 0%nat); sub sBox (word !!! 1%nat);
    sub sBox (word !!! 2%nat); sub sBox (word !!! 3%nat) ].

Definition xor (a b : list byte) : list byte :=
  [ Z.lxor (a !!! 0%nat) (b !!! 0%nat); Z.lxor (a !!! 1%nat) (b !!! 1%nat);
    Z.lxor (a !!! 2%nat) (b !!! 2%nat); Z.lxor (a !!! 3%nat) (b !!! 3%nat) ].

Definition rcon (round : Z) (word : list byte) : outcome (list byte) :=
  let* r := index rconTable (round - 1) in
  Ok (xor word r).

(** ** The cipher object *)

Record AES : Type := mkAES {
  key : Key;
  rounds : Z;
  currentRound : Z;
  roundKeys : list (list byte)
}.

Definition setRound (n : Z) (a : AES) : AES :=
  mkAES (key a) (rounds a) n (roundKeys a).

Definition setRoundKeys (ks : list (list byte)) (a : AES) : AES :=
  mkAES (key a) (rounds a) (currentRound a) ks.

Definition New (key : Key) : outcome AES :=
  if Len key =? 128 / 8
  then Ok (mkAES key 10 0 (replicate 11 (replicate 16 0)))
  else Panic (Explicit "Unsupported key size").

Definition nextRound (a : AES) : AES := setRound (currentRound a + 1) a.
Definition previousRound (a : AES) : AES := setRound (currentRound a - 1) a.

Definition generateNewRoundKey (a : AES) : outcome (list byte) :=
  if currentRound a =? 0 then toArray16 (GetBytes (key a))
  else
    let* previousRoundKey := index (roundKeys a) (currentRound a - 1) in
    let w0 := slice 0 4 previousRoundKey in
    let w1 := slice 4 8 previousRoundKey in
    let w2 := slice 8 12 previousRoundKey in
    let w3 := slice 12 16 previousRoundKey in
    let t := rotWord w3 in
    let t := subWord t in
    let* t := rcon (currentRound a) t in
    let w4 := xor w0 t in
    let w5 := xor w4 w1 in
    let w6 := xor w5 w2 in
    let w7 := xor w6 w3 in
    let roundKey := w4 ++ (w5 ++ (w6 ++ w7)) in
    toArray16 roundKey.

(** The loop [for i := 0; i <= a.rounds; i++]; [n] counts the iterations
    that remain. *)
Fixpoint generateAllKeys_loop (n : nat) (i : Z) (a : AES) : outcome AES :=
  match n with
  | O => Ok a
  | S n' =>
      let* k := generateNewRoundKey a in
      let* ks := store (roundKeys a) i k in
      generateAllKeys_loop n' (i + 1) (nextRound (setRoundKeys ks a))
  end.

Definition generateAllKeys (a : AES) : outcome AES :=
  let a := setRound 0 a in
  generateAllKeys_loop (Z.to_nat (rounds a + 1)) 0 a.

Definition encryptRound (a : AES) (state : matrix) : outcome matrix :=
  let* k := index (roundKeys a) (currentRound a) in
  let key := convertArrayToMatrix k in
  if currentRound a =? 0 then Ok (addRoundKey state key)
  else
    let r := subMatrix state in
    let r := shiftRows r in
    let r := if currentRound a <? rounds a then mixColumns r else r in
    let r := addRoundKey r key in
    Ok r.

Definition decryptRound (a : AES) (state : matrix) : outcome matrix :=
  let* k := index (roundKeys a) (currentRound a) in
  let key := convertArrayToMatrix k in
  if currentRound a =? rounds a then Ok (addRoundKey state key)
  else
    let r := invShiftRows state in
    let r := invSubMatrix r in
    let r := addRoundKey r key in
    let r := if currentRound a >? 0 then invMixColumns r else r in
    Ok r.

(** The loop [for j := 0; j <= a.rounds; j++] of [EncryptBlock]. *)
Fixpoint EncryptBlock_loop (n : nat) (block : matrix) (a : AES)
  : outcome (matrix * AES) :=
  match n with
  | O => Ok (block, a)
  | S n' =>
      let* block := encryptRound a block in
      EncryptBlock_loop n' block (nextRound a)
  end.

Definition EncryptBlock (b : list byte) (a : AES) : outcome (matrix * AES) :=
  let* a := generateAllKeys a in
  let a := setRound 0 a in
  let block := convertArrayToMatrix b in
  EncryptBlock_loop (Z.to_nat (rounds a + 1)) block a.

(** The loop [for j := a.rounds; j >= 0; j--] of [DecryptBlock]. *)
Fixpoint DecryptBlock_loop (n : nat) (block : matrix) (a : AES)
  : outcome (matrix * AES) :=
  match n with
  | O => Ok (block, a)
  | S n' =>
      let* block := decryptRound a block in
      DecryptBlock_loop n' block (previousRound a)
  end.

Definition DecryptBlock (b : list byte) (a : AES) : outcome (matrix * AES) :=
  let* a := generateAllKeys a in
  let a := setRound (rounds a) a in
  let block := convertArrayToMatrix b in
  DecryptBlock_loop (Z.to_nat (rounds a + 1)) block a.

(** ** Padding and blocks *)

(** The loop [for i := 0; i < l; i += n] of [split]; [rest] is
    [plainText[i:]] and [fuel] bounds the number of iterations. *)
Fixpoint split_loop (fuel : nat) (rest : list byte) : list (list byte) :=
  match fuel with
  | O => []
  | S fuel' =>
      match rest with
      | [] => []
      | _ => take 16 rest :: split_loop fuel' (drop 16 rest)
      end
  end.

Definition split (plainText : list byte) : list (list byte) :=
  split_loop (length plainText) plainText.

Definition join (blocks : list (list byte)) : list byte := concat blocks.

(** The loop [for i := l; i < n; i++ { s[i] = byte(r) }] of [padding]. *)
Fixpoint padding_loop (n : nat) (i : nat) (r : Z) (s : list byte) : list byte :=
  match n with
  | O => s
  | S n' => padding_loop n' (S i) r (<[i := toByte r]> s)
  end.

Definition padding (block : list byte) : list byte :=
  let n := 16%nat in
  let l := length block in
  if (l =? n)%nat then block ++ replicate 16 0x10
  else
    let r := Z.of_nat n - Z.of_nat l in
    let s := copyInto 16 block in
    padding_loop (n - l) l r s.

(** The loop [for i := begin; i < len(last); i++] of [RemovePadding]. *)
Fixpoint RemovePadding_loop (n : nat) (i : nat) (last : list byte) (p : byte)
  : outcome unit :=
  match n with
  | O => Ok tt
  | S n' =>
      if negb (last !!! i =? p) then Err "Invalid padding"
      else RemovePadding_loop n' (S i) last p
  end.

Definition RemovePadding (b : list byte) : outcome (list byte) :=
  let blocks := split b in
  let* last := index blocks (Z.of_nat (length blocks) - 1) in
  let* p := index b (Z.of_nat (length b) - 1) in
  if (p =? 0) || (p >? Z.of_nat (length last)) then Err "Invalid padding"
  else
    let begin := Z.of_nat (length last) - p in
    if begin <? 0 then Err "Invalid padding"
    else
      let* _ := RemovePadding_loop (length last - Z.to_nat begin) (Z.to_nat begin) last p in
      let last := take (Z.to_nat (Z.of_nat (length last) - p)) last in
      let* blocks := store blocks (Z.of_nat (length blocks) - 1) last in
      Ok (join blocks).

Definition createBlocks (b : list byte) : outcome (list (list byte)) :=
  let blocks := split b in
  let* last := index blocks (Z.of_nat (length blocks) - 1) in
  let paddedLast := padding last in
  if (length paddedLast =? 16)%nat then
    store blocks (Z.of_nat (length blocks) - 1) paddedLast
  else if (length paddedLast =? 32)%nat then
    let b := split paddedLast in
    let* b0 := index b 0 in
    let* blocks := store blocks (Z.of_nat (length blocks) - 1) b0 in
    let* b1 := index b 1 in
    Ok (blocks ++ [b1])
  else Ok blocks.

Definition xorBytes (a b : list byte) : list byte := zip_with Z.lxor a b.

(** ** Modes of operation *)

Definition Mode := Z.
Definition ECB : Mode := 0.
Definition CBC : Mode := 1.
Definition CTR : Mode := 2.

Fixpoint encryptECB_loop (blocks : list (list byte)) (r : list byte) (a : AES)
  : outcome (list byte * AES) :=
  match blocks with
  | [] => Ok (r, a)
  | block :: blocks' =>
      let* arr := toArray16 block in
      let* (cipherBlock, a) := EncryptBlock arr a in
      let s := convertMatrixToArray cipherBlock in
      encryptECB_loop blocks' (r ++ s) a
  end.

Definition encryptECB (plainText : list byte) (a : AES) : outcome (list byte * AES) :=
  let* blocks := createBlocks plainText in
  encryptECB_loop blocks [] a.

Fixpoint encryptCBC_loop (blocks : list (list byte)) (r previousCipherBlock : list byte)
    (a : AES) : outcome (list byte * AES) :=
  match blocks with
  | [] => Ok (r, a)
  | block :: blocks' =>
      let block := xorBytes block previousCipherBlock in
      let* arr := toArray16 block in
      let* (cipherBlock, a) := EncryptBlock arr a in
      let s := convertMatrixToArray cipherBlock in
      encryptCBC_loop blocks' (r ++ s) s a
  end.

Definition encryptCBC (plainText iv : list byte) (a : AES) : outcome (list byte * AES) :=
  let* blocks := createBlocks plainText in
  if negb (length iv =? 16)%nat then Panic (Explicit "IV must have 16 bytes")
  else
    let* (r, a) := encryptCBC_loop blocks [] iv a in
    Ok (iv ++ r, a).

(** The loop [for i := len(b) - 1; i >= 0; i--] of [addOneToByteSlice];
    [n] is [i + 1]. The Go function updates [b] in place and returns it, or
    a new and longer slice after the last carry; the model returns the
    updated slice. Its caller [encryptCTR] has copied the counter into its
    result before the loop, so what it returns shares nothing with the
    counter. *)
Fixpoint addOneToByteSlice_loop (n : nat) (b : list byte) : list byte :=
  match n with
  | O => 1 :: b
  | S i =>
      if b !!! i <? 255 then <[i := b !!! i + 1]> b
      else addOneToByteSlice_loop i (<[i := 0]> b)
  end.

Definition addOneToByteSlice (b : list byte) : list byte :=
  addOneToByteSlice_loop (length b) b.

Fixpoint encryptCTR_loop (blocks : list (list byte)) (r counter : list byte) (a : AES)
  : outcome (list byte * AES) :=
  match blocks with
  | [] => Ok (r, a)
  | block :: blocks' =>
      let* arr := toArray16 counter in
      let* (cipherBlock, a) := EncryptBlock arr a in
      let s := convertMatrixToArray cipherBlock in
      let xored := xorBytes block s in
      encryptCTR_loop blocks' (r ++ xored) (addOneToByteSlice counter) a
  end.

Definition encryptCTR (plainText counter : list byte) (a : AES)
  : outcome (list byte * AES) :=
  let blocks := split plainText in
  let r := copyInto (length counter) counter in
  encryptCTR_loop blocks r counter a.

Fixpoint decryptCBC_loop (blocks : list (list byte)) (r previousCipherBlock : list byte)
    (a : AES) : outcome (list byte * AES) :=
  match blocks with
  | [] => Ok (r, a)
  | block :: blocks' =>
      let* arr := toArray16 block in
      let* (cipherBlock, a) := DecryptBlock arr a in
      let s := convertMatrixToArray cipherBlock in
      let s := xorBytes s previousCipherBlock in
      decryptCBC_loop blocks' (r ++ s) block a
  end.

Definition decryptCBC (encrypted iv : list byte) (a : AES) : outcome (list byte * AES) :=
  let blocks := split encrypted in
  if negb (length iv =? 16)%nat then Panic (Explicit "IV must have 16 bytes")
  else
    let* (r, a) := decryptCBC_loop blocks [] iv a in
    let* b := RemovePadding r in
    Ok (b, a).

Fixpoint decryptECB_loop (blocks : list (list byte)) (r : list byte) (a : AES)
  : outcome (list byte * AES) :=
  match blocks with
  | [] => Ok (r, a)
  | block :: blocks' =>
      let* arr := toArray16 block in
      let* (cipherBlock, a) := DecryptBlock arr a in
      let s := convertMatrixToArray cipherBlock in
      decryptECB_loop blocks' (r ++ s) a
  end.

Definition decryptECB (encrypted : list byte) (a : AES) : outcome (list byte * AES) :=
  let blocks := split encrypted in
  let* (r, a) := decryptECB_loop blocks [] a in
  match RemovePadding r with
  | Ok b => Ok (b, a)
  | Err e => Panic (Explicit e)
  | Panic p => Panic p
  end.

(** [Encrypt] draws its IV or nonce from [key.Bit128().GetBytes()]; the 16
    random bytes that call returns are the argument [rand]. *)
Definition Encrypt (mode : Mode) (plaintext rand : list byte) (a : AES)
  : outcome (list byte * AES) :=
  if mode =? ECB then encryptECB plaintext a
  else if mode =? CBC then encryptCBC plaintext rand a
  else if mode =? CTR then encryptCTR plaintext rand a
  else Err "Invalid mode".

Definition Decrypt (mode : Mode) (encrypted : list byte) (a : AES)
  : outcome (list byte * AES) :=
  if mode =? ECB then decryptECB encrypted a
  else if mode =? CBC then
    if (length encrypted <? 16 * 2)%nat
    then Err "Invalid encrypted text. Must have at least 2 blocks: iv + encrypted block"
    else decryptCBC (drop 16 encrypted) (take 16 encrypted) a
  else if mode =? CTR then
    if (length encrypted <=? 16)%nat
    then Err "Invalid encrypted text. Must have at least 2 blocks: nonce + encrypted block"
    else
      let* (d, a) := encryptCTR (drop 16 encrypted) (take 16 encrypted) a in
      Ok (drop 16 d, a)
  else Err "Invalid mode".

(** ** The padding-oracle attack (package main) *)

(** The oracle holds the key; its only method reports whether CBC
    decryption succeeded and drops the decrypted bytes. *)
Record Oracle : Type := mkOracle { oracle_key : Key }.

Definition Oracle_Decrypt (o : Oracle) (encrypted : list byte) : outcome unit :=
  let* aes := New (oracle_key o) in
  let* _ := Decrypt CBC encrypted aes in
  Ok tt.

(** The loop [for x := 15; x > z; x--] of [findPaddingByte]; [n] counts
    the iterations that remain. [prev] and [dec] are 16 bytes long
    ([make([]byte, 16)] in [PaddingOracle]), so no index is out of range. *)
Fixpoint findPaddingByte_adjust (n : nat) (x : nat) (paddingValue : byte)
    (dec prev : list byte) : list byte :=
  match n with
  | O => prev
  | S n' =>
      let y := Z.lxor (dec !!! x) paddingValue in
      findPaddingByte_adjust n' (x - 1) paddingValue dec (<[x := y]> prev)
  end.

(** The loop [for j := 0x0; j <= 0xff; j++] of [findPaddingByte]; [n] counts
    the iterations that remain. The slice [prev] is updated in place, so
    the loop returns it with the byte found. *)
Fixpoint findPaddingByte_loop (n : nat) (j : Z) (oracle : Oracle)
    (prev last : list byte) (z : nat) : outcome (byte * list byte) :=
  match n with
  | O => Panic (Explicit "Could not find padding byte")
  | S n' =>
      let prev := <[z := toByte j]> prev in
      match Oracle_Decrypt oracle (prev ++ last) with
      | Panic p => Panic p
      | Err _ => findPaddingByte_loop n' (j + 1) oracle prev last z
      | Ok _ =>
          if (z =? 15)%nat then
            let prev := <[14%nat := Z.lxor (prev !!! 14%nat) 1]> prev in
            match Oracle_Decrypt oracle (prev ++ last) with
            | Panic p => Panic p
            | Err _ => findPaddingByte_loop n' (j + 1) oracle prev last z
            | Ok _ => Ok (toByte j, prev)
            end
          else Ok (toByte j, prev)
      end
  end.

Definition findPaddingByte (oracle : Oracle) (prev last dec : list byte) (z : nat)
  : outcome (byte * list byte) :=
  let paddingValue := toByte (16 - Z.of_nat z) in
  let prev :=
    if paddingValue >? 0x1
    then findPaddingByte_adjust (15 - z) 15 paddingValue dec prev
    else prev in
  findPaddingByte_loop 256 0 oracle prev last z.

(** The loop [for z := 15; z >= 0; z--] of [PaddingOracle]; [n] is [z + 1].
    [p] is the working copy of the previous block, shared by all the calls
    of [findPaddingByte] for one block. *)
Fixpoint PaddingOracle_bytes (n : nat) (oracle : Oracle) (i : nat)
    (prev last p dec decrypted : list byte) : outcome (list byte) :=
  match n with
  | O => Ok decrypted
  | S z =>
      let* (b, p) := findPaddingByte oracle p last dec z in
      let x := Z.lxor b (toByte (16 - Z.of_nat z)) in
      let dec := <[z := x]> dec in
      let* pz := index prev (Z.of_nat z) in
      let* decrypted := store decrypted (Z.of_nat i * 16 + Z.of_nat z) (Z.lxor x pz) in
      PaddingOracle_bytes z oracle i prev last p dec decrypted
  end.

(** The loop [for i := len(blocks) - 1; i >= 1; i--] of [PaddingOracle]. *)
Fixpoint PaddingOracle_blocks (i : nat) (oracle : Oracle)
    (blocks : list (list byte)) (decrypted : list byte) : outcome (list byte) :=
  match i with
  | O => Ok decrypted
  | S i' =>
      let* last := index blocks (Z.of_nat i) in
      let* prev := index blocks (Z.of_nat i - 1) in
      let dec := replicate 16 0 in
      let p := copyInto 16 prev in
      let* decrypted := PaddingOracle_bytes 16 oracle i prev last p dec decrypted in
      PaddingOracle_blocks i' oracle blocks decrypted
  end.

Definition PaddingOracle (oracle : Oracle) (encrypted : list byte) : outcome (list byte) :=
  let decrypted := replicate (length encrypted) 0 in
  let blocks := split encrypted in
  let* decrypted := PaddingOracle_blocks (length blocks - 1) oracle blocks decrypted in
  if (length decrypted <? 16)%nat then Panic SliceBounds
  else Ok (drop 16 decrypted).

(** ** The reference padding of the end-to-end tests (package main) *)

(** [pad] and [unpad] of end_to_end_test.go, which the tests put around the
    CBC mode of Go's own library. Go's [%] is the truncated remainder; a
    zero [blockSize] stops the division and a negative count stops
    [bytes.Repeat], each with the message of the Go runtime. *)
Definition pad (src : list byte) (blockSize : Z) : outcome (list byte) :=
  if blockSize =? 0 then Panic (Explicit "runtime error: integer divide by zero")
  else
    let padding := blockSize - Z.rem (Z.of_nat (length src)) blockSize in
    if padding <? 0 then Panic (Explicit "bytes: negative Repeat count")
    else
      let padtext := replicate (Z.to_nat padding) (toByte padding) in
      Ok (src ++ padtext).

Definition unpad (src : list byte) : outcome (list byte) :=
  let length := Z.of_nat (length src) in
  let* unpadding := index src (length - 1) in
  if unpadding >? length then Err "invalid padding"
  else Ok (take (Z.to_nat (length - unpadding)) src).

(** ** Functions used in the statements and proofs *)

(** The 256 byte values. *)
Definition byteRange : list Z := Z.of_nat <$> seq 0 256.

Definition matrix_bytes (m : matrix) : Prop := forall i j, is_byte (at_ m i j).

(** The round key that [generateNewRoundKey] derives from the previous one
    in round [round >= 1]. *)
Definition nextRoundKey (round : Z) (previousRoundKey : list byte) : list byte :=
  let w0 := slice 0 4 previousRoundKey in
  let w1 := slice 4 8 previousRoundKey in
  let w2 := slice 8 12 previousRoundKey in
  let w3 := slice 12 16 previousRoundKey in
  let t := xor (subWord (rotWord w3)) (rconTable !!! Z.to_nat (round - 1)) in
  let w4 := xor w0 t in
  let w5 := xor w4 w1 in
  let w6 := xor w5 w2 in
  let w7 := xor w6 w3 in
  w4 ++ (w5 ++ (w6 ++ w7)).

Fixpoint keysFrom (n : nat) (round : Z) (prev : list byte) : list (list byte) :=
  match n with
  | O => []
  | S n' => let k := nextRoundKey round prev in k :: keysFrom n' (round + 1) k
  end.

(** The eleven round keys of a key. *)
Definition keySchedule (k : list byte) : list (list byte) :=
  take 16 k :: keysFrom 10 1 (take 16 k).

(** The cipher object as [New] builds it and as the block functions keep
    it: a 16-byte key, ten rounds and room for eleven round keys. *)
Definition aes_ok (a : AES) : Prop :=
  length (GetBytes (key a)) = 16%nat /\ rounds a = 10 /\ length (roundKeys a) = 11%nat.

(** What [encryptRound] computes in round [i] with round key [k], for a
    cipher of ten rounds. *)
Definition encryptRoundWith (i : Z) (k : list byte) (state : matrix) : matrix :=
  let key := convertArrayToMatrix k in
  if i =? 0 then addRoundKey state key
  else
    let r := shiftRows (subMatrix state) in
    let r := if i <? 10 then mixColumns r else r in
    addRoundKey r key.

Definition decryptRoundWith (i : Z) (k : list byte) (state : matrix) : matrix :=
  let key := convertArrayToMatrix k in
  if i =? 10 then addRoundKey state key
  else
    let r := addRoundKey (invSubMatrix (invShiftRows state)) key in
    if i >? 0 then invMixColumns r else r.

Fixpoint encryptRounds (n : nat) (i : Z) (ks : list (list byte)) (block : matrix)
  : matrix :=
  match n with
  | O => block
  | S n' => encryptRounds n' (i + 1) ks (encryptRoundWith i (ks !!! Z.to_nat i) block)
  end.

Fixpoint decryptRounds (n : nat) (i : Z) (ks : list (list byte)) (block : matrix)
  : matrix :=
  match n with
  | O => block
  | S n' => decryptRounds n' (i - 1) ks (decryptRoundWith i (ks !!! Z.to_nat i) block)
  end.

(** The cipher and its inverse on one block, for key bytes [k]. *)
Definition cipher (k b : list byte) : matrix :=
  encryptRounds 11 0 (keySchedule k) (convertArrayToMatrix b).

Definition invCipher (k b : list byte) : matrix :=
  decryptRounds 11 10 (keySchedule k) (convertArrayToMatrix b).

(** The cipher object that a block function leaves behind. *)
Definition afterBlock (a : AES) (round : Z) : AES :=
  mkAES (key a) 10 round (keySchedule (GetBytes (key a))).

(** A block encrypted and then decrypted by one cipher object, and the
    converse; the block functions return the state matrix, which
    [convertMatrixToArray] turns back into a block. *)
Definition encryptThenDecrypt (k : Key) (b : list byte) : outcome (list byte) :=
  let* a := New k in
  let* (m, a) := EncryptBlock b a in
  let* (m', _) := DecryptBlock (convertMatrixToArray m) a in
  Ok (convertMatrixToArray m').

Definition decryptThenEncrypt (k : Key) (b : list byte) : outcome (list byte) :=
  let* a := New k in
  let* (m, a) := DecryptBlock b a in
  let* (m', _) := EncryptBlock (convertMatrixToArray m) a in
  Ok (convertMatrixToArray m').

(** One block encrypted by a fresh cipher object, as a block. *)
Definition encryptOneBlock (k : Key) (b : list byte) : outcome (list byte) :=
  let* a := New k in
  let* (m, _) := EncryptBlock b a in
  Ok (convertMatrixToArray m).

(** Decidable form of [bytes]. *)
Definition bytesb (l : list byte) : bool :=
  forallb (fun x => (0 <=? x) && (x <? 256)) l.

(** The FIPS-197 example vectors (Appendix C.1 and Appendix B), as in
    [TestEncryptBlock]. *)
Definition fipsKeyC1 : list byte :=
  [0x00; 0x01; 0x02; 0x03; 0x04; 0x05; 0x06; 0x07; 0x08; 0x09; 0x0a; 0x0b; 0x0c; 0x0d; 0x0e; 0x0f].
Definition fipsPlainC1 : list byte :=
  [0x00; 0x11; 0x22; 0x33; 0x44; 0x55; 0x66; 0x77; 0x88; 0x99; 0xaa; 0xbb; 0xcc; 0xdd; 0xee; 0xff].
Definition fipsCipherC1 : list byte :=
  [0x69; 0xc4; 0xe0; 0xd8; 0x6a; 0x7b; 0x04; 0x30; 0xd8; 0xcd; 0xb7; 0x80; 0x70; 0xb4; 0xc5; 0x5a].
Definition fipsKeyB : list byte :=
  [0x2b; 0x7e; 0x15; 0x16; 0x28; 0xae; 0xd2; 0xa6; 0xab; 0xf7; 0x15; 0x88; 0x09; 0xcf; 0x4f; 0x3c].
Definition fipsPlainB : list byte :=
  [0x32; 0x43; 0xf6; 0xa8; 0x88; 0x5a; 0x30; 0x8d; 0x31; 0x31; 0x98; 0xa2; 0xe0; 0x37; 0x07; 0x34].
Definition fipsCipherB : list byte :=
  [0x39; 0x25; 0x84; 0x1d; 0x02; 0xdc; 0x09; 0xfb; 0xdc; 0x11; 0x85; 0x97; 0x19; 0x6a; 0x0b; 0x32].

(** The number a byte slice denotes, most significant byte first. *)
Definition bigEndian (b : list byte) : Z :=
  fold_left (fun acc x => acc * 256 + x) b 0.

(** One block through the cipher and through its inverse, as blocks. *)
Definition encBlock (k b : list byte) : list byte := convertMatrixToArray (cipher k b).
Definition decBlock (k b : list byte) : list byte := convertMatrixToArray (invCipher k b).

(** The cipher blocks that the CBC loop appends, the plaintext blocks that
    the CBC decryption loop appends, and the blocks that the CTR loop
    appends. *)
Fixpoint cbcChain (k prev : list byte) (blocks : list (list byte)) : list (list byte) :=
  match blocks with
  | [] => []
  | b :: bs => let c := encBlock k (xorBytes b prev) in c :: cbcChain k c bs
  end.

Fixpoint cbcUnchain (k prev : list byte) (blocks : list (list byte)) : list (list byte) :=
  match blocks with
  | [] => []
  | c :: cs => xorBytes (decBlock k c) prev :: cbcUnchain k c cs
  end.

Fixpoint ctrStream (k counter : list byte) (blocks : list (list byte)) : list (list byte) :=
  match blocks with
  | [] => []
  | b :: bs =>
      xorBytes b (encBlock k (take 16 counter)) :: ctrStream k (addOneToByteSlice counter) bs
  end.

(** A block of exactly 16 bytes. *)
Definition full (b : list byte) : Prop := length b = 16%nat.

(** The same cipher, possibly after some block calls. *)
Definition same_cipher (a a' : AES) : Prop := aes_ok a' /\ key a' = key a.

(** A 16-byte buffer that [RemovePadding] accepts: its last byte [p] is
    between 1 and 16 and its last [p] bytes all hold [p]. *)
Definition validPadding (r : list byte) : Prop :=
  let p := r !!! 15%nat in
  p <> 0 /\ p <= 16 /\ forall j, (Z.to_nat (16 - p) <= j < 16)%nat -> r !!! j = p.

(** Two oracles that give the same answers: success, failure (whatever the
    message) or the same panic. *)
Definition sameAnswer (x y : outcome unit) : Prop :=
  match x, y with
  | Ok _, Ok _ => True
  | Err _, Err _ => True
  | Panic p, Panic q => p = q
  | _, _ => False
  end.

(** The inputs and expected outputs of [TestEncryptionECB] and
    [TestEncryptionCBC]: the key [128bitsforkeysss], the IV
    [9876543210abcdef], a plaintext of 30 bytes and one of 48 bytes. *)
Definition testKey : list byte :=
  [ 0x31; 0x32; 0x38; 0x62; 0x69; 0x74; 0x73; 0x66; 0x6f; 0x72; 0x6b; 0x65; 0x79; 0x73; 0x73; 0x73 ].
Definition testIV : list byte :=
  [ 0x39; 0x38; 0x37; 0x36; 0x35; 0x34; 0x33; 0x32; 0x31; 0x30; 0x61; 0x62; 0x63; 0x64; 0x65; 0x66 ].
Definition testPlain : list byte :=
  [ 0x4c; 0x65; 0x74; 0x27; 0x73; 0x20; 0x74; 0x65; 0x73; 0x74; 0x20; 0x69; 0x66; 0x20; 0x74; 0x68;
    0x69; 0x73; 0x20; 0x69; 0x73; 0x20; 0x77; 0x6f; 0x72; 0x6b; 0x69; 0x6e; 0x67; 0x21 ].
Definition testECB : list byte :=
  [ 0xa9; 0x22; 0xdd; 0xf3; 0x30; 0xc8; 0x34; 0xf6; 0xb7; 0x05; 0xff; 0x9c; 0x76; 0x28; 0x41; 0xec;
    0xd6; 0x20; 0x1d; 0x05; 0x8f; 0x9b; 0x8c; 0x91; 0x86; 0xd6; 0xdd; 0x76; 0x24; 0xd3; 0xcd; 0x20 ].
Definition testCBC : list byte :=
  [ 0x39; 0x38; 0x37; 0x36; 0x35; 0x34; 0x33; 0x32; 0x31; 0x30; 0x61; 0x62; 0x63; 0x64; 0x65; 0x66;
    0x63; 0x16; 0x3f; 0x78; 0xc2; 0x64; 0xd7; 0x99; 0x78; 0x6c; 0x66; 0x5a; 0x38; 0x58; 0xef; 0x20;
    0x20; 0x40; 0x10; 0x81; 0x05; 0x9a; 0x51; 0xef; 0xcb; 0x02; 0xe3; 0x58; 0x50; 0x02; 0xf9; 0x0f ].
Definition testCBCBadPadding : list byte :=
  [ 0x39; 0x38; 0x37; 0x36; 0x35; 0x34; 0x33; 0x32; 0x31; 0x30; 0x61; 0x62; 0x63; 0x64; 0x65; 0x66;
    0x63; 0x16; 0x3f; 0x78; 0xc2; 0x64; 0xd7; 0x99; 0x78; 0x6c; 0x66; 0x5a; 0x38; 0x58; 0xef; 0x20;
    0x20; 0x40; 0x10; 0x81; 0x05; 0x9a; 0x51; 0xef; 0xcb; 0x02; 0xe3; 0x58; 0x50; 0x02; 0xf9; 0x0e ].
Definition testPlain3 : list byte :=
  [ 0x54; 0x68; 0x65; 0x20; 0x71; 0x75; 0x69; 0x63; 0x6b; 0x20; 0x62; 0x72; 0x6f; 0x77; 0x6e; 0x20;
    0x66; 0x6f; 0x78; 0x20; 0x6a; 0x75; 0x6d; 0x70; 0x73; 0x20; 0x6f; 0x76; 0x65; 0x72; 0x20; 0x74;
    0x68; 0x65; 0x20; 0x6c; 0x61; 0x7a; 0x79; 0x20; 0x64; 0x6f; 0x67; 0x20; 0x31; 0x32; 0x33; 0x34 ].
Definition testECB3 : list byte :=
  [ 0xe6; 0xa1; 0x20; 0x61; 0x7f; 0xd6; 0x1a; 0xcd; 0x2f; 0x67; 0x46; 0x83; 0xe6; 0x68; 0xfa; 0xf8;
    0x0d; 0xe7; 0x19; 0x5d; 0x49; 0xc0; 0x76; 0xd0; 0xb6; 0xe4; 0xc6; 0x11; 0x2a; 0x90; 0x09; 0x5c;
    0x76; 0x93; 0xde; 0x53; 0xe6; 0x43; 0xd4; 0xc0; 0x13; 0xc8; 0x97; 0xd0; 0xf6; 0xce; 0xe6; 0xf8;
    0x96; 0x61; 0x28; 0xde; 0x2b; 0xef; 0x1f; 0xe7; 0xb3; 0x81; 0xb1; 0x1d; 0x7b; 0x38; 0xbf; 0x1f ].
Definition testCBC3 : list byte :=
  [ 0x39; 0x38; 0x37; 0x36; 0x35; 0x34; 0x33; 0x32; 0x31; 0x30; 0x61; 0x62; 0x63; 0x64; 0x65; 0x66;
    0x33; 0x5a; 0x1a; 0xdb; 0xd4; 0x67; 0xc9; 0x18; 0x27; 0x20; 0xab; 0x33; 0x36; 0x0e; 0xe5; 0xe2;
    0x01; 0x25; 0x5e; 0x78; 0x2f; 0x3f; 0xa3; 0x28; 0xa3; 0x90; 0xf8; 0xd7; 0x4f; 0x17; 0x05; 0xf6;
    0x72; 0x67; 0xae; 0x74; 0xc5; 0xc6; 0xc3; 0x47; 0x93; 0xa4; 0x21; 0x90; 0x9c; 0x66; 0x60; 0x9d;
    0x88; 0xdf; 0xc2; 0x8e; 0xb5; 0xf6; 0xb8; 0xde; 0x63; 0xbf; 0xf5; 0x66; 0x2f; 0xe3; 0xaf; 0x2d ].

(** The value a call returns, without the cipher object. *)
Definition returned {A} (r : outcome (A * AES)) : outcome A :=
  let* (x, _) := r in Ok x.

(** A call on a fresh cipher object for the test key. *)
Definition onTestKey {A} (f : AES -> outcome (A * AES)) : outcome A :=
  let* a := New (NewKey testKey) in returned (f a).

(** Block [i] of a byte slice: [l[16*i : 16*i+16]], cut at the end of [l]. *)
Definition blockAt (i : nat) (l : list byte) : list byte := take 16 (drop (16 * i) l).

(** * Proofs *)

(** * Bytes *)

Lemma elem_of_byteRange x : is_byte x -> x ∈ byteRange.
Proof.
  intros [H0 H1]. unfold byteRange.
  apply list_elem_of_fmap. exists (Z.to_nat x). split; [lia|].
  apply elem_of_seq. lia.
Qed.

(** A boolean property checked on the 256 byte values holds of every byte. *)
Lemma byte_forall (f : Z -> bool) :
  forallb f byteRange = true -> forall x, is_byte x -> f x = true.
Proof.
  intros H x Hx. rewrite forallb_forall in H. apply H.
  apply list_elem_of_In, elem_of_byteRange, Hx.
Qed.

Ltac byte_cases :=
  match goal with
  | |- forall x, is_byte x -> @?f x = true =>
      apply (byte_forall f); vm_compute; reflexivity
  end.

Lemma lxor_is_byte a b : is_byte a -> is_byte b -> is_byte (Z.lxor a b).
Proof.
  intros Ha Hb. unfold is_byte in *.
  split; [apply Z.lxor_nonneg; lia|].
  destruct (Z.eq_dec (Z.lxor a b) 0) as [->|Hne]; [lia|].
  assert (0 <= Z.lxor a b) by (apply Z.lxor_nonneg; lia).
  change 256 with (2 ^ 8). apply Z.log2_lt_pow2; [lia|].
  eapply Z.le_lt_trans; [apply Z.log2_lxor; lia|].
  apply Z.max_lub_lt.
  - destruct (Z.eq_dec a 0) as [->|]; [reflexivity|]. apply Z.log2_lt_pow2; lia.
  - destruct (Z.eq_dec b 0) as [->|]; [reflexivity|]. apply Z.log2_lt_pow2; lia.
Qed.

Lemma lxor_cancel_r a b : Z.lxor (Z.lxor a b) b = a.
Proof. rewrite Z.lxor_assoc, Z.lxor_nilpotent, Z.lxor_0_r. reflexivity. Qed.

Lemma lxor_cancel_l a b : Z.lxor a (Z.lxor a b) = b.
Proof. rewrite <- Z.lxor_assoc, Z.lxor_nilpotent, Z.lxor_0_l. reflexivity. Qed.

Lemma lxor_move a b c : Z.lxor a b = c <-> b = Z.lxor a c.
Proof.
  split; intros H; subst.
  - symmetry. apply lxor_cancel_l.
  - apply lxor_cancel_l.
Qed.

Lemma toByte_is_byte x : is_byte (toByte x).
Proof. unfold toByte, is_byte. apply Z.mod_pos_bound. lia. Qed.

Lemma toByte_small x : is_byte x -> toByte x = x.
Proof. intros H. apply Z.mod_small, H. Qed.

(** * Substitution tables *)

Lemma sBox_is_byte x : is_byte x -> is_byte (sub sBox x).
Proof.
  intros Hx. unfold is_byte.
  enough ((0 <=? sub sBox x) && (sub sBox x <? 256) = true) by lia.
  revert x Hx. byte_cases.
Qed.

Lemma invSBox_is_byte x : is_byte x -> is_byte (sub invSBox x).
Proof.
  intros Hx. unfold is_byte.
  enough ((0 <=? sub invSBox x) && (sub invSBox x <? 256) = true) by lia.
  revert x Hx. byte_cases.
Qed.

Lemma invSBox_sBox x : is_byte x -> sub invSBox (sub sBox x) = x.
Proof. intros Hx. apply Z.eqb_eq. revert x Hx. byte_cases. Qed.

Lemma sBox_invSBox x : is_byte x -> sub sBox (sub invSBox x) = x.
Proof. intros Hx. apply Z.eqb_eq. revert x Hx. byte_cases. Qed.

(** Equations between xor-combinations, decided bit by bit. *)
Ltac xor_solve :=
  apply Z.bits_inj'; intros ? _; rewrite ?Z.lxor_spec, ?Z.bits_0; btauto.

(** * Galois field multiplication *)

Lemma land_1_lxor a b :
  Z.land (Z.lxor a b) 1 = Z.lxor (Z.land a 1) (Z.land b 1).
Proof.
  apply Z.bits_inj'. intros n Hn.
  rewrite !Z.lxor_spec, !Z.land_spec, !Z.lxor_spec. btauto.
Qed.

Lemma land_1_cases a : Z.land a 1 = 0 \/ Z.land a 1 = 1.
Proof.
  assert (Z.land a 1 = a mod 2) as ->.
  { change 1 with (Z.ones 1). apply Z.land_ones. lia. }
  pose proof (Z.mod_pos_bound a 2). lia.
Qed.

(** [gmul] is additive in its second argument, for any first argument. *)
Lemma gmul_loop_lxor n : forall a b1 b2 p1 p2,
  gmul_loop n a (Z.lxor b1 b2) (Z.lxor p1 p2)
  = Z.lxor (gmul_loop n a b1 p1) (gmul_loop n a b2 p2).
Proof.
  induction n as [|n IH]; intros a b1 b2 p1 p2; [reflexivity|].
  cbn [gmul_loop]. rewrite Z.shiftr_lxor, land_1_lxor.
  destruct (land_1_cases b1) as [->| ->], (land_1_cases b2) as [->| ->];
    change (Z.lxor 0 0) with 0; change (Z.lxor 0 1) with 1;
    change (Z.lxor 1 0) with 1; change (Z.lxor 1 1) with 0;
    change (negb (1 =? 0)) with true; change (negb (0 =? 0)) with false;
    cbv iota; rewrite <- IH; f_equal; xor_solve.
Qed.

Lemma gmul_lxor a x y : gmul a (Z.lxor x y) = Z.lxor (gmul a x) (gmul a y).
Proof. unfold gmul. rewrite <- gmul_loop_lxor. reflexivity. Qed.

Lemma gmul_loop_is_byte n : forall a b p,
  is_byte a -> is_byte p -> is_byte (gmul_loop n a b p).
Proof.
  induction n as [|n IH]; intros a b p Ha Hp; [exact Hp|].
  cbn [gmul_loop]. apply IH.
  - destruct (negb _); [apply lxor_is_byte|];
      try apply (toByte_is_byte (Z.shiftl a 1)).
    unfold is_byte; lia.
  - destruct (negb _); [apply lxor_is_byte|]; assumption.
Qed.

Lemma gmul_is_byte a b : is_byte a -> is_byte (gmul a b).
Proof. intros Ha. apply gmul_loop_is_byte; [assumption|unfold is_byte; lia]. Qed.

(** * The state matrix *)

Lemma build_bytes f : (forall i j, is_byte (f i j)) -> matrix_bytes (build f).
Proof.
  intros H i j.
  destruct i as [|[|[|?]]], j as [|[|[|?]]]; cbn; apply H.
Qed.

Lemma matrix_bytes_Mat a0 a1 a2 a3 b0 b1 b2 b3 d0 d1 d2 d3 e0 e1 e2 e3 :
  matrix_bytes (Mat (Row a0 a1 a2 a3) (Row b0 b1 b2 b3) (Row d0 d1 d2 d3) (Row e0 e1 e2 e3))
  <-> (is_byte a0 /\ is_byte a1 /\ is_byte a2 /\ is_byte a3)
      /\ (is_byte b0 /\ is_byte b1 /\ is_byte b2 /\ is_byte b3)
      /\ (is_byte d0 /\ is_byte d1 /\ is_byte d2 /\ is_byte d3)
      /\ (is_byte e0 /\ is_byte e1 /\ is_byte e2 /\ is_byte e3).
Proof.
  split.
  - intros H.
    pose proof (fun i j => H (Z.to_nat i) (Z.to_nat j)) as H'.
    repeat match goal with |- _ /\ _ => split end;
      first [ exact (H' 0 0) | exact (H' 0 1) | exact (H' 0 2) | exact (H' 0 3)
            | exact (H' 1 0) | exact (H' 1 1) | exact (H' 1 2) | exact (H' 1 3)
            | exact (H' 2 0) | exact (H' 2 1) | exact (H' 2 2) | exact (H' 2 3)
            | exact (H' 3 0) | exact (H' 3 1) | exact (H' 3 2) | exact (H' 3 3) ].
  - intros H i j.
    destruct i as [|[|[|?]]], j as [|[|[|?]]]; cbn; tauto.
Qed.

(** Splits a matrix into its sixteen entries, with their ranges. *)
Ltac matrix_entries m H :=
  destruct m as [[? ? ? ?] [? ? ? ?] [? ? ? ?] [? ? ? ?]];
  apply matrix_bytes_Mat in H;
  destruct H as ((? & ? & ? & ?) & (? & ? & ? & ?) & (? & ? & ? & ?) & (? & ? & ? & ?)).

Lemma xorMatrix_bytes a b : matrix_bytes a -> matrix_bytes b -> matrix_bytes (xorMatrix a b).
Proof. intros Ha Hb. apply build_bytes. intros i j. apply lxor_is_byte; auto. Qed.

Lemma subMatrix_bytes m : matrix_bytes m -> matrix_bytes (subMatrix m).
Proof. intros H. apply build_bytes. intros i j. apply sBox_is_byte, H. Qed.

Lemma invSubMatrix_bytes m : matrix_bytes m -> matrix_bytes (invSubMatrix m).
Proof. intros H. apply build_bytes. intros i j. apply invSBox_is_byte, H. Qed.

Lemma shiftRows_bytes m : matrix_bytes m -> matrix_bytes (shiftRows m).
Proof.
  intros H. matrix_entries m H. apply matrix_bytes_Mat. cbn. tauto.
Qed.

Lemma invShiftRows_bytes m : matrix_bytes m -> matrix_bytes (invShiftRows m).
Proof.
  intros H. matrix_entries m H. apply matrix_bytes_Mat. cbn. tauto.
Qed.

Lemma is_byte_const n : (0 <=? n) && (n <? 256) = true -> is_byte n.
Proof. unfold is_byte. lia. Qed.

Lemma mixColumns_bytes m : matrix_bytes m -> matrix_bytes (mixColumns m).
Proof.
  intros H. apply build_bytes. intros i j.
  destruct i as [|[|[|?]]];
    repeat apply lxor_is_byte; try apply gmul_is_byte; try apply H;
    apply is_byte_const; reflexivity.
Qed.

Lemma invMixColumns_bytes m : matrix_bytes m -> matrix_bytes (invMixColumns m).
Proof.
  intros H. apply build_bytes. intros i j.
  destruct i as [|[|[|?]]];
    repeat apply lxor_is_byte; try apply gmul_is_byte; try apply H;
    apply is_byte_const; reflexivity.
Qed.

Lemma xorMatrix_involutive m k : xorMatrix (xorMatrix m k) k = m.
Proof.
  destruct m as [[? ? ? ?] [? ? ? ?] [? ? ? ?] [? ? ? ?]].
  destruct k as [[? ? ? ?] [? ? ? ?] [? ? ? ?] [? ? ? ?]].
  unfold xorMatrix, build. cbn -[Z.lxor]. rewrite !lxor_cancel_r. reflexivity.
Qed.

Lemma invShiftRows_shiftRows m : invShiftRows (shiftRows m) = m.
Proof. destruct m as [[? ? ? ?] [? ? ? ?] [? ? ? ?] [? ? ? ?]]. reflexivity. Qed.

Lemma shiftRows_invShiftRows m : shiftRows (invShiftRows m) = m.
Proof. destruct m as [[? ? ? ?] [? ? ? ?] [? ? ? ?] [? ? ? ?]]. reflexivity. Qed.

Lemma invSubMatrix_subMatrix m : matrix_bytes m -> invSubMatrix (subMatrix m) = m.
Proof.
  intros H. matrix_entries m H. unfold invSubMatrix, subMatrix, build. cbn -[sub]. rewrite !invSBox_sBox by assumption. reflexivity.
Qed.

Lemma subMatrix_invSubMatrix m : matrix_bytes m -> subMatrix (invSubMatrix m) = m.
Proof.
  intros H. matrix_entries m H. unfold invSubMatrix, subMatrix, build. cbn -[sub]. rewrite !sBox_invSBox by assumption. reflexivity.
Qed.

(** Sixteen values combined row by row or column by column. *)
Lemma lxor_transpose a0 a1 a2 a3 b0 b1 b2 b3 d0 d1 d2 d3 e0 e1 e2 e3 :
  Z.lxor (Z.lxor (Z.lxor
    (Z.lxor (Z.lxor (Z.lxor a0 a1) a2) a3)
    (Z.lxor (Z.lxor (Z.lxor b0 b1) b2) b3))
    (Z.lxor (Z.lxor (Z.lxor d0 d1) d2) d3))
    (Z.lxor (Z.lxor (Z.lxor e0 e1) e2) e3)
  = Z.lxor (Z.lxor (Z.lxor
    (Z.lxor (Z.lxor (Z.lxor a0 b0) d0) e0)
    (Z.lxor (Z.lxor (Z.lxor a1 b1) d1) e1))
    (Z.lxor (Z.lxor (Z.lxor a2 b2) d2) e2))
    (Z.lxor (Z.lxor (Z.lxor a3 b3) d3) e3).
Proof. xor_solve. Qed.

(** An equation between byte expressions in [x] alone, checked on all
    bytes. *)
Ltac byte_eq x :=
  match goal with
  | H : is_byte x |- _ = _ =>
      apply Z.eqb_eq; generalize H; generalize x; clear; byte_cases
  end.

(** After regrouping by input byte, each group is the product of a row of
    one matrix by a column of the other: the byte itself on the diagonal,
    zero elsewhere. *)
Ltac mix_group G :=
  match G with
  | context [gmul _ ?x] =>
      is_var x;
      first [ replace G with 0 by (symmetry; byte_eq x)
            | replace G with x by (symmetry; byte_eq x) ]
  end.

Ltac mix_groups :=
  rewrite ?gmul_lxor, lxor_transpose;
  match goal with
  | |- Z.lxor (Z.lxor (Z.lxor ?A ?B) ?C) ?D = _ =>
      mix_group A; mix_group B; mix_group C; mix_group D
  end;
  rewrite ?Z.lxor_0_r, ?Z.lxor_0_l; reflexivity.

Lemma invMixColumns_mixColumns m : matrix_bytes m -> invMixColumns (mixColumns m) = m.
Proof.
  intros H. matrix_entries m H.
  unfold invMixColumns, mixColumns, build. cbn -[gmul Z.lxor].
  f_equal; f_equal; mix_groups.
Qed.

Lemma mixColumns_invMixColumns m : matrix_bytes m -> mixColumns (invMixColumns m) = m.
Proof.
  intros H. matrix_entries m H.
  unfold invMixColumns, mixColumns, build. cbn -[gmul Z.lxor].
  f_equal; f_equal; mix_groups.
Qed.

(** * Key schedule and rounds as functions of the key *)

Lemma lookup_total_bytes (l : list byte) i : bytes l -> is_byte (l !!! i).
Proof.
  intros H. destruct (l !! i) as [x|] eqn:E.
  - rewrite (list_lookup_total_correct _ _ _ E).
    eapply Forall_lookup_1; eauto.
  - rewrite list_lookup_total_alt, E. cbn. unfold is_byte. lia.
Qed.

Lemma convertArrayToMatrix_bytes b : bytes b -> matrix_bytes (convertArrayToMatrix b).
Proof.
  intros H. apply matrix_bytes_Mat.
  repeat match goal with |- _ /\ _ => split end; apply lookup_total_bytes, H.
Qed.

Lemma convertMatrixToArray_bytes m : matrix_bytes m -> bytes (convertMatrixToArray m).
Proof. intros H. repeat constructor; apply H. Qed.

Lemma convertMatrixToArray_length m : length (convertMatrixToArray m) = 16%nat.
Proof. reflexivity. Qed.

Lemma convertArrayToMatrix_convertMatrixToArray m :
  convertArrayToMatrix (convertMatrixToArray m) = m.
Proof. destruct m as [[? ? ? ?] [? ? ? ?] [? ? ? ?] [? ? ? ?]]. reflexivity. Qed.

Lemma convertMatrixToArray_convertArrayToMatrix b :
  length b = 16%nat -> convertMatrixToArray (convertArrayToMatrix b) = b.
Proof.
  intros H.
  do 16 (destruct b as [|? b]; [discriminate H|]).
  destruct b; [reflexivity|discriminate H].
Qed.

Lemma toArray16_exact s : length s = 16%nat -> toArray16 s = Ok s.
Proof.
  intros H. unfold toArray16. rewrite H. cbn [Nat.ltb Nat.leb].
  rewrite firstn_all2 by lia. reflexivity.
Qed.

Lemma nextRoundKey_length round prev : length (nextRoundKey round prev) = 16%nat.
Proof. reflexivity. Qed.

Lemma xor_bytes a b : bytes a -> bytes b -> bytes (xor a b).
Proof.
  intros Ha Hb. unfold xor.
  repeat constructor; apply lxor_is_byte; apply lookup_total_bytes; assumption.
Qed.

Lemma slice_bytes lo hi s : bytes s -> bytes (slice lo hi s).
Proof. intros H. unfold slice. apply Forall_take, Forall_drop, H. Qed.

Lemma rconTable_bytes i : bytes (rconTable !!! i).
Proof.
  do 10 (destruct i as [|i]; [repeat constructor; apply is_byte_const; reflexivity|]).
  constructor.
Qed.

Lemma nextRoundKey_bytes round prev : bytes prev -> bytes (nextRoundKey round prev).
Proof.
  intros H. unfold nextRoundKey.
  assert (Ht : bytes (xor (subWord (rotWord (slice 12 16 prev)))
                          (rconTable !!! Z.to_nat (round - 1)))).
  { apply xor_bytes; [|apply rconTable_bytes].
    unfold subWord, rotWord.
    repeat constructor; apply sBox_is_byte; apply lookup_total_bytes;
      repeat constructor; apply lookup_total_bytes, slice_bytes, H. }
  cbv zeta.
  set (t := xor (subWord _) _) in *.
  set (w4 := xor (slice 0 4 prev) t).
  set (w5 := xor w4 (slice 4 8 prev)).
  set (w6 := xor w5 (slice 8 12 prev)).
  assert (bytes w4) by (apply xor_bytes; auto using slice_bytes).
  assert (bytes w5) by (apply xor_bytes; auto using slice_bytes).
  assert (bytes w6) by (apply xor_bytes; auto using slice_bytes).
  unfold bytes in *.
  repeat apply Forall_app_2; try assumption.
  apply xor_bytes; auto using slice_bytes.
Qed.

Lemma keysFrom_bytes n : forall round prev,
  bytes prev -> Forall bytes (keysFrom n round prev).
Proof.
  induction n as [|n IH]; intros round prev H; cbn [keysFrom]; constructor.
  - apply nextRoundKey_bytes, H.
  - apply IH, nextRoundKey_bytes, H.
Qed.

Lemma keySchedule_bytes k : bytes k -> Forall bytes (keySchedule k).
Proof.
  intros H. unfold keySchedule. constructor.
  - apply Forall_take, H.
  - apply keysFrom_bytes, Forall_take, H.
Qed.

Lemma keysFrom_length n : forall round prev, length (keysFrom n round prev) = n.
Proof. induction n as [|n IH]; intros; cbn [keysFrom length]; [|rewrite IH]; reflexivity. Qed.

Lemma index_lookup {A} (l : list A) (i : Z) x :
  0 <= i -> l !! Z.to_nat i = Some x -> index l i = Ok x.
Proof.
  intros Hi H. unfold index. rewrite (proj2 (Z.ltb_ge i 0) Hi), H. reflexivity.
Qed.

Lemma store_insert {A} (l : list A) (i : Z) v :
  0 <= i < Z.of_nat (length l) -> store l i v = Ok (<[Z.to_nat i := v]> l).
Proof.
  intros Hi. unfold store.
  rewrite (proj2 (Z.ltb_ge i 0)), (proj2 (Z.leb_gt _ _)) by lia. reflexivity.
Qed.

Lemma generateNewRoundKey_next a prev :
  1 <= currentRound a <= 10 ->
  roundKeys a !! Z.to_nat (currentRound a - 1) = Some prev ->
  generateNewRoundKey a = Ok (nextRoundKey (currentRound a) prev).
Proof.
  intros Hi Hprev. unfold generateNewRoundKey.
  rewrite (proj2 (Z.eqb_neq _ 0)) by lia.
  rewrite (index_lookup _ _ prev) by (assumption || lia).
  cbn [bind]. unfold rcon.
  rewrite (index_lookup _ _ (rconTable !!! Z.to_nat (currentRound a - 1))).
  - cbn [bind]. apply toArray16_exact. reflexivity.
  - lia.
  - apply list_lookup_lookup_total_lt. cbn [rconTable length]. lia.
Qed.

Lemma generateAllKeys_loop_run n : forall i a done prev rest,
  1 <= i -> i + Z.of_nat n = 11 ->
  currentRound a = i ->
  roundKeys a = done ++ prev :: rest ->
  Z.of_nat (length done) = i - 1 ->
  length rest = n ->
  generateAllKeys_loop n i a
  = Ok (mkAES (key a) (rounds a) 11 (done ++ prev :: keysFrom n i prev)).
Proof.
  induction n as [|n IH]; intros i a done prev rest Hi Hn Hcur Hks Hdone Hrest.
  - destruct rest; [|discriminate Hrest].
    cbn [generateAllKeys_loop keysFrom]. destruct a; cbn in *. subst.
    f_equal. f_equal. lia.
  - destruct rest as [|r rest]; [discriminate Hrest|].
    cbn [generateAllKeys_loop keysFrom].
    rewrite (generateNewRoundKey_next a prev).
    + cbn [bind]. rewrite store_insert.
      * cbn [bind]. rewrite Hcur.
        rewrite (IH (i + 1) _ (done ++ [prev]) (nextRoundKey i prev) rest).
        -- cbn [key rounds nextRound setRound setRoundKeys].
           rewrite <- app_assoc. reflexivity.
        -- lia.
        -- lia.
        -- cbn. lia.
        -- cbn [roundKeys nextRound setRound setRoundKeys].
           rewrite Hks. replace (Z.to_nat i) with (length (done ++ [prev]) + 0)%nat
             by (rewrite length_app; cbn; lia).
           change (done ++ prev :: r :: rest) with (done ++ [prev] ++ r :: rest).
           rewrite (app_assoc done [prev]), insert_app_r. reflexivity.
        -- rewrite length_app. cbn. lia.
        -- injection Hrest as ->. reflexivity.
      * rewrite Hks, length_app. cbn [length]. lia.
    + lia.
    + rewrite Hks, Hcur. replace (Z.to_nat (i - 1)) with (length done + 0)%nat by lia.
      rewrite lookup_app_r by lia. replace (length done + 0 - length done)%nat with 0%nat by lia.
      reflexivity.
Qed.

Lemma generateAllKeys_loop_S n i a :
  generateAllKeys_loop (S n) i a
  = let* k := generateNewRoundKey a in
    let* ks := store (roundKeys a) i k in
    generateAllKeys_loop n (i + 1) (nextRound (setRoundKeys ks a)).
Proof. reflexivity. Qed.

Lemma generateAllKeys_run a :
  aes_ok a ->
  generateAllKeys a = Ok (mkAES (key a) 10 11 (keySchedule (GetBytes (key a)))).
Proof.
  intros (Hk & Hr & Hl). destruct a as [k r c ks].
  cbn [key rounds roundKeys] in *. subst r.
  destruct ks as [|k0 rest]; [discriminate Hl|].
  unfold generateAllKeys, setRound. cbn [rounds key roundKeys].
  change (Z.to_nat (10 + 1)) with 11%nat.
  rewrite generateAllKeys_loop_S.
  unfold generateNewRoundKey at 1. cbn [currentRound Z.eqb key].
  rewrite toArray16_exact by assumption. cbn [bind roundKeys].
  rewrite store_insert by (cbn [length]; lia).
  cbn [bind Z.to_nat]. change (0 + 1) with 1.
  rewrite (generateAllKeys_loop_run 10 1 _ [] (GetBytes k) rest).
  - unfold nextRound, setRound, setRoundKeys. cbn [key rounds app].
    unfold keySchedule. rewrite firstn_all2 by lia. reflexivity.
  - lia.
  - lia.
  - reflexivity.
  - reflexivity.
  - reflexivity.
  - cbn in Hl. lia.
Qed.

(** * Block encryption and decryption as functions of the key *)

Lemma encryptRound_with a state :
  rounds a = 10 -> 0 <= currentRound a ->
  (Z.to_nat (currentRound a) < length (roundKeys a))%nat ->
  encryptRound a state
  = Ok (encryptRoundWith (currentRound a) (roundKeys a !!! Z.to_nat (currentRound a)) state).
Proof.
  intros Hr Hc Hl. unfold encryptRound, encryptRoundWith.
  rewrite (index_lookup _ _ (roundKeys a !!! Z.to_nat (currentRound a)))
    by (try apply list_lookup_lookup_total_lt; assumption).
  cbn [bind]. rewrite Hr. destruct (currentRound a =? 0); reflexivity.
Qed.

Lemma decryptRound_with a state :
  rounds a = 10 -> 0 <= currentRound a ->
  (Z.to_nat (currentRound a) < length (roundKeys a))%nat ->
  decryptRound a state
  = Ok (decryptRoundWith (currentRound a) (roundKeys a !!! Z.to_nat (currentRound a)) state).
Proof.
  intros Hr Hc Hl. unfold decryptRound, decryptRoundWith.
  rewrite (index_lookup _ _ (roundKeys a !!! Z.to_nat (currentRound a)))
    by (try apply list_lookup_lookup_total_lt; assumption).
  cbn [bind]. rewrite Hr. destruct (currentRound a =? 10); reflexivity.
Qed.

Lemma EncryptBlock_loop_run n : forall block k i ks,
  0 <= i -> i + Z.of_nat n = 11 -> length ks = 11%nat ->
  EncryptBlock_loop n block (mkAES k 10 i ks)
  = Ok (encryptRounds n i ks block, mkAES k 10 11 ks).
Proof.
  induction n as [|n IH]; intros block k i ks Hi Hn Hl.
  - cbn [EncryptBlock_loop encryptRounds]. do 3 f_equal. lia.
  - cbn [EncryptBlock_loop encryptRounds].
    rewrite encryptRound_with by (cbn [rounds currentRound roundKeys]; lia).
    cbn [bind currentRound roundKeys]. unfold nextRound, setRound.
    cbn [key rounds currentRound roundKeys]. apply IH; lia.
Qed.

Lemma DecryptBlock_loop_run n : forall block k i ks,
  i + 1 = Z.of_nat n -> length ks = 11%nat -> i <= 10 ->
  DecryptBlock_loop n block (mkAES k 10 i ks)
  = Ok (decryptRounds n i ks block, mkAES k 10 (-1) ks).
Proof.
  induction n as [|n IH]; intros block k i ks Hn Hl Hi.
  - cbn [DecryptBlock_loop decryptRounds]. do 3 f_equal. lia.
  - cbn [DecryptBlock_loop decryptRounds].
    rewrite decryptRound_with by (cbn [rounds currentRound roundKeys]; lia).
    cbn [bind currentRound roundKeys]. unfold previousRound, setRound.
    cbn [key rounds currentRound roundKeys]. apply IH; lia.
Qed.

Lemma keySchedule_length k : length (keySchedule k) = 11%nat.
Proof. reflexivity. Qed.

Lemma EncryptBlock_run a b :
  aes_ok a ->
  EncryptBlock b a = Ok (cipher (GetBytes (key a)) b, afterBlock a 11).
Proof.
  intros Hok. unfold EncryptBlock. rewrite generateAllKeys_run by assumption.
  cbn [bind]. unfold setRound. cbn [key rounds roundKeys].
  change (Z.to_nat (10 + 1)) with 11%nat.
  rewrite EncryptBlock_loop_run by (reflexivity || lia). reflexivity.
Qed.

Lemma DecryptBlock_run a b :
  aes_ok a ->
  DecryptBlock b a = Ok (invCipher (GetBytes (key a)) b, afterBlock a (-1)).
Proof.
  intros Hok. unfold DecryptBlock. rewrite generateAllKeys_run by assumption.
  cbn [bind]. unfold setRound. cbn [key rounds roundKeys].
  change (Z.to_nat (10 + 1)) with 11%nat.
  rewrite DecryptBlock_loop_run by (reflexivity || lia). reflexivity.
Qed.

Lemma afterBlock_ok a round : aes_ok a -> aes_ok (afterBlock a round).
Proof. intros (Hk & _ & _). repeat split. exact Hk. Qed.

Lemma New_ok k a : New k = Ok a -> aes_ok a /\ key a = k.
Proof.
  unfold New, Len. change (128 / 8) with 16.
  destruct (Z.eqb_spec (Z.of_nat (length (material k))) 16) as [H|H]; [|discriminate].
  intros [= <-]. repeat split. unfold GetBytes. cbn [key]. lia.
Qed.

Lemma New_16 k : length (GetBytes k) = 16%nat ->
  New k = Ok (mkAES k 10 0 (replicate 11 (replicate 16 0))).
Proof.
  intros H. unfold New, Len. unfold GetBytes in H. rewrite H. reflexivity.
Qed.

Create HintDb aes.
#[local] Hint Resolve xorMatrix_bytes subMatrix_bytes invSubMatrix_bytes
  shiftRows_bytes invShiftRows_bytes mixColumns_bytes invMixColumns_bytes
  convertArrayToMatrix_bytes lookup_total_bytes : aes.

Ltac unfold_rounds :=
  lazy -[xorMatrix subMatrix invSubMatrix shiftRows invShiftRows mixColumns
         invMixColumns convertArrayToMatrix lookup_total].

Ltac cancel_rounds :=
  repeat first
    [ rewrite xorMatrix_involutive
    | rewrite invShiftRows_shiftRows
    | rewrite shiftRows_invShiftRows
    | rewrite invSubMatrix_subMatrix by auto 40 with aes
    | rewrite subMatrix_invSubMatrix by auto 40 with aes
    | rewrite invMixColumns_mixColumns by auto 40 with aes
    | rewrite mixColumns_invMixColumns by auto 40 with aes ].

Lemma decryptRounds_encryptRounds ks block :
  Forall bytes ks -> matrix_bytes block ->
  decryptRounds 11 10 ks (encryptRounds 11 0 ks block) = block.
Proof.
  intros Hks Hb.
  assert (HK : forall i, bytes (ks !!! i)).
  { intros i. destruct (ks !! i) as [x|] eqn:E.
    - rewrite (list_lookup_total_correct _ _ _ E). eapply Forall_lookup_1; eauto.
    - rewrite list_lookup_total_alt, E. constructor. }
  unfold_rounds. cancel_rounds. reflexivity.
Qed.

Lemma encryptRounds_decryptRounds ks block :
  Forall bytes ks -> matrix_bytes block ->
  encryptRounds 11 0 ks (decryptRounds 11 10 ks block) = block.
Proof.
  intros Hks Hb.
  assert (HK : forall i, bytes (ks !!! i)).
  { intros i. destruct (ks !! i) as [x|] eqn:E.
    - rewrite (list_lookup_total_correct _ _ _ E). eapply Forall_lookup_1; eauto.
    - rewrite list_lookup_total_alt, E. constructor. }
  unfold_rounds. cancel_rounds. reflexivity.
Qed.

Lemma bytesb_bytes l : bytesb l = true -> bytes l.
Proof.
  unfold bytesb, bytes. rewrite forallb_forall, Forall_forall.
  intros H x Hx. apply list_elem_of_In in Hx. specialize (H x Hx). unfold is_byte. lia.
Qed.

Lemma encryptRoundWith_bytes i k state :
  bytes k -> matrix_bytes state -> matrix_bytes (encryptRoundWith i k state).
Proof.
  intros Hk Hs. unfold encryptRoundWith, addRoundKey.
  destruct (i =? 0), (i <? 10); auto 10 with aes.
Qed.

Lemma decryptRoundWith_bytes i k state :
  bytes k -> matrix_bytes state -> matrix_bytes (decryptRoundWith i k state).
Proof.
  intros Hk Hs. unfold decryptRoundWith, addRoundKey.
  destruct (i =? 10), (i >? 0); auto 10 with aes.
Qed.

Lemma Forall_bytes_lookup_total (ks : list (list byte)) i :
  Forall bytes ks -> bytes (ks !!! i).
Proof.
  intros Hks. destruct (ks !! i) as [x|] eqn:E.
  - rewrite (list_lookup_total_correct _ _ _ E). eapply Forall_lookup_1; eauto.
  - rewrite list_lookup_total_alt, E. constructor.
Qed.

Lemma encryptRounds_bytes n : forall i ks block,
  Forall bytes ks -> matrix_bytes block -> matrix_bytes (encryptRounds n i ks block).
Proof.
  induction n as [|n IH]; intros i ks block Hks Hb; cbn [encryptRounds]; [exact Hb|].
  apply IH; [assumption|]. apply encryptRoundWith_bytes; [|assumption].
  apply Forall_bytes_lookup_total, Hks.
Qed.

Lemma decryptRounds_bytes n : forall i ks block,
  Forall bytes ks -> matrix_bytes block -> matrix_bytes (decryptRounds n i ks block).
Proof.
  induction n as [|n IH]; intros i ks block Hks Hb; cbn [decryptRounds]; [exact Hb|].
  apply IH; [assumption|]. apply decryptRoundWith_bytes; [|assumption].
  apply Forall_bytes_lookup_total, Hks.
Qed.

Lemma cipher_bytes k b : bytes k -> bytes b -> matrix_bytes (cipher k b).
Proof.
  intros Hk Hb. apply encryptRounds_bytes;
    [apply keySchedule_bytes|apply convertArrayToMatrix_bytes]; assumption.
Qed.

Lemma invCipher_bytes k b : bytes k -> bytes b -> matrix_bytes (invCipher k b).
Proof.
  intros Hk Hb. apply decryptRounds_bytes;
    [apply keySchedule_bytes|apply convertArrayToMatrix_bytes]; assumption.
Qed.

(** The block produced by the cipher and by its inverse. *)
Lemma invCipher_cipher k b :
  bytes k -> bytes b -> length b = 16%nat ->
  convertMatrixToArray (invCipher k (convertMatrixToArray (cipher k b))) = b.
Proof.
  intros Hk Hb Hl. unfold invCipher, cipher.
  rewrite convertArrayToMatrix_convertMatrixToArray.
  rewrite decryptRounds_encryptRounds
    by (apply keySchedule_bytes || apply convertArrayToMatrix_bytes; assumption).
  apply convertMatrixToArray_convertArrayToMatrix, Hl.
Qed.

Lemma cipher_invCipher k b :
  bytes k -> bytes b -> length b = 16%nat ->
  convertMatrixToArray (cipher k (convertMatrixToArray (invCipher k b))) = b.
Proof.
  intros Hk Hb Hl. unfold invCipher, cipher.
  rewrite convertArrayToMatrix_convertMatrixToArray.
  rewrite encryptRounds_decryptRounds
    by (apply keySchedule_bytes || apply convertArrayToMatrix_bytes; assumption).
  apply convertMatrixToArray_convertArrayToMatrix, Hl.
Qed.

(** C1. For every 16-byte key and every 16-byte block, decrypting the
    encrypted block and encrypting the decrypted block both give the block
    back, the state matrix being converted to an array in between. *)
Theorem block_roundtrip (k b : list byte) :
  length k = 16%nat -> bytes k -> length b = 16%nat -> bytes b ->
  encryptThenDecrypt (NewKey k) b = Ok b /\ decryptThenEncrypt (NewKey k) b = Ok b.
Proof.
  intros Hlk Hk Hlb Hb.
  assert (Hok : aes_ok (mkAES (NewKey k) 10 0 (replicate 11 (replicate 16 0))))
    by (repeat split; assumption).
  unfold encryptThenDecrypt, decryptThenEncrypt.
  rewrite New_16 by assumption. cbn [bind].
  rewrite EncryptBlock_run, DecryptBlock_run by assumption. cbn [bind].
  rewrite DecryptBlock_run, EncryptBlock_run by (apply afterBlock_ok, Hok).
  cbn [bind afterBlock key GetBytes material].
  rewrite invCipher_cipher, cipher_invCipher by assumption. split; reflexivity.
Qed.

Lemma block_roundtrip_witness :
  encryptThenDecrypt (NewKey fipsKeyC1) fipsPlainC1 = Ok fipsPlainC1
  /\ decryptThenEncrypt (NewKey fipsKeyC1) fipsPlainC1 = Ok fipsPlainC1.
Proof.
  apply (block_roundtrip fipsKeyC1 fipsPlainC1);
    first [ reflexivity | apply bytesb_bytes; reflexivity ].
Defined.

(** C2. The two FIPS-197 known-answer vectors (Appendix C.1 and
    Appendix B) encrypt to the published ciphertext blocks. *)
Theorem known_answer_vectors :
  encryptOneBlock (NewKey fipsKeyC1) fipsPlainC1 = Ok fipsCipherC1
  /\ encryptOneBlock (NewKey fipsKeyB) fipsPlainB = Ok fipsCipherB.
Proof. split; vm_compute; reflexivity. Qed.

(** C5, as the claim states it, fails: a block encrypted by a fresh cipher
    object changes the object's round keys and its round counter. *)
Lemma schedule_not_frozen :
  exists a m a',
    New (NewKey fipsKeyC1) = Ok a
    /\ EncryptBlock fipsPlainC1 a = Ok (m, a')
    /\ roundKeys a = replicate 11 (replicate 16 0)
    /\ roundKeys a' <> roundKeys a
    /\ currentRound a' <> currentRound a.
Proof.
  eexists _, _, _. split; [reflexivity|]. split; [vm_compute; reflexivity|].
  cbn [roundKeys currentRound]. split; [reflexivity|]. split; [|discriminate].
  vm_compute. discriminate.
Qed.

(** C5, amended. [New] stores eleven zero blocks, not the schedule. Each
    call of [EncryptBlock] and of [DecryptBlock] derives the whole schedule
    again from the key, whatever round keys and round counter it finds; the
    schedule it stores depends on the key alone, the key and the number of
    rounds are unchanged, and the round counter is left at 11 by
    [EncryptBlock] and at -1 by [DecryptBlock]. *)
Theorem schedule_recomputed_per_block (a : AES) (b : list byte) :
  aes_ok a ->
  (forall k a0, New k = Ok a0 -> roundKeys a0 = replicate 11 (replicate 16 0))
  /\ generateAllKeys a
     = Ok (mkAES (key a) 10 11 (keySchedule (GetBytes (key a))))
  /\ EncryptBlock b a
     = Ok (cipher (GetBytes (key a)) b,
           mkAES (key a) 10 11 (keySchedule (GetBytes (key a))))
  /\ DecryptBlock b a
     = Ok (invCipher (GetBytes (key a)) b,
           mkAES (key a) 10 (-1) (keySchedule (GetBytes (key a)))).
Proof.
  intros Hok. split; [|split; [|split]].
  - intros k a0. unfold New. destruct (Len k =? 128 / 8); [|discriminate].
    intros [= <-]. reflexivity.
  - apply generateAllKeys_run, Hok.
  - apply EncryptBlock_run, Hok.
  - apply DecryptBlock_run, Hok.
Qed.

Lemma schedule_recomputed_per_block_witness :
  aes_ok (mkAES (NewKey fipsKeyC1) 10 0 (replicate 11 (replicate 16 0)))
  /\ EncryptBlock fipsPlainC1 (mkAES (NewKey fipsKeyC1) 10 0 (replicate 11 (replicate 16 0)))
     = Ok (cipher fipsKeyC1 fipsPlainC1,
           mkAES (NewKey fipsKeyC1) 10 11 (keySchedule fipsKeyC1)).
Proof.
  assert (H : aes_ok (mkAES (NewKey fipsKeyC1) 10 0 (replicate 11 (replicate 16 0))))
    by (repeat split; reflexivity).
  split; [exact H|].
  exact (proj1 (proj2 (proj2 (schedule_recomputed_per_block _ fipsPlainC1 H)))).
Defined.

(** * Splitting into blocks *)

Lemma split_loop_fuel fuel1 : forall fuel2 l,
  (length l <= fuel1)%nat -> (length l <= fuel2)%nat ->
  split_loop fuel1 l = split_loop fuel2 l.
Proof.
  induction fuel1 as [|fuel1 IH]; intros fuel2 l H1 H2.
  - destruct l; [|cbn in H1; lia]. destruct fuel2; reflexivity.
  - destruct l as [|x l]; [destruct fuel2; reflexivity|].
    destruct fuel2 as [|fuel2]; [cbn in H2; lia|].
    cbn [split_loop]. f_equal.
    apply IH; rewrite length_drop; cbn [length] in *; lia.
Qed.

Lemma split_nil : split [] = [].
Proof. reflexivity. Qed.

Lemma split_cons l : l <> [] -> split l = take 16 l :: split (drop 16 l).
Proof.
  intros Hl. unfold split. destruct l as [|x l]; [congruence|].
  cbn [length split_loop]. f_equal.
  apply split_loop_fuel; rewrite length_drop; cbn [length]; lia.
Qed.

Lemma split_short l : l <> [] -> (length l <= 16)%nat -> split l = [l].
Proof.
  intros Hl Hlen. rewrite split_cons by assumption.
  rewrite take_ge, drop_ge by lia. reflexivity.
Qed.

Lemma split_app b l : length b = 16%nat -> split (b ++ l) = b :: split l.
Proof.
  intros Hb. rewrite split_cons by (destruct b; discriminate).
  rewrite take_app_length', drop_app_length' by lia. reflexivity.
Qed.

(** Induction on a slice, sixteen bytes at a time. *)
Lemma blocks_ind (P : list byte -> Prop) :
  P [] -> (forall l, l <> [] -> P (drop 16 l) -> P l) -> forall l, P l.
Proof.
  intros Hnil Hstep l.
  remember (length l) as n eqn:Hn. revert l Hn.
  induction n as [n IH] using lt_wf_ind. intros l Hn.
  destruct l as [|x l]; [exact Hnil|].
  apply Hstep; [discriminate|].
  apply (IH (length (drop 16 (x :: l)))); [|reflexivity].
  rewrite length_drop. subst n. cbn [length]. lia.
Qed.

Lemma join_split l : join (split l) = l.
Proof.
  unfold join. induction l as [|l Hl IH] using blocks_ind; [reflexivity|].
  rewrite split_cons by assumption. cbn [concat]. rewrite IH.
  apply take_drop.
Qed.

Lemma split_eq_nil l : split l = [] -> l = [].
Proof.
  destruct l as [|x l]; [reflexivity|].
  rewrite split_cons by discriminate. discriminate.
Qed.

Lemma split_length_full l :
  (length l mod 16 = 0)%nat -> Forall (fun b => length b = 16%nat) (split l).
Proof.
  induction l as [|l Hl IH] using blocks_ind; intros Hm; [constructor|].
  assert (16 <= length l)%nat.
  { destruct l; [congruence|]. cbn [length] in *.
    destruct (Nat.lt_ge_cases (S (length l)) 16) as [Hlt|]; [|assumption].
    rewrite Nat.mod_small in Hm by assumption. discriminate. }
  rewrite split_cons by assumption. constructor.
  - rewrite length_take. lia.
  - apply IH. rewrite length_drop.
    rewrite <- (Nat.Div0.mod_add (length l - 16) 1 16).
    replace (length l - 16 + 1 * 16)%nat with (length l) by lia. exact Hm.
Qed.

(** A list of blocks laid out as [split] yields them: every block but the
    last is full, the last is not empty. *)
Lemma split_concat_like (bs : list (list byte)) : forall l,
  Forall2 (fun b c => length b = length c) bs (split l) ->
  split (concat bs) = bs.
Proof.
  intros l. revert bs. induction l as [|l Hl IH] using blocks_ind; intros bs H.
  - rewrite split_nil in H. inversion H. reflexivity.
  - rewrite split_cons in H by assumption.
    inversion H as [|b c bs' cs Hbc Hrest]; subst. cbn [concat].
    destruct (decide (drop 16 l = [])) as [Hd|Hd].
    + rewrite Hd, split_nil in Hrest. inversion Hrest; subst.
      rewrite app_nil_r. apply split_short.
      * destruct b; [|discriminate]. destruct l; [congruence|].
        cbn in Hbc. discriminate.
      * rewrite Hbc, length_take. lia.
    + assert (16 < length l)%nat.
      { destruct (Nat.lt_ge_cases 16 (length l)); [assumption|].
        rewrite drop_ge in Hd by lia. congruence. }
      rewrite split_app by (rewrite Hbc, length_take; lia).
      f_equal. apply IH. exact Hrest.
Qed.

Lemma split_concat_full (bs : list (list byte)) :
  Forall (fun b => length b = 16%nat) bs -> split (concat bs) = bs.
Proof.
  induction 1 as [|b bs Hb _ IH]; [reflexivity|].
  cbn [concat]. rewrite split_app by assumption. rewrite IH. reflexivity.
Qed.

(** A slice that is not empty splits into full blocks and a last block of
    1 to 16 bytes. *)
Lemma split_snoc l :
  l <> [] ->
  exists init last,
    split l = init ++ [last]
    /\ Forall (fun b => length b = 16%nat) init
    /\ (0 < length last <= 16)%nat
    /\ l = concat init ++ last.
Proof.
  induction l as [|l Hl IH] using blocks_ind; [congruence|]. intros _.
  rewrite split_cons by assumption.
  destruct (decide (drop 16 l = [])) as [Hd|Hd].
  - exists [], l. rewrite Hd, split_nil.
    assert (length l <= 16)%nat.
    { apply (f_equal length) in Hd. rewrite length_drop in Hd. cbn in Hd. lia. }
    assert (0 < length l)%nat by (destruct l; [congruence|cbn; lia]).
    rewrite take_ge by lia.
    split; [reflexivity|]. split; [constructor|]. split; [lia|reflexivity].
  - destruct (IH Hd) as (init & last & Hs & Hfull & Hlast & Hcat).
    exists (take 16 l :: init), last. rewrite Hs.
    split; [reflexivity|]. split; [|split; [lia|]].
    + constructor; [|assumption]. rewrite length_take.
      destruct (Nat.lt_ge_cases (length l) 16); [|lia].
      rewrite drop_ge in Hd by lia. congruence.
    + cbn [concat]. rewrite <- app_assoc, <- Hcat. symmetry. apply take_drop.
Qed.

(** * Padding *)

Lemma padding_loop_fill n : forall i r pre post,
  length pre = i -> length post = n ->
  padding_loop n i r (pre ++ post) = pre ++ replicate n (toByte r).
Proof.
  induction n as [|n IH]; intros i r pre post Hpre Hpost.
  - destruct post; [|discriminate]. reflexivity.
  - destruct post as [|x post]; [discriminate|]. cbn [padding_loop replicate].
    replace i with (length pre + 0)%nat by lia. rewrite insert_app_r. cbn [insert list_insert].
    change (pre ++ toByte r :: post) with (pre ++ [toByte r] ++ post).
    rewrite app_assoc, (IH (S (length pre + 0))).
    + rewrite <- app_assoc. reflexivity.
    + rewrite length_app. cbn. lia.
    + cbn in Hpost. lia.
Qed.

Lemma copyInto_short n src :
  (length src <= n)%nat -> copyInto n src = src ++ replicate (n - length src) 0.
Proof. intros H. unfold copyInto. rewrite take_ge by lia. reflexivity. Qed.

Lemma copyInto_exact n src : length src = n -> copyInto n src = src.
Proof.
  intros H. rewrite copyInto_short by lia. rewrite H, Nat.sub_diag. apply app_nil_r.
Qed.

Lemma padding_full block :
  length block = 16%nat -> padding block = block ++ replicate 16 0x10.
Proof. intros H. unfold padding. rewrite H. reflexivity. Qed.

Lemma padding_short block :
  (length block < 16)%nat ->
  padding block
  = block ++ replicate (16 - length block) (16 - Z.of_nat (length block)).
Proof.
  intros H. unfold padding.
  rewrite (proj2 (Nat.eqb_neq _ _)) by lia.
  rewrite copyInto_short by lia.
  rewrite (padding_loop_fill _ _ _ block) by (rewrite ?length_replicate; lia).
  rewrite toByte_small by (unfold is_byte; lia). reflexivity.
Qed.

(** * Removing the padding *)

Lemma RemovePadding_loop_ok n : forall i last p,
  (forall j, (i <= j < i + n)%nat -> last !!! j = p) ->
  RemovePadding_loop n i last p = Ok tt.
Proof.
  induction n as [|n IH]; intros i last p H; [reflexivity|].
  cbn [RemovePadding_loop]. rewrite (H i) by lia. rewrite Z.eqb_refl. cbn [negb].
  apply IH. intros j Hj. apply H. lia.
Qed.

Lemma RemovePadding_loop_err n : forall i last p,
  (exists j, (i <= j < i + n)%nat /\ last !!! j <> p) ->
  RemovePadding_loop n i last p = Err "Invalid padding".
Proof.
  induction n as [|n IH]; intros i last p (j & Hj & Hne); [lia|].
  cbn [RemovePadding_loop].
  destruct (Z.eqb_spec (last !!! i) p) as [Heq|Hneq]; [|reflexivity].
  cbn [negb]. apply IH. exists j. split; [|assumption].
  destruct (decide (j = i)) as [->|]; [congruence|lia].
Qed.

Lemma RemovePadding_loop_cases n i last p :
  (RemovePadding_loop n i last p = Ok tt
   /\ forall j, (i <= j < i + n)%nat -> last !!! j = p)
  \/ (RemovePadding_loop n i last p = Err "Invalid padding"
      /\ exists j, (i <= j < i + n)%nat /\ last !!! j <> p).
Proof.
  revert i. induction n as [|n IH]; intros i.
  - left. split; [reflexivity|]. intros j Hj. lia.
  - cbn [RemovePadding_loop].
    destruct (Z.eqb_spec (last !!! i) p) as [Heq|Hneq]; cbn [negb].
    + destruct (IH (S i)) as [(Hok & Hall)|(Herr & j & Hj & Hne)].
      * left. split; [assumption|]. intros j Hj.
        destruct (decide (j = i)) as [->|]; [assumption|apply Hall; lia].
      * right. split; [assumption|]. exists j. split; [lia|assumption].
    + right. split; [reflexivity|]. exists i. split; [lia|assumption].
Qed.

(** [RemovePadding] on a slice whose blocks are [init] and then [last]. *)
Lemma RemovePadding_blocks b init last :
  split b = init ++ [last] -> b = concat init ++ last -> (0 < length last)%nat ->
  RemovePadding b
  = let p := last !!! (length last - 1)%nat in
    if (p =? 0) || (p >? Z.of_nat (length last)) then Err "Invalid padding"
    else
      let* _ := RemovePadding_loop (length last - Z.to_nat (Z.of_nat (length last) - p))
                  (Z.to_nat (Z.of_nat (length last) - p)) last p in
      Ok (concat init ++ take (Z.to_nat (Z.of_nat (length last) - p)) last).
Proof.
  intros Hs Hb Hl. unfold RemovePadding. rewrite Hs.
  rewrite (index_lookup _ _ last).
  2: { rewrite length_app. cbn [length]. lia. }
  2: { rewrite length_app. cbn [length].
       replace (Z.to_nat (Z.of_nat (length init + 1) - 1)) with (length init + 0)%nat by lia.
       rewrite lookup_app_r by lia. replace (length init + 0 - length init)%nat with 0%nat by lia.
       reflexivity. }
  cbn [bind].
  assert (Hlen : length b = (length (concat init) + length last)%nat)
    by (rewrite Hb, length_app; reflexivity).
  rewrite (index_lookup _ _ (last !!! (length last - 1)%nat)).
  2: { lia. }
  2: { rewrite Hlen.
       replace (Z.to_nat (Z.of_nat (length (concat init) + length last) - 1))
         with (length (concat init) + (length last - 1))%nat by lia.
       rewrite Hb, lookup_app_r by lia.
       replace (length (concat init) + (length last - 1) - length (concat init))%nat
         with (length last - 1)%nat by lia.
       apply list_lookup_lookup_total_lt. lia. }
  cbn [bind]. cbv zeta.
  set (p := last !!! (length last - 1)%nat).
  destruct ((p =? 0) || (p >? Z.of_nat (length last))) eqn:Hp; [reflexivity|].
  rewrite (proj2 (Z.ltb_ge _ 0)) by lia.
  destruct (RemovePadding_loop _ _ last p) as [[]|e|q]; cbn [bind]; try reflexivity.
  rewrite store_insert by (rewrite length_app; cbn [length]; lia).
  cbn [bind]. unfold join. f_equal.
  rewrite length_app. cbn [length].
  replace (Z.to_nat (Z.of_nat (length init + 1) - 1)) with (length init + 0)%nat by lia.
  rewrite insert_app_r. cbn [insert list_insert].
  rewrite concat_app. cbn [concat]. rewrite app_nil_r. reflexivity.
Qed.

(** The last block of a slice of full blocks. *)
Lemma split_snoc_full b :
  (0 < length b)%nat -> (length b mod 16 = 0)%nat ->
  exists init last,
    split b = init ++ [last] /\ b = concat init ++ last /\ length last = 16%nat.
Proof.
  intros Hpos Hmod.
  destruct (split_snoc b) as (init & last & Hs & _ & _ & Hb).
  { destruct b; [cbn in Hpos; lia|discriminate]. }
  exists init, last. split; [assumption|]. split; [assumption|].
  pose proof (split_length_full b Hmod) as Hfull. rewrite Hs in Hfull.
  apply Forall_app in Hfull. destruct Hfull as [_ Hlast].
  apply Forall_cons in Hlast. tauto.
Qed.

(** The outcome of [RemovePadding] on a slice of full blocks, with the
    condition under which it is reached. *)
Lemma RemovePadding_full_cases b init last :
  split b = init ++ [last] -> b = concat init ++ last -> length last = 16%nat ->
  let p := last !!! 15%nat in
  (RemovePadding b = Err "Invalid padding"
   /\ (p = 0 \/ p > 16
       \/ exists j, (Z.to_nat (16 - p) <= j < 16)%nat /\ last !!! j <> p))
  \/ (RemovePadding b = Ok (concat init ++ take (Z.to_nat (16 - p)) last)
      /\ p <> 0 /\ p <= 16
      /\ forall j, (Z.to_nat (16 - p) <= j < 16)%nat -> last !!! j = p).
Proof.
  intros Hs Hb Hl p.
  rewrite (RemovePadding_blocks b init last) by (assumption || lia).
  rewrite Hl. change (16 - 1)%nat with 15%nat. cbv zeta. fold p.
  change (Z.of_nat 16) with 16.
  destruct (Z.eqb_spec p 0) as [H0|H0]; [left; split; [reflexivity|tauto]|].
  destruct (Z.gtb_spec p 16) as [H16|H16]; [left; split; [reflexivity|lia]|].
  cbn [orb].
  destruct (RemovePadding_loop_cases (16 - Z.to_nat (16 - p)) (Z.to_nat (16 - p)) last p)
    as [(Hok & Hall)|(Herr & j & Hj & Hne)].
  - right. rewrite Hok. cbn [bind]. split; [reflexivity|].
    split; [assumption|]. split; [lia|]. intros j Hj. apply Hall. lia.
  - left. rewrite Herr. split; [reflexivity|]. right. right.
    exists j. split; [lia|assumption].
Qed.

(** C6. On a buffer whose length is a positive multiple of 16,
    [RemovePadding] returns the error exactly when the last byte [p] is 0,
    or exceeds the length of the final block, or makes the start index
    negative, or one of the last [p] bytes differs from [p]; otherwise it
    returns the buffer without its last [p] bytes. *)
Theorem RemovePadding_errors_exactly (b : list byte) :
  bytes b -> (0 < length b)%nat -> (length b mod 16 = 0)%nat ->
  let p := b !!! (length b - 1)%nat in
  let final := List.last (split b) [] in
  let begin := Z.of_nat (length final) - p in
  let invalid :=
    p = 0 \/ p > Z.of_nat (length final) \/ begin < 0
    \/ exists i : nat,
         Z.of_nat (length b) - p <= Z.of_nat i < Z.of_nat (length b) /\ b !!! i <> p in
  (RemovePadding b = Err "Invalid padding" <-> invalid)
  /\ (~ invalid -> RemovePadding b = Ok (take (length b - Z.to_nat p) b)).
Proof.
  intros Hbytes Hpos Hmod.
  destruct (split_snoc_full b Hpos Hmod) as (init & last & Hs & Hb & Hl).
  assert (Hlen : length b = (length (concat init) + 16)%nat)
    by (rewrite Hb, length_app, Hl; reflexivity).
  assert (Hat : forall j, (j < 16)%nat -> b !!! (length (concat init) + j)%nat = last !!! j).
  { intros j Hj. rewrite Hb. rewrite lookup_total_app_r by lia. f_equal. lia. }
  assert (Hp : b !!! (length b - 1)%nat = last !!! 15%nat).
  { rewrite <- Hat by lia. f_equal. lia. }
  assert (Hpb : is_byte (last !!! 15%nat)).
  { rewrite <- Hp. apply lookup_total_bytes, Hbytes. }
  pose proof (RemovePadding_full_cases b init last Hs Hb Hl) as Hcases.
  cbv zeta in Hcases |- *. rewrite Hs, last_last, Hl, Hp. change (Z.of_nat 16) with 16.
  set (p := last !!! 15%nat) in *. clearbody p. unfold is_byte in Hpb.
  assert (Hiff : forall i : nat,
    Z.of_nat (length b) - p <= Z.of_nat i < Z.of_nat (length b) ->
    p <= 16 -> exists j, i = (length (concat init) + j)%nat /\ (Z.to_nat (16 - p) <= j < 16)%nat).
  { intros i Hi Hp16. exists (i - length (concat init))%nat. lia. }
  destruct Hcases as [(Herr & Hbad)|(Hok & H0 & H16 & Hall)].
  - assert (Hinv : p = 0 \/ p > 16 \/ 16 - p < 0
                   \/ exists i : nat,
                        Z.of_nat (length b) - p <= Z.of_nat i < Z.of_nat (length b)
                        /\ b !!! i <> p).
    { destruct Hbad as [?|[?|(j & Hj & Hne)]]; [tauto|tauto|].
      right. right. right. exists (length (concat init) + j)%nat.
      rewrite Hat by lia. split; [lia|assumption]. }
    split; [tauto|]. intros Hn. contradiction.
  - assert (Hvalid : ~ (p = 0 \/ p > 16 \/ 16 - p < 0
                   \/ exists i : nat,
                        Z.of_nat (length b) - p <= Z.of_nat i < Z.of_nat (length b)
                        /\ b !!! i <> p)).
    { intros [?|[?|[?|(i & Hi & Hne)]]]; try lia.
      destruct (Hiff i Hi H16) as (j & -> & Hj).
      rewrite Hat in Hne by lia. apply Hne, Hall, Hj. }
    split.
    + rewrite Hok. split; [discriminate|]. intros Hinv. contradiction.
    + intros _. rewrite Hok. f_equal.
      rewrite Hb at 2. rewrite Hlen.
      replace (length (concat init) + 16 - Z.to_nat p)%nat
        with (length (concat init) + Z.to_nat (16 - p))%nat by lia.
      rewrite take_app_add'; reflexivity.
Qed.

Lemma RemovePadding_errors_exactly_witness :
  RemovePadding [0x32; 0x43; 0xf6; 0xa8; 0x88; 0x5a; 0x30; 0x8d; 0x31; 0x31; 0x98;
                 0xa2; 0xe0; 0x37; 0x07; 0x00]
  = Err "Invalid padding".
Proof.
  apply (RemovePadding_errors_exactly
           [0x32; 0x43; 0xf6; 0xa8; 0x88; 0x5a; 0x30; 0x8d; 0x31; 0x31; 0x98;
            0xa2; 0xe0; 0x37; 0x07; 0x00]).
  - apply bytesb_bytes. reflexivity.
  - cbn. lia.
  - reflexivity.
  - left. reflexivity.
Defined.

(** The padded form of a plaintext: [n] bytes of value [n] appended, which
    fill the last block. *)
Lemma RemovePadding_padded (pt : list byte) (n : nat) :
  (1 <= n <= 16)%nat -> ((length pt + n) mod 16 = 0)%nat ->
  RemovePadding (pt ++ replicate n (Z.of_nat n)) = Ok pt.
Proof.
  intros Hn Hmod.
  set (b := pt ++ replicate n (Z.of_nat n)).
  assert (Hlenb : length b = (length pt + n)%nat)
    by (unfold b; rewrite length_app, length_replicate; reflexivity).
  destruct (split_snoc_full b) as (init & last & Hs & Hb & Hl); [lia|congruence|].
  set (m := (length pt + n - 16)%nat).
  assert (Hm : (m + 16 = length pt + n)%nat).
  { apply (f_equal length) in Hb. rewrite length_app, Hl in Hb. lia. }
  assert (Hsplit : concat init = take m pt /\ last = drop m pt ++ replicate n (Z.of_nat n)).
  { apply app_inj_2.
    - rewrite Hl, length_app, length_drop, length_replicate. lia.
    - rewrite <- Hb. unfold b. rewrite app_assoc, take_drop. reflexivity. }
  destruct Hsplit as [Hinit Hlast].
  assert (Hreplicate : forall j, (16 - n <= j < 16)%nat -> last !!! j = Z.of_nat n).
  { intros j Hj. rewrite Hlast.
    rewrite lookup_total_app_r by (rewrite length_drop; lia).
    rewrite length_drop. apply lookup_total_replicate_2. lia. }
  destruct (RemovePadding_full_cases b init last Hs Hb Hl)
    as [(_ & Hbad)|(Hok & _)]; cbv zeta in *; rewrite Hreplicate in * by lia.
  - exfalso. destruct Hbad as [?|[?|(j & Hj & Hne)]]; [lia|lia|].
    apply Hne, Hreplicate. lia.
  - rewrite Hok. f_equal. rewrite Hinit, Hlast.
    replace (Z.to_nat (16 - Z.of_nat n)) with (length (drop m pt))
      by (rewrite length_drop; lia).
    rewrite take_app_length. apply take_drop.
Qed.

(** Both branches of [padding] append [n] bytes of value [n]. *)
Lemma padding_appends block :
  (length block <= 16)%nat ->
  exists n : nat,
    (1 <= n <= 16)%nat /\ ((length block + n) mod 16 = 0)%nat
    /\ padding block = block ++ replicate n (Z.of_nat n).
Proof.
  intros H. destruct (decide (length block = 16%nat)) as [Hfull|Hshort].
  - exists 16%nat. rewrite padding_full, Hfull by assumption.
    split; [lia|]. split; reflexivity.
  - exists (16 - length block)%nat. rewrite padding_short by lia.
    split; [lia|]. split.
    + replace (length block + (16 - length block))%nat with 16%nat by lia. reflexivity.
    + do 2 f_equal. lia.
Qed.

(** C7. For a block of at most 16 bytes, removing the padding that
    [padding] added gives the block back; a 16-byte block is padded to 32
    bytes by a whole block of 0x10, and a shorter block to exactly 16 bytes
    by bytes that each hold the pad length. *)
Theorem padding_roundtrip (block : list byte) :
  (length block <= 16)%nat ->
  RemovePadding (padding block) = Ok block
  /\ (length block = 16%nat ->
      padding block = block ++ replicate 16 0x10 /\ length (padding block) = 32%nat)
  /\ ((length block < 16)%nat ->
      padding block
      = block ++ replicate (16 - length block) (16 - Z.of_nat (length block))
      /\ length (padding block) = 16%nat).
Proof.
  intros H. split; [|split].
  - destruct (padding_appends block H) as (n & Hn & Hmod & ->).
    apply RemovePadding_padded; assumption.
  - intros Hfull. rewrite padding_full by assumption.
    rewrite length_app, length_replicate, Hfull. split; reflexivity.
  - intros Hshort. rewrite padding_short by assumption.
    rewrite length_app, length_replicate. split; [reflexivity|lia].
Qed.

Lemma padding_roundtrip_witness :
  RemovePadding (padding [0x32; 0x43; 0xf6; 0xa8]) = Ok [0x32; 0x43; 0xf6; 0xa8].
Proof.
  apply (padding_roundtrip [0x32; 0x43; 0xf6; 0xa8]). cbn. lia.
Defined.

(** * The CTR counter *)

Lemma replicate_snoc {A} n (x : A) : replicate (S n) x = replicate n x ++ [x].
Proof. induction n as [|n IH]; [reflexivity|]. cbn [replicate app] in *. rewrite <- IH. reflexivity. Qed.

(** The bytes 0xFF at the end of the slice are reset, right to left. *)
Lemma addOneToByteSlice_loop_carry n : forall pre suf,
  addOneToByteSlice_loop (length pre + n) (pre ++ replicate n 255 ++ suf)
  = addOneToByteSlice_loop (length pre) (pre ++ replicate n 0 ++ suf).
Proof.
  induction n as [|n IH]; intros pre suf.
  - rewrite Nat.add_0_r. reflexivity.
  - rewrite !replicate_snoc, <- !app_assoc. cbn [app].
    replace (length pre + S n)%nat with (S (length pre + n)) by lia.
    cbn [addOneToByteSlice_loop].
    assert (Hat : (pre ++ replicate n 255 ++ 255 :: suf) !!! (length pre + n)%nat = 255).
    { rewrite lookup_total_app_r by lia.
      rewrite lookup_total_app_r by (rewrite length_replicate; lia).
      rewrite length_replicate.
      replace (length pre + n - length pre - n)%nat with 0%nat by lia. reflexivity. }
    rewrite Hat. cbn [Z.ltb Z.compare Pos.compare Pos.compare_cont].
    rewrite insert_app_r_alt by lia.
    rewrite insert_app_r_alt by (rewrite length_replicate; lia).
    rewrite length_replicate.
    replace (length pre + n - length pre - n)%nat with 0%nat by lia.
    cbn [insert list_insert]. apply IH.
Qed.

Lemma addOneToByteSlice_carry pre x n :
  x < 255 ->
  addOneToByteSlice (pre ++ x :: replicate n 255) = pre ++ (x + 1) :: replicate n 0.
Proof.
  intros Hx. unfold addOneToByteSlice.
  change (pre ++ x :: replicate n 255) with (pre ++ [x] ++ replicate n 255).
  rewrite app_assoc, length_app, length_replicate.
  rewrite <- (app_nil_r (replicate n 255)), addOneToByteSlice_loop_carry.
  rewrite app_nil_r, length_app. cbn [length].
  rewrite Nat.add_1_r. cbn [addOneToByteSlice_loop].
  rewrite <- app_assoc. cbn [app].
  rewrite list_lookup_total_middle by reflexivity.
  rewrite (proj2 (Z.ltb_lt x 255)) by assumption.
  replace (length pre) with (length pre + 0)%nat at 1 by lia.
  rewrite insert_app_r. reflexivity.
Qed.

Lemma addOneToByteSlice_overflow n :
  addOneToByteSlice (replicate n 255) = 1 :: replicate n 0.
Proof.
  unfold addOneToByteSlice. rewrite length_replicate.
  pose proof (addOneToByteSlice_loop_carry n [] []) as H.
  cbn [length app Nat.add] in H. rewrite !app_nil_r in H. rewrite H. reflexivity.
Qed.

(** A byte slice is all 0xFF, or ends with a byte below 0xFF followed by
    bytes 0xFF. *)
Lemma bytes_carry_shape b :
  bytes b ->
  b = replicate (length b) 255
  \/ exists pre x n, b = pre ++ x :: replicate n 255 /\ is_byte x /\ x < 255 /\ bytes pre.
Proof.
  induction b as [|y b IH] using rev_ind; intros Hb; [left; reflexivity|].
  apply Forall_app in Hb. destruct Hb as [Hb Hy]. apply Forall_cons in Hy.
  destruct Hy as [Hy _].
  destruct (decide (y = 255)) as [->|Hne].
  - destruct (IH Hb) as [Hall|(pre & x & n & -> & Hx & Hlt & Hpre)].
    + left. rewrite length_app. cbn [length]. rewrite Nat.add_1_r, replicate_snoc.
      rewrite <- Hall. reflexivity.
    + right. exists pre, x, (S n). rewrite replicate_snoc, <- app_assoc. cbn [app].
      split; [reflexivity|]. split; [assumption|]. split; assumption.
  - right. exists b, y, 0%nat.
    split; [reflexivity|]. split; [assumption|]. split; [unfold is_byte in Hy; lia|assumption].
Qed.

Lemma bigEndian_from l : forall acc,
  fold_left (fun acc x => acc * 256 + x) l acc
  = acc * 256 ^ Z.of_nat (length l) + bigEndian l.
Proof.
  unfold bigEndian. induction l as [|x l IH]; intros acc.
  - cbn. lia.
  - cbn [fold_left length]. rewrite IH, (IH (0 * 256 + x)).
    rewrite Nat2Z.inj_succ, Z.pow_succ_r by lia. lia.
Qed.

Lemma bigEndian_app l1 l2 :
  bigEndian (l1 ++ l2) = bigEndian l1 * 256 ^ Z.of_nat (length l2) + bigEndian l2.
Proof.
  unfold bigEndian at 1. rewrite fold_left_app. apply bigEndian_from.
Qed.

Lemma bigEndian_cons x l : bigEndian (x :: l) = x * 256 ^ Z.of_nat (length l) + bigEndian l.
Proof. change (x :: l) with ([x] ++ l). rewrite bigEndian_app. reflexivity. Qed.

Lemma bigEndian_zeros n : bigEndian (replicate n 0) = 0.
Proof.
  induction n as [|n IH]; [reflexivity|]. cbn [replicate].
  rewrite bigEndian_cons, IH. lia.
Qed.

Lemma bigEndian_ones n : bigEndian (replicate n 255) = 256 ^ Z.of_nat n - 1.
Proof.
  induction n as [|n IH]; [reflexivity|]. cbn [replicate].
  rewrite bigEndian_cons, IH, length_replicate, Nat2Z.inj_succ, Z.pow_succ_r by lia. lia.
Qed.

Lemma addOneToByteSlice_bigEndian b :
  bytes b -> bigEndian (addOneToByteSlice b) = bigEndian b + 1.
Proof.
  intros Hb. destruct (bytes_carry_shape b Hb) as [->|(pre & x & n & -> & _ & Hx & _)].
  - rewrite addOneToByteSlice_overflow, bigEndian_cons, bigEndian_zeros, bigEndian_ones.
    rewrite !length_replicate. lia.
  - rewrite addOneToByteSlice_carry by assumption.
    rewrite !bigEndian_app, !bigEndian_cons, bigEndian_zeros, bigEndian_ones.
    cbn [length]. rewrite !length_replicate. lia.
Qed.

(** C8. The CTR loop passes the incremented counter to the next block. The
    increment adds one to the slice read as a big-endian number: the bytes
    0xFF at the end become 0 and the byte before them is incremented; a
    slice made of 0xFF bytes only becomes 1 followed by as many zero bytes,
    one byte longer. *)
Theorem counter_increment :
  (forall block blocks r counter a,
     encryptCTR_loop (block :: blocks) r counter a
     = let* arr := toArray16 counter in
       let* (cipherBlock, a) := EncryptBlock arr a in
       encryptCTR_loop blocks (r ++ xorBytes block (convertMatrixToArray cipherBlock))
         (addOneToByteSlice counter) a)
  /\ (forall pre x n,
        x < 255 ->
        addOneToByteSlice (pre ++ x :: replicate n 255) = pre ++ (x + 1) :: replicate n 0)
  /\ (forall b, bytes b -> bigEndian (addOneToByteSlice b) = bigEndian b + 1)
  /\ (forall n,
        addOneToByteSlice (replicate n 0xFF) = 1 :: replicate n 0
        /\ length (addOneToByteSlice (replicate n 0xFF)) = S (length (replicate n 0xFF))).
Proof.
  split; [reflexivity|]. split; [exact addOneToByteSlice_carry|].
  split; [exact addOneToByteSlice_bigEndian|].
  intros n. rewrite addOneToByteSlice_overflow. split; [reflexivity|].
  cbn [length]. rewrite !length_replicate. reflexivity.
Qed.

Lemma counter_increment_witness :
  addOneToByteSlice ([0x12; 0x34] ++ 0x56 :: replicate 2 255)
  = [0x12; 0x34] ++ (0x56 + 1) :: replicate 2 0.
Proof.
  apply (proj1 (proj2 counter_increment) [0x12; 0x34] 0x56 2%nat). lia.
Defined.

(** * The mode loops as functions of the key *)

Lemma same_cipher_refl a : aes_ok a -> same_cipher a a.
Proof. intros H. split; [assumption|reflexivity]. Qed.

Lemma same_cipher_afterBlock a round : aes_ok a -> same_cipher a (afterBlock a round).
Proof. intros H. split; [apply afterBlock_ok, H|reflexivity]. Qed.

Lemma same_cipher_trans a a' a'' : same_cipher a a' -> same_cipher a' a'' -> same_cipher a a''.
Proof. intros [H1 H2] [H3 H4]. split; [assumption|congruence]. Qed.

Lemma encBlock_full k b : full (encBlock k b).
Proof. reflexivity. Qed.

Lemma decBlock_full k b : full (decBlock k b).
Proof. reflexivity. Qed.

Lemma encBlock_bytes k b : bytes k -> bytes b -> bytes (encBlock k b).
Proof. intros Hk Hb. apply convertMatrixToArray_bytes, cipher_bytes; assumption. Qed.

Lemma decBlock_bytes k b : bytes k -> bytes b -> bytes (decBlock k b).
Proof. intros Hk Hb. apply convertMatrixToArray_bytes, invCipher_bytes; assumption. Qed.

Lemma decBlock_encBlock k b : bytes k -> bytes b -> full b -> decBlock k (encBlock k b) = b.
Proof. intros. apply invCipher_cipher; assumption. Qed.

Lemma encBlock_decBlock k b : bytes k -> bytes b -> full b -> encBlock k (decBlock k b) = b.
Proof. intros. apply cipher_invCipher; assumption. Qed.

Lemma xorBytes_length a b : length (xorBytes a b) = Nat.min (length a) (length b).
Proof. apply length_zip_with. Qed.

Lemma xorBytes_bytes a b : bytes a -> bytes b -> bytes (xorBytes a b).
Proof.
  intros Ha. revert b. induction Ha as [|x a Hx Ha IH]; intros b Hb; [constructor|].
  destruct Hb as [|y b Hy Hb]; [constructor|].
  cbn. constructor; [apply lxor_is_byte; assumption|apply IH, Hb].
Qed.

Lemma xorBytes_cancel a b :
  (length a <= length b)%nat -> xorBytes (xorBytes a b) b = a.
Proof.
  revert b. induction a as [|x a IH]; intros b H; [reflexivity|].
  destruct b as [|y b]; [cbn in H; lia|].
  cbn. rewrite lxor_cancel_r. f_equal. apply IH. cbn in H. lia.
Qed.

Lemma encryptECB_loop_run blocks : forall r a,
  aes_ok a -> Forall full blocks ->
  exists a', encryptECB_loop blocks r a
             = Ok (r ++ concat (encBlock (GetBytes (key a)) <$> blocks), a')
             /\ same_cipher a a'.
Proof.
  induction blocks as [|b blocks IH]; intros r a Hok Hfull.
  - exists a. cbn. rewrite app_nil_r. split; [reflexivity|apply same_cipher_refl, Hok].
  - apply Forall_cons in Hfull. destruct Hfull as [Hb Hfull].
    cbn [encryptECB_loop]. rewrite toArray16_exact by exact Hb. cbn [bind].
    rewrite EncryptBlock_run by assumption. cbn [bind].
    destruct (IH (r ++ convertMatrixToArray (cipher (GetBytes (key a)) b)) (afterBlock a 11))
      as (a' & Hrun & Hsame); [apply afterBlock_ok, Hok|assumption|].
    exists a'. rewrite Hrun. cbn [afterBlock key fmap list_fmap concat].
    rewrite <- app_assoc. split; [reflexivity|].
    eapply same_cipher_trans; [apply (same_cipher_afterBlock a 11 Hok)|exact Hsame].
Qed.

Lemma decryptECB_loop_run blocks : forall r a,
  aes_ok a -> Forall full blocks ->
  exists a', decryptECB_loop blocks r a
             = Ok (r ++ concat (decBlock (GetBytes (key a)) <$> blocks), a')
             /\ same_cipher a a'.
Proof.
  induction blocks as [|b blocks IH]; intros r a Hok Hfull.
  - exists a. cbn. rewrite app_nil_r. split; [reflexivity|apply same_cipher_refl, Hok].
  - apply Forall_cons in Hfull. destruct Hfull as [Hb Hfull].
    cbn [decryptECB_loop]. rewrite toArray16_exact by exact Hb. cbn [bind].
    rewrite DecryptBlock_run by assumption. cbn [bind].
    destruct (IH (r ++ convertMatrixToArray (invCipher (GetBytes (key a)) b)) (afterBlock a (-1)))
      as (a' & Hrun & Hsame); [apply afterBlock_ok, Hok|assumption|].
    exists a'. rewrite Hrun. cbn [afterBlock key fmap list_fmap concat].
    rewrite <- app_assoc. split; [reflexivity|].
    eapply same_cipher_trans; [apply (same_cipher_afterBlock a (-1) Hok)|exact Hsame].
Qed.

Lemma encryptCBC_loop_run blocks : forall r prev a,
  aes_ok a -> Forall full blocks -> full prev ->
  exists a', encryptCBC_loop blocks r prev a
             = Ok (r ++ concat (cbcChain (GetBytes (key a)) prev blocks), a')
             /\ same_cipher a a'.
Proof.
  induction blocks as [|b blocks IH]; intros r prev a Hok Hfull Hprev.
  - exists a. cbn. rewrite app_nil_r. split; [reflexivity|apply same_cipher_refl, Hok].
  - apply Forall_cons in Hfull. destruct Hfull as [Hb Hfull].
    cbn [encryptCBC_loop].
    rewrite toArray16_exact by (rewrite xorBytes_length, Hb, Hprev; reflexivity).
    cbn [bind]. rewrite EncryptBlock_run by assumption. cbn [bind].
    destruct (IH (r ++ encBlock (GetBytes (key a)) (xorBytes b prev))
                 (encBlock (GetBytes (key a)) (xorBytes b prev)) (afterBlock a 11))
      as (a' & Hrun & Hsame); [apply afterBlock_ok, Hok|assumption|reflexivity|].
    exists a'. unfold encBlock in Hrun |- *. rewrite Hrun. cbn [afterBlock key cbcChain concat].
    rewrite <- app_assoc. split; [reflexivity|].
    eapply same_cipher_trans; [apply (same_cipher_afterBlock a 11 Hok)|exact Hsame].
Qed.

Lemma decryptCBC_loop_run blocks : forall r prev a,
  aes_ok a -> Forall full blocks ->
  exists a', decryptCBC_loop blocks r prev a
             = Ok (r ++ concat (cbcUnchain (GetBytes (key a)) prev blocks), a')
             /\ same_cipher a a'.
Proof.
  induction blocks as [|b blocks IH]; intros r prev a Hok Hfull.
  - exists a. cbn. rewrite app_nil_r. split; [reflexivity|apply same_cipher_refl, Hok].
  - apply Forall_cons in Hfull. destruct Hfull as [Hb Hfull].
    cbn [decryptCBC_loop]. rewrite toArray16_exact by exact Hb. cbn [bind].
    rewrite DecryptBlock_run by assumption. cbn [bind].
    destruct (IH (r ++ xorBytes (decBlock (GetBytes (key a)) b) prev) b (afterBlock a (-1)))
      as (a' & Hrun & Hsame); [apply afterBlock_ok, Hok|assumption|].
    exists a'. unfold decBlock in Hrun |- *. rewrite Hrun.
    cbn [afterBlock key cbcUnchain concat].
    rewrite <- app_assoc. split; [reflexivity|].
    eapply same_cipher_trans; [apply (same_cipher_afterBlock a (-1) Hok)|exact Hsame].
Qed.

Lemma addOneToByteSlice_loop_length n : forall b,
  (length b <= length (addOneToByteSlice_loop n b))%nat.
Proof.
  induction n as [|n IH]; intros b; cbn [addOneToByteSlice_loop].
  - cbn. lia.
  - destruct (b !!! n <? 255).
    + rewrite length_insert. lia.
    + etransitivity; [|apply IH]. rewrite length_insert. lia.
Qed.

Lemma addOneToByteSlice_length b : (length b <= length (addOneToByteSlice b))%nat.
Proof. apply addOneToByteSlice_loop_length. Qed.

Lemma toArray16_take s : (16 <= length s)%nat -> toArray16 s = Ok (take 16 s).
Proof.
  intros H. unfold toArray16. rewrite (proj2 (Nat.ltb_ge _ _)) by assumption. reflexivity.
Qed.

Lemma encryptCTR_loop_run blocks : forall r counter a,
  aes_ok a -> (16 <= length counter)%nat ->
  exists a', encryptCTR_loop blocks r counter a
             = Ok (r ++ concat (ctrStream (GetBytes (key a)) counter blocks), a')
             /\ same_cipher a a'.
Proof.
  induction blocks as [|b blocks IH]; intros r counter a Hok Hc.
  - exists a. cbn. rewrite app_nil_r. split; [reflexivity|apply same_cipher_refl, Hok].
  - cbn [encryptCTR_loop]. rewrite toArray16_take by assumption. cbn [bind].
    rewrite EncryptBlock_run by assumption. cbn [bind].
    destruct (IH (r ++ xorBytes b (encBlock (GetBytes (key a)) (take 16 counter)))
                 (addOneToByteSlice counter) (afterBlock a 11))
      as (a' & Hrun & Hsame);
      [apply afterBlock_ok, Hok|pose proof (addOneToByteSlice_length counter); lia|].
    exists a'. unfold encBlock in Hrun |- *. rewrite Hrun.
    cbn [afterBlock key ctrStream concat].
    rewrite <- app_assoc. split; [reflexivity|].
    eapply same_cipher_trans; [apply (same_cipher_afterBlock a 11 Hok)|exact Hsame].
Qed.

(** * Decrypting a ciphertext with a short last block *)

Lemma decryptECB_loop_short l : forall r a,
  aes_ok a -> (length l mod 16 <> 0)%nat ->
  decryptECB_loop (split l) r a = Panic SliceToArray.
Proof.
  induction l as [|l Hl IH] using blocks_ind; intros r a Hok Hmod; [cbn in Hmod; lia|].
  rewrite split_cons by assumption. cbn [decryptECB_loop].
  destruct (Nat.lt_ge_cases (length l) 16) as [Hshort|Hlong].
  - unfold toArray16. rewrite length_take.
    rewrite (proj2 (Nat.ltb_lt _ _)) by lia. reflexivity.
  - rewrite toArray16_exact by (rewrite length_take; lia). cbn [bind].
    rewrite DecryptBlock_run by assumption. cbn [bind].
    apply IH; [apply afterBlock_ok, Hok|].
    rewrite length_drop. intros H. apply Hmod.
    rewrite <- (Nat.Div0.mod_add (length l - 16) 1 16) in H.
    replace (length l - 16 + 1 * 16)%nat with (length l) in H by lia. exact H.
Qed.

Lemma decryptCBC_loop_short l : forall r prev a,
  aes_ok a -> (length l mod 16 <> 0)%nat ->
  decryptCBC_loop (split l) r prev a = Panic SliceToArray.
Proof.
  induction l as [|l Hl IH] using blocks_ind; intros r prev a Hok Hmod; [cbn in Hmod; lia|].
  rewrite split_cons by assumption. cbn [decryptCBC_loop].
  destruct (Nat.lt_ge_cases (length l) 16) as [Hshort|Hlong].
  - unfold toArray16. rewrite length_take.
    rewrite (proj2 (Nat.ltb_lt _ _)) by lia. reflexivity.
  - rewrite toArray16_exact by (rewrite length_take; lia). cbn [bind].
    rewrite DecryptBlock_run by assumption. cbn [bind].
    apply IH; [apply afterBlock_ok, Hok|].
    rewrite length_drop. intros H. apply Hmod.
    rewrite <- (Nat.Div0.mod_add (length l - 16) 1 16) in H.
    replace (length l - 16 + 1 * 16)%nat with (length l) in H by lia. exact H.
Qed.

(** C9. A ciphertext that passes the length checks of its mode but whose
    blocks do not fill a multiple of 16 bytes makes [Decrypt] panic at the
    conversion of the short last block to an array: in ECB for every length
    that is not a multiple of 16, in CBC for every such length from 32 on. *)
Theorem Decrypt_short_block_panics (a : AES) (encrypted : list byte) :
  aes_ok a -> (length encrypted mod 16 <> 0)%nat ->
  Decrypt ECB encrypted a = Panic SliceToArray
  /\ ((32 <= length encrypted)%nat -> Decrypt CBC encrypted a = Panic SliceToArray).
Proof.
  intros Hok Hmod. split.
  - unfold Decrypt. cbn [Z.eqb ECB]. unfold decryptECB.
    rewrite decryptECB_loop_short by assumption. reflexivity.
  - intros Hlen. unfold Decrypt. cbn [Z.eqb ECB CBC Pos.eqb].
    rewrite (proj2 (Nat.ltb_ge _ _)) by (cbn; lia).
    unfold decryptCBC. rewrite length_take.
    replace (16 `min` length encrypted)%nat with 16%nat by lia.
    cbn [Nat.eqb negb]. rewrite decryptCBC_loop_short; [reflexivity|assumption|].
    rewrite length_drop. intros H. apply Hmod.
    rewrite <- (Nat.Div0.mod_add (length encrypted - 16) 1 16) in H.
    replace (length encrypted - 16 + 1 * 16)%nat with (length encrypted) in H by lia. exact H.
Qed.

Lemma Decrypt_short_block_panics_witness :
  Decrypt ECB [1; 2; 3] (mkAES (NewKey fipsKeyC1) 10 0 (replicate 11 (replicate 16 0)))
  = Panic SliceToArray.
Proof.
  apply (Decrypt_short_block_panics
           (mkAES (NewKey fipsKeyC1) 10 0 (replicate 11 (replicate 16 0))) [1; 2; 3]).
  - repeat split; reflexivity.
  - cbn. lia.
Defined.

(** C10. On the empty plaintext, [Encrypt] in ECB and in CBC mode panics
    with an index out of range, taken from [createBlocks], and encrypts no
    padding block. *)
Theorem Encrypt_empty_panics (rand : list byte) (a : AES) :
  createBlocks [] = Panic IndexOutOfRange
  /\ Encrypt ECB [] rand a = Panic IndexOutOfRange
  /\ Encrypt CBC [] rand a = Panic IndexOutOfRange.
Proof. repeat split. Qed.

(** * Round trips through the modes *)

Lemma full_concat_length bs :
  Forall full bs -> length (concat bs) = (16 * length bs)%nat.
Proof.
  induction 1 as [|b bs Hb _ IH]; [reflexivity|].
  cbn [concat length]. rewrite length_app, IH, Hb. lia.
Qed.

Lemma Forall_concat_inv {A} (P : A -> Prop) (ls : list (list A)) :
  Forall P (concat ls) -> Forall (Forall P) ls.
Proof.
  induction ls as [|l ls IH]; intros H; [constructor|].
  cbn [concat] in H. apply Forall_app in H. destruct H as [Hl Hls].
  constructor; [assumption|apply IH, Hls].
Qed.

Lemma replicate_pad_bytes (n : nat) : (n <= 16)%nat -> bytes (replicate n (Z.of_nat n)).
Proof. intros H. apply Forall_replicate. unfold is_byte. lia. Qed.

Lemma pad_total (m n : nat) :
  (0 < m <= 16)%nat -> (1 <= n <= 16)%nat -> ((m + n) mod 16 = 0)%nat ->
  (m + n = 16)%nat \/ (m = 16 /\ n = 16)%nat.
Proof.
  intros Hm Hn Hmod.
  pose proof (Nat.div_mod_eq (m + n) 16) as H. rewrite Hmod in H.
  assert ((m + n) / 16 = 1 \/ (m + n) / 16 = 2)%nat as [Hq|Hq]; [|lia|lia].
  assert ((m + n) / 16 < 3)%nat by (apply Nat.Div0.div_lt_upper_bound; lia).
  destruct ((m + n) / 16)%nat as [|[|[|q]]]; lia.
Qed.

(** [createBlocks] yields full blocks that hold the plaintext followed by
    [n] bytes of value [n]. *)
Lemma createBlocks_run pt :
  pt <> [] ->
  exists blocks (n : nat),
    createBlocks pt = Ok blocks
    /\ Forall full blocks /\ blocks <> []
    /\ (1 <= n <= 16)%nat /\ ((length pt + n) mod 16 = 0)%nat
    /\ concat blocks = pt ++ replicate n (Z.of_nat n).
Proof.
  intros Hpt.
  destruct (split_snoc pt Hpt) as (init & last & Hs & Hinit & Hlast & Hcat).
  destruct (padding_appends last) as (n & Hn & Hmod & Hpad); [lia|].
  assert (Hidx : index (init ++ [last]) (Z.of_nat (length (init ++ [last])) - 1) = Ok last).
  { apply index_lookup; rewrite length_app; cbn [length]; [lia|].
    replace (Z.to_nat (Z.of_nat (length init + 1) - 1)) with (length init + 0)%nat by lia.
    rewrite lookup_app_r by lia. replace (length init + 0 - length init)%nat with 0%nat by lia.
    reflexivity. }
  assert (Hstore : forall v, store (init ++ [last]) (Z.of_nat (length (init ++ [last])) - 1) v
                             = Ok (init ++ [v])).
  { intros v. rewrite store_insert by (rewrite length_app; cbn [length]; lia).
    rewrite length_app. cbn [length].
    replace (Z.to_nat (Z.of_nat (length init + 1) - 1)) with (length init + 0)%nat by lia.
    rewrite insert_app_r. reflexivity. }
  assert (Hlenpt : length pt = (16 * length init + length last)%nat).
  { rewrite Hcat at 1. rewrite length_app, full_concat_length by assumption. reflexivity. }
  assert (Hmodpt : ((length pt + n) mod 16 = 0)%nat).
  { rewrite Hlenpt. replace (16 * length init + length last + n)%nat
      with (length last + n + length init * 16)%nat by lia.
    rewrite Nat.Div0.mod_add. exact Hmod. }
  unfold createBlocks. rewrite Hs, Hidx. cbn [bind]. rewrite Hpad.
  rewrite length_app, length_replicate.
  destruct (decide (length last = 16%nat)) as [Hfull|Hshort].
  - assert (n = 16%nat) as -> by (destruct (pad_total (length last) n) as [?|[? ?]]; lia).
    rewrite Hfull. cbn [Nat.add Nat.eqb].
    rewrite split_app by assumption.
    rewrite split_short by (reflexivity || discriminate).
    exists (init ++ [last] ++ [replicate 16 (Z.of_nat 16)]), 16%nat.
    split.
    { change (index [last; replicate 16 (Z.of_nat 16)] 0) with (Ok last).
      change (index [last; replicate 16 (Z.of_nat 16)] 1) with (Ok (replicate 16 (Z.of_nat 16))).
      cbn [bind]. rewrite Hstore. cbn [bind]. rewrite app_assoc. reflexivity. }
    split; [repeat (apply Forall_app_2 || apply Forall_cons_2 || apply Forall_nil_2);
            solve [assumption|reflexivity]|].
    split; [destruct init; discriminate|].
    split; [lia|]. split; [assumption|].
    rewrite !concat_app. cbn [concat]. rewrite !app_nil_r, Hcat, <- app_assoc. reflexivity.
  - assert (length last + n = 16)%nat
      by (destruct (pad_total (length last) n) as [?|[? ?]]; lia).
    rewrite (proj2 (Nat.eqb_eq (length last + n) 16)) by assumption.
    exists (init ++ [last ++ replicate n (Z.of_nat n)]), n.
    split; [apply Hstore|].
    split.
    { apply Forall_app_2; [assumption|]. constructor; [|constructor].
      unfold full. rewrite length_app, length_replicate. assumption. }
    split; [destruct init; discriminate|].
    split; [lia|]. split; [assumption|].
    rewrite concat_app. cbn [concat]. rewrite app_nil_r, Hcat, <- app_assoc. reflexivity.
Qed.

Lemma cbcChain_full k blocks : forall prev, Forall full (cbcChain k prev blocks).
Proof.
  induction blocks as [|b blocks IH]; intros prev; cbn [cbcChain]; constructor.
  - reflexivity.
  - apply IH.
Qed.

Lemma cbcChain_length k blocks : forall prev, length (cbcChain k prev blocks) = length blocks.
Proof.
  induction blocks as [|b blocks IH]; intros prev; cbn [cbcChain length]; [|rewrite IH];
    reflexivity.
Qed.

Lemma cbcUnchain_cbcChain k blocks : forall prev,
  bytes k -> Forall full blocks -> Forall bytes blocks -> full prev -> bytes prev ->
  cbcUnchain k prev (cbcChain k prev blocks) = blocks.
Proof.
  induction blocks as [|b blocks IH]; intros prev Hk Hfull Hbytes Hprev Hpb; [reflexivity|].
  apply Forall_cons in Hfull. destruct Hfull as [Hb Hfull].
  apply Forall_cons in Hbytes. destruct Hbytes as [Hbb Hbytes].
  cbn [cbcChain cbcUnchain].
  assert (Hx : full (xorBytes b prev))
    by (unfold full in *; rewrite xorBytes_length, Hb, Hprev; reflexivity).
  assert (Hxb : bytes (xorBytes b prev)) by (apply xorBytes_bytes; assumption).
  rewrite decBlock_encBlock by assumption.
  rewrite xorBytes_cancel by (unfold full in *; lia).
  f_equal. apply IH; try assumption; [reflexivity|apply encBlock_bytes; assumption].
Qed.

Lemma split_blocks_le l : Forall (fun b => (length b <= 16)%nat) (split l).
Proof.
  induction l as [|l Hl IH] using blocks_ind; [constructor|].
  rewrite split_cons by assumption. constructor; [|exact IH].
  rewrite length_take. lia.
Qed.

Lemma ctrStream_lengths k blocks : forall counter,
  Forall (fun b => (length b <= 16)%nat) blocks ->
  Forall2 (fun b c => length b = length c) (ctrStream k counter blocks) blocks.
Proof.
  induction blocks as [|b blocks IH]; intros counter H; cbn [ctrStream]; constructor.
  - apply Forall_cons in H. destruct H as [Hb _].
    rewrite xorBytes_length. pose proof (encBlock_full k (take 16 counter)) as Hf.
    unfold full in Hf. lia.
  - apply IH. apply Forall_cons in H. tauto.
Qed.

Lemma ctrStream_involutive k blocks : forall counter,
  Forall (fun b => (length b <= 16)%nat) blocks ->
  ctrStream k counter (ctrStream k counter blocks) = blocks.
Proof.
  induction blocks as [|b blocks IH]; intros counter H; [reflexivity|].
  apply Forall_cons in H. destruct H as [Hb H].
  cbn [ctrStream]. rewrite xorBytes_cancel, IH by (assumption || exact Hb).
  reflexivity.
Qed.

Lemma Forall2_same_length_concat (bs cs : list (list byte)) :
  Forall2 (fun b c => length b = length c) bs cs -> length (concat bs) = length (concat cs).
Proof.
  induction 1 as [|b c bs cs Hbc _ IH]; [reflexivity|].
  cbn [concat]. rewrite !length_app, Hbc, IH. reflexivity.
Qed.

Lemma encryptECB_run pt a :
  aes_ok a -> pt <> [] ->
  exists blocks (n : nat) a',
    encryptECB pt a = Ok (concat (encBlock (GetBytes (key a)) <$> blocks), a')
    /\ same_cipher a a' /\ Forall full blocks
    /\ (1 <= n <= 16)%nat /\ ((length pt + n) mod 16 = 0)%nat
    /\ concat blocks = pt ++ replicate n (Z.of_nat n).
Proof.
  intros Hok Hpt.
  destruct (createBlocks_run pt Hpt) as (blocks & n & Hcb & Hfull & _ & Hn & Hmod & Hcat).
  destruct (encryptECB_loop_run blocks [] a Hok Hfull) as (a' & Hrun & Hsame).
  exists blocks, n, a'. unfold encryptECB. rewrite Hcb. cbn [bind]. rewrite Hrun.
  repeat match goal with |- _ /\ _ => split end;
    first [assumption | reflexivity | lia].
Qed.

Lemma decryptECB_run k blocks pt (n : nat) a :
  aes_ok a -> GetBytes (key a) = k -> bytes k ->
  Forall full blocks -> Forall bytes blocks ->
  (1 <= n <= 16)%nat -> ((length pt + n) mod 16 = 0)%nat ->
  concat blocks = pt ++ replicate n (Z.of_nat n) ->
  exists a', decryptECB (concat (encBlock k <$> blocks)) a = Ok (pt, a').
Proof.
  intros Hok Hkey Hk Hfull Hbytes Hn Hmod Hcat.
  assert (Hencfull : Forall full (encBlock k <$> blocks)).
  { apply Forall_fmap, Forall_forall. intros b _. reflexivity. }
  destruct (decryptECB_loop_run (encBlock k <$> blocks) [] a Hok Hencfull) as (a' & Hrun & _).
  exists a'. unfold decryptECB. rewrite split_concat_full by assumption.
  assert (Hmap : decBlock k <$> (encBlock k <$> blocks) = blocks).
  { rewrite <- list_fmap_compose. rewrite <- (list_fmap_id blocks) at 2.
    apply list_fmap_ext. intros i b Hb. cbn. apply decBlock_encBlock; [assumption| |].
    - exact (Forall_lookup_1 bytes blocks i b Hbytes Hb).
    - exact (Forall_lookup_1 full blocks i b Hfull Hb). }
  rewrite Hrun. cbn [bind app]. rewrite Hkey, Hmap.
  rewrite Hcat, RemovePadding_padded by assumption. reflexivity.
Qed.

Lemma encryptCBC_run pt iv a :
  aes_ok a -> pt <> [] -> full iv ->
  exists blocks (n : nat) a',
    encryptCBC pt iv a = Ok (iv ++ concat (cbcChain (GetBytes (key a)) iv blocks), a')
    /\ same_cipher a a' /\ Forall full blocks /\ blocks <> []
    /\ (1 <= n <= 16)%nat /\ ((length pt + n) mod 16 = 0)%nat
    /\ concat blocks = pt ++ replicate n (Z.of_nat n).
Proof.
  intros Hok Hpt Hiv.
  destruct (createBlocks_run pt Hpt) as (blocks & n & Hcb & Hfull & Hne & Hn & Hmod & Hcat).
  destruct (encryptCBC_loop_run blocks [] iv a Hok Hfull Hiv) as (a' & Hrun & Hsame).
  exists blocks, n, a'. unfold encryptCBC. rewrite Hcb. cbn [bind].
  rewrite Hiv. cbn [Nat.eqb negb]. rewrite Hrun. cbn [bind app].
  repeat match goal with |- _ /\ _ => split end;
    first [assumption | reflexivity | lia].
Qed.

Lemma Decrypt_CBC_run k blocks pt (n : nat) iv a :
  aes_ok a -> GetBytes (key a) = k -> bytes k ->
  Forall full blocks -> Forall bytes blocks -> blocks <> [] ->
  full iv -> bytes iv ->
  (1 <= n <= 16)%nat -> ((length pt + n) mod 16 = 0)%nat ->
  concat blocks = pt ++ replicate n (Z.of_nat n) ->
  exists a', Decrypt CBC (iv ++ concat (cbcChain k iv blocks)) a = Ok (pt, a').
Proof.
  intros Hok Hkey Hk Hfull Hbytes Hne Hiv Hivb Hn Hmod Hcat.
  pose proof (cbcChain_full k blocks iv) as Hcf.
  destruct (decryptCBC_loop_run (cbcChain k iv blocks) [] iv a Hok Hcf) as (a' & Hrun & _).
  exists a'. unfold Decrypt. cbn [Z.eqb CBC ECB Pos.eqb].
  assert (Hlen : (32 <= length (iv ++ concat (cbcChain k iv blocks)))%nat).
  { rewrite length_app, Hiv, full_concat_length, cbcChain_length by assumption.
    destruct blocks; [congruence|cbn [length]; lia]. }
  rewrite (proj2 (Nat.ltb_ge _ _)) by exact Hlen.
  rewrite take_app_length', drop_app_length' by (symmetry; exact Hiv).
  unfold decryptCBC. rewrite Hiv. cbn [Nat.eqb negb].
  rewrite split_concat_full by assumption.
  rewrite Hrun. cbn [bind app]. rewrite Hkey.
  rewrite cbcUnchain_cbcChain by assumption.
  rewrite Hcat, RemovePadding_padded by assumption. reflexivity.
Qed.

Lemma encryptCTR_run pt counter a :
  aes_ok a -> full counter ->
  exists a',
    encryptCTR pt counter a
    = Ok (counter ++ concat (ctrStream (GetBytes (key a)) counter (split pt)), a')
    /\ same_cipher a a'.
Proof.
  intros Hok Hc. unfold encryptCTR.
  rewrite copyInto_exact by reflexivity.
  apply encryptCTR_loop_run; [assumption|]. unfold full in Hc. lia.
Qed.

Lemma Decrypt_CTR_run k pt counter a :
  aes_ok a -> GetBytes (key a) = k -> full counter -> pt <> [] ->
  exists a', Decrypt CTR (counter ++ concat (ctrStream k counter (split pt))) a = Ok (pt, a').
Proof.
  intros Hok Hkey Hc Hpt.
  pose proof (ctrStream_lengths k (split pt) counter (split_blocks_le pt)) as Hshape.
  assert (Hsplit : split (concat (ctrStream k counter (split pt))) = ctrStream k counter (split pt))
    by (apply (split_concat_like _ pt), Hshape).
  destruct (encryptCTR_run (concat (ctrStream k counter (split pt))) counter a Hok Hc)
    as (a' & Hrun & _).
  exists a'. unfold Decrypt. cbn [Z.eqb CTR CBC ECB Pos.eqb].
  assert (Hlen : (16 < length (counter ++ concat (ctrStream k counter (split pt))))%nat).
  { rewrite length_app, Hc, (Forall2_same_length_concat _ _ Hshape).
    fold (join (split pt)). rewrite join_split.
    destruct pt; [congruence|cbn [length]; lia]. }
  rewrite (proj2 (Nat.leb_gt _ _)) by exact Hlen.
  rewrite take_app_length', drop_app_length' by (symmetry; exact Hc).
  rewrite Hrun. cbn [bind]. rewrite Hkey, Hsplit.
  rewrite ctrStream_involutive by apply split_blocks_le.
  rewrite drop_app_length' by (symmetry; exact Hc).
  fold (join (split pt)). rewrite join_split. reflexivity.
Qed.

(** C4. For every plaintext that is not empty and each of the modes ECB,
    CBC and CTR, decrypting what [Encrypt] produced gives the plaintext
    back, with the same cipher object or any other of the same key, and
    whatever 16 bytes [Encrypt] drew as IV or nonce; in CBC and CTR these
    are the first 16 bytes of the ciphertext, where [Decrypt] reads them. *)
Theorem mode_roundtrip (mode : Mode) (a : AES) (plaintext rand : list byte) :
  mode = ECB \/ mode = CBC \/ mode = CTR ->
  aes_ok a -> bytes (GetBytes (key a)) ->
  plaintext <> [] -> bytes plaintext ->
  length rand = 16%nat -> bytes rand ->
  exists c a',
    Encrypt mode plaintext rand a = Ok (c, a')
    /\ same_cipher a a'
    /\ (mode <> ECB -> take 16 c = rand)
    /\ forall a2, same_cipher a a2 ->
         exists a'', Decrypt mode c a2 = Ok (plaintext, a'').
Proof.
  intros Hmode Hok Hk Hpt Hptb Hrand Hrandb.
  assert (Hpad : forall blocks (n : nat),
            (1 <= n <= 16)%nat -> concat blocks = plaintext ++ replicate n (Z.of_nat n) ->
            Forall bytes blocks).
  { intros blocks n Hn Hcat. apply Forall_concat_inv. unfold bytes in *. rewrite Hcat.
    apply Forall_app_2; [assumption|]. apply replicate_pad_bytes. lia. }
  destruct Hmode as [->|[->| ->]].
  - destruct (encryptECB_run plaintext a Hok Hpt)
      as (blocks & n & a' & Hrun & Hsame & Hfull & Hn & Hmod & Hcat).
    exists (concat (encBlock (GetBytes (key a)) <$> blocks)), a'.
    split; [exact Hrun|]. split; [exact Hsame|]. split; [congruence|].
    intros a2 [Hok2 Hkey2].
    apply (decryptECB_run (GetBytes (key a)) blocks plaintext n a2); eauto.
    rewrite Hkey2. reflexivity.
  - destruct (encryptCBC_run plaintext rand a Hok Hpt Hrand)
      as (blocks & n & a' & Hrun & Hsame & Hfull & Hne & Hn & Hmod & Hcat).
    exists (rand ++ concat (cbcChain (GetBytes (key a)) rand blocks)), a'.
    split; [exact Hrun|]. split; [exact Hsame|]. split; [intros _; apply take_app_length'; symmetry; exact Hrand|].
    intros a2 [Hok2 Hkey2].
    apply (Decrypt_CBC_run (GetBytes (key a)) blocks plaintext n rand a2); eauto.
    rewrite Hkey2. reflexivity.
  - destruct (encryptCTR_run plaintext rand a Hok Hrand) as (a' & Hrun & Hsame).
    exists (rand ++ concat (ctrStream (GetBytes (key a)) rand (split plaintext))), a'.
    split; [exact Hrun|]. split; [exact Hsame|]. split; [intros _; apply take_app_length'; symmetry; exact Hrand|].
    intros a2 [Hok2 Hkey2].
    apply (Decrypt_CTR_run (GetBytes (key a)) plaintext rand a2); eauto.
    rewrite Hkey2. reflexivity.
Qed.

Lemma mode_roundtrip_witness :
  exists c a',
    Encrypt CBC fipsPlainB fipsPlainC1 (mkAES (NewKey fipsKeyC1) 10 0 (replicate 11 (replicate 16 0)))
    = Ok (c, a')
    /\ same_cipher (mkAES (NewKey fipsKeyC1) 10 0 (replicate 11 (replicate 16 0))) a'
    /\ (CBC <> ECB -> take 16 c = fipsPlainC1)
    /\ forall a2,
         same_cipher (mkAES (NewKey fipsKeyC1) 10 0 (replicate 11 (replicate 16 0))) a2 ->
         exists a'', Decrypt CBC c a2 = Ok (fipsPlainB, a'').
Proof.
  apply (mode_roundtrip CBC (mkAES (NewKey fipsKeyC1) 10 0 (replicate 11 (replicate 16 0)))
           fipsPlainB fipsPlainC1).
  - right. left. reflexivity.
  - repeat split; reflexivity.
  - apply bytesb_bytes. reflexivity.
  - discriminate.
  - apply bytesb_bytes. reflexivity.
  - reflexivity.
  - apply bytesb_bytes. reflexivity.
Defined.

(** * The padding oracle *)

Lemma xorBytes_lookup_total a b i :
  (i < length a)%nat -> (i < length b)%nat ->
  xorBytes a b !!! i = Z.lxor (a !!! i) (b !!! i).
Proof.
  intros Ha Hb. apply list_lookup_total_correct. unfold xorBytes.
  rewrite lookup_zip_with.
  rewrite (list_lookup_lookup_total_lt a i Ha), (list_lookup_lookup_total_lt b i Hb).
  reflexivity.
Qed.

Lemma RemovePadding_block r :
  full r ->
  (exists out, RemovePadding r = Ok out /\ validPadding r)
  \/ (RemovePadding r = Err "Invalid padding" /\ ~ validPadding r).
Proof.
  intros Hr.
  assert (Hne : r <> []) by (intros ->; discriminate Hr).
  destruct (RemovePadding_full_cases r [] r) as [(Herr & Hbad)|(Hok & H0 & H16 & Hall)].
  - apply split_short; [assumption|]. unfold full in Hr. lia.
  - reflexivity.
  - exact Hr.
  - right. split; [exact Herr|]. intros (H0 & H16 & Hall).
    destruct Hbad as [?|[?|(j & Hj & Hne')]]; [contradiction|lia|].
    apply Hne', Hall, Hj.
  - left. eexists. split; [exact Hok|]. split; [assumption|]. split; assumption.
Qed.

(** The oracle's answer to a forged previous block [q] followed by a
    cipher block [last]: it reports whether the inverse cipher of [last],
    xored with [q], is validly padded. *)
Lemma Oracle_Decrypt_forged o q last :
  length (GetBytes (oracle_key o)) = 16%nat -> full q -> full last ->
  (Oracle_Decrypt o (q ++ last) = Ok tt
   /\ validPadding (xorBytes (decBlock (GetBytes (oracle_key o)) last) q))
  \/ (Oracle_Decrypt o (q ++ last) = Err "Invalid padding"
      /\ ~ validPadding (xorBytes (decBlock (GetBytes (oracle_key o)) last) q)).
Proof.
  intros Hk Hq Hlast. unfold Oracle_Decrypt.
  rewrite New_16 by assumption. cbn [bind].
  unfold Decrypt. cbn [Z.eqb CBC ECB Pos.eqb].
  rewrite length_app, Hq, Hlast. cbn [Nat.add Nat.ltb Nat.leb Nat.mul].
  rewrite take_app_length', drop_app_length' by (symmetry; exact Hq).
  unfold decryptCBC. rewrite Hq. cbn [Nat.eqb negb].
  rewrite split_short
    by first [ intros ->; discriminate Hlast | unfold full in Hlast; lia ].
  cbn [decryptCBC_loop]. rewrite toArray16_exact by exact Hlast. cbn [bind].
  rewrite DecryptBlock_run by (repeat split; assumption).
  cbn [bind app key]. fold (decBlock (GetBytes (oracle_key o)) last).
  destruct (RemovePadding_block (xorBytes (decBlock (GetBytes (oracle_key o)) last) q))
    as [(out & Hok & Hvalid)|(Herr & Hinvalid)].
  - unfold full. rewrite xorBytes_length, Hq. reflexivity.
  - left. rewrite Hok. split; [reflexivity|assumption].
  - right. rewrite Herr. split; [reflexivity|assumption].
Qed.

Lemma lxor_1_neq x : Z.lxor x 1 <> x.
Proof.
  intros H. pose proof (lxor_cancel_l x 1) as Hc. rewrite H, Z.lxor_nilpotent in Hc.
  discriminate Hc.
Qed.

(** The bytes above position [z] are set from the solved bytes [dec]; the
    others are kept. *)
Lemma findPaddingByte_adjust_spec n : forall lo pv dec prev,
  length (findPaddingByte_adjust n (lo + n - 1) pv dec prev) = length prev
  /\ forall y, (y < length prev)%nat ->
       findPaddingByte_adjust n (lo + n - 1) pv dec prev !!! y
       = if decide (lo <= y < lo + n)%nat then Z.lxor (dec !!! y) pv else prev !!! y.
Proof.
  induction n as [|n IH]; intros lo pv dec prev.
  - cbn [findPaddingByte_adjust]. split; [reflexivity|]. intros y Hy.
    destruct (decide _) as [H|H]; [lia|reflexivity].
  - cbn [findPaddingByte_adjust].
    replace (lo + S n - 1 - 1)%nat with (lo + n - 1)%nat by lia.
    destruct (IH lo pv dec (<[(lo + S n - 1)%nat := Z.lxor (dec !!! (lo + S n - 1)%nat) pv]> prev))
      as [Hlen Hat].
    rewrite length_insert in Hlen, Hat. split; [exact Hlen|].
    intros y Hy. rewrite (Hat y Hy).
    destruct (decide (lo <= y < lo + n)%nat) as [H1|H1];
      destruct (decide (lo <= y < lo + S n)%nat) as [H2|H2]; try reflexivity; try lia.
    + assert (y = lo + S n - 1)%nat as -> by lia.
      apply list_lookup_total_insert_eq. lia.
    + apply list_lookup_total_insert_ne. lia.
Qed.

Section Attack.

Variable o : Oracle.
Variable last : list byte.
Hypothesis Hkey : length (GetBytes (oracle_key o)) = 16%nat.
Hypothesis Hkeyb : bytes (GetBytes (oracle_key o)).
Hypothesis Hlast : full last.
Hypothesis Hlastb : bytes last.

(** The inverse cipher of the attacked block: the bytes the attack solves. *)
Local Abbreviation inter := (decBlock (GetBytes (oracle_key o)) last).

Lemma inter_full : full inter.
Proof. reflexivity. Qed.

Lemma inter_byte i : is_byte (inter !!! i).
Proof. apply lookup_total_bytes, decBlock_bytes; assumption. Qed.

Lemma query_cases q :
  full q ->
  (Oracle_Decrypt o (q ++ last) = Ok tt /\ validPadding (xorBytes inter q))
  \/ (Oracle_Decrypt o (q ++ last) = Err "Invalid padding"
      /\ ~ validPadding (xorBytes inter q)).
Proof. intros Hq. apply Oracle_Decrypt_forged; assumption. Qed.

Lemma forged_at q i :
  full q -> (i < 16)%nat -> xorBytes inter q !!! i = Z.lxor (inter !!! i) (q !!! i).
Proof.
  intros Hq Hi. apply xorBytes_lookup_total; [rewrite inter_full|rewrite Hq]; exact Hi.
Qed.

(** Below position 15 exactly one candidate makes the padding valid. *)
Lemma valid_at_z q (z : nat) j :
  (z < 15)%nat -> full q ->
  (forall x, (z < x < 16)%nat -> q !!! x = Z.lxor (inter !!! x) (16 - Z.of_nat z)) ->
  validPadding (xorBytes inter (<[z := j]> q))
  <-> j = Z.lxor (inter !!! z) (16 - Z.of_nat z).
Proof.
  intros Hz Hq Habove.
  assert (Hq' : full (<[z := j]> q)) by (unfold full; rewrite length_insert; exact Hq).
  assert (Hrest : forall x, (z < x < 16)%nat ->
                    xorBytes inter (<[z := j]> q) !!! x = 16 - Z.of_nat z).
  { intros x Hx. rewrite forged_at by (assumption || lia).
    rewrite list_lookup_total_insert_ne by lia.
    rewrite Habove by assumption. apply lxor_cancel_l. }
  assert (Hatz : xorBytes inter (<[z := j]> q) !!! z = Z.lxor (inter !!! z) j).
  { rewrite forged_at by (assumption || lia).
    rewrite list_lookup_total_insert_eq by (rewrite Hq; lia). reflexivity. }
  unfold validPadding. cbv zeta. rewrite (Hrest 15%nat) by lia.
  replace (Z.to_nat (16 - (16 - Z.of_nat z))) with z by lia.
  split.
  - intros (_ & _ & Hall). specialize (Hall z). rewrite Hatz in Hall.
    apply lxor_move. apply Hall. lia.
  - intros ->. split; [lia|]. split; [lia|]. intros x Hx.
    destruct (decide (x = z)) as [->|Hne].
    + rewrite Hatz. apply lxor_cancel_l.
    + apply Hrest. lia.
Qed.

Lemma findPaddingByte_loop_mid (z : nat) n : forall j prev,
  (z < 15)%nat -> full prev ->
  (forall x, (z < x < 16)%nat -> prev !!! x = Z.lxor (inter !!! x) (16 - Z.of_nat z)) ->
  0 <= j <= Z.lxor (inter !!! z) (16 - Z.of_nat z) ->
  Z.lxor (inter !!! z) (16 - Z.of_nat z) < j + Z.of_nat n <= 256 ->
  exists prev',
    findPaddingByte_loop n j o prev last z
    = Ok (Z.lxor (inter !!! z) (16 - Z.of_nat z), prev')
    /\ full prev'.
Proof.
  induction n as [|n IH]; intros j prev Hz Hprev Habove Hj Hn; [lia|].
  cbn [findPaddingByte_loop].
  rewrite (toByte_small j) by (unfold is_byte; lia).
  assert (Hfull' : full (<[z := j]> prev))
    by (unfold full; rewrite length_insert; exact Hprev).
  destruct (query_cases (<[z := j]> prev) Hfull') as [(Hans & Hv)|(Hans & Hv)];
    rewrite Hans.
  - apply valid_at_z in Hv; [|assumption..]. subst j.
    rewrite (proj2 (Nat.eqb_neq z 15)) by lia.
    eexists. split; [reflexivity|exact Hfull'].
  - assert (Hne : j <> Z.lxor (inter !!! z) (16 - Z.of_nat z)).
    { intros Heq. apply Hv. apply valid_at_z; assumption. }
    apply IH; try assumption; try lia.
    intros x Hx. rewrite list_lookup_total_insert_ne by lia. apply Habove, Hx.
Qed.

(** At position 15 a candidate gives valid padding both before and after
    byte 14 is flipped only when it sets the last byte to 1. *)
Lemma valid_last_one q j :
  full q -> j = Z.lxor (inter !!! 15%nat) 1 ->
  validPadding (xorBytes inter (<[15%nat := j]> q)).
Proof.
  intros Hq ->.
  assert (Hq' : full (<[15%nat := Z.lxor (inter !!! 15%nat) 1]> q))
    by (unfold full; rewrite length_insert; exact Hq).
  assert (H15 : xorBytes inter (<[15%nat := Z.lxor (inter !!! 15%nat) 1]> q) !!! 15%nat = 1).
  { rewrite forged_at by (assumption || lia).
    rewrite list_lookup_total_insert_eq by (rewrite Hq; lia). apply lxor_cancel_l. }
  unfold validPadding. cbv zeta. rewrite H15.
  split; [lia|]. split; [lia|]. intros x Hx.
  assert (x = 15%nat) as -> by lia. exact H15.
Qed.

Lemma valid_last_flip q j :
  full q -> is_byte j -> q !!! 15%nat = j ->
  validPadding (xorBytes inter q) ->
  validPadding (xorBytes inter (<[14%nat := Z.lxor (q !!! 14%nat) 1]> q)) ->
  j = Z.lxor (inter !!! 15%nat) 1.
Proof.
  intros Hq Hj Hq15 (H0 & H16 & Hall) (_ & _ & Hall').
  assert (Hq' : full (<[14%nat := Z.lxor (q !!! 14%nat) 1]> q))
    by (unfold full; rewrite length_insert; exact Hq).
  cbv zeta in *.
  rewrite forged_at in Hall' by (assumption || lia).
  rewrite list_lookup_total_insert_ne in Hall' by lia.
  rewrite forged_at in H0, H16, Hall by (assumption || lia).
  rewrite Hq15 in *.
  set (v := Z.lxor (inter !!! 15%nat) j) in *.
  assert (Hv : is_byte v) by (apply lxor_is_byte; [apply inter_byte|assumption]).
  unfold is_byte in Hv.
  destruct (decide (v = 1)) as [Hv1|Hv1].
  - apply lxor_move. exact Hv1.
  - exfalso.
    specialize (Hall 14%nat). specialize (Hall' 14%nat).
    rewrite forged_at in Hall, Hall' by (assumption || lia).
    rewrite list_lookup_total_insert_eq in Hall' by (rewrite Hq; lia).
    assert (H14 : Z.lxor (inter !!! 14%nat) (q !!! 14%nat) = v) by (apply Hall; lia).
    assert (H14' : Z.lxor (inter !!! 14%nat) (Z.lxor (q !!! 14%nat) 1) = v)
      by (apply Hall'; lia).
    rewrite <- Z.lxor_assoc, H14 in H14'. exact (lxor_1_neq v H14').
Qed.

Lemma findPaddingByte_loop_last n : forall j prev,
  full prev ->
  0 <= j <= Z.lxor (inter !!! 15%nat) 1 ->
  Z.lxor (inter !!! 15%nat) 1 < j + Z.of_nat n <= 256 ->
  exists prev',
    findPaddingByte_loop n j o prev last 15
    = Ok (Z.lxor (inter !!! 15%nat) 1, prev')
    /\ full prev'.
Proof.
  induction n as [|n IH]; intros j prev Hprev Hj Hn; [lia|].
  cbn [findPaddingByte_loop].
  rewrite (toByte_small j) by (unfold is_byte; lia).
  set (p1 := <[15%nat := j]> prev).
  set (p2 := <[14%nat := Z.lxor (p1 !!! 14%nat) 1]> p1).
  assert (Hp1 : full p1) by (unfold full, p1; rewrite length_insert; exact Hprev).
  assert (Hp2 : full p2) by (unfold full, p2; rewrite length_insert; exact Hp1).
  assert (Hp1at : p1 !!! 15%nat = j)
    by (unfold p1; apply list_lookup_total_insert_eq; rewrite Hprev; lia).
  assert (Hp2eq : p2 = <[15%nat := j]> p2).
  { unfold p2. rewrite list_insert_insert_ne by lia.
    f_equal. unfold p1. rewrite list_insert_insert_eq. reflexivity. }
  cbn [Nat.eqb].
  destruct (query_cases p1 Hp1) as [(Hans1 & Hv1)|(Hans1 & Hv1)]; rewrite Hans1.
  - destruct (query_cases p2 Hp2) as [(Hans2 & Hv2)|(Hans2 & Hv2)]; rewrite Hans2.
    + assert (j = Z.lxor (inter !!! 15%nat) 1) as Heq.
      { apply (valid_last_flip p1); try assumption. unfold is_byte. lia. }
      rewrite <- Heq. exists p2. split; [reflexivity|exact Hp2].
    + assert (Hne : j <> Z.lxor (inter !!! 15%nat) 1).
      { intros Heq. apply Hv2. rewrite Hp2eq. apply valid_last_one; assumption. }
      apply IH; [exact Hp2|lia|lia].
  - assert (Hne : j <> Z.lxor (inter !!! 15%nat) 1).
    { intros Heq. apply Hv1. apply valid_last_one; assumption. }
    apply IH; [exact Hp1|lia|lia].
Qed.

(** [findPaddingByte] returns the solved byte xored with the padding
    value, once the bytes above [z] are solved. *)
Lemma findPaddingByte_finds (z : nat) prev dec :
  (z < 16)%nat -> full prev -> full dec ->
  (forall x, (z < x < 16)%nat -> dec !!! x = inter !!! x) ->
  exists prev',
    findPaddingByte o prev last dec z
    = Ok (Z.lxor (inter !!! z) (16 - Z.of_nat z), prev')
    /\ full prev'.
Proof.
  intros Hz Hprev Hdec Hsolved. unfold findPaddingByte.
  rewrite toByte_small by (unfold is_byte; lia).
  assert (Hb : is_byte (Z.lxor (inter !!! z) (16 - Z.of_nat z))).
  { apply lxor_is_byte; [apply inter_byte|unfold is_byte; lia]. }
  unfold is_byte in Hb.
  destruct (decide (z = 15%nat)) as [->|Hne].
  - cbn [Z.of_nat Pos.of_succ_nat Pos.succ Z.sub Z.add Z.opp Z.pos_sub Z.gtb Z.compare
           Pos.compare Pos.compare_cont Z.succ_double Z.pred_double Z.double Pos.pred_double].
    change (16 - Z.of_nat 15) with 1 in *.
    change (1 >? 1) with false. cbv iota.
    apply findPaddingByte_loop_last; [assumption|lia|lia].
  - rewrite (proj2 (Z.gtb_gt _ _)) by lia.
    replace (15 - z)%nat with ((S z) + (15 - z) - 1 - z)%nat at 1 by lia.
    destruct (findPaddingByte_adjust_spec (15 - z) (S z) (16 - Z.of_nat z) dec prev)
      as [Hlen Hat].
    replace (S z + (15 - z) - 1)%nat with 15%nat in Hlen, Hat by lia.
    replace (S z + (15 - z) - 1 - z)%nat with (15 - z)%nat by lia.
    apply findPaddingByte_loop_mid; [lia| |  |lia|lia].
    + unfold full. rewrite Hlen. exact Hprev.
    + intros x Hx. rewrite Hat by (rewrite Hprev; lia).
      destruct (decide _) as [_|Hout]; [|lia]. rewrite Hsolved by assumption. reflexivity.
Qed.

End Attack.

(** * The attack on one block and on the whole ciphertext *)

(** With the bytes from position [n] on solved and stored, the loop over
    the remaining positions fills block [i] of [decrypted] with the inverse
    cipher of [last] xored with [prev]. *)
Lemma PaddingOracle_bytes_run o (i : nat) prev last d0 n : forall p dec,
  length (GetBytes (oracle_key o)) = 16%nat -> bytes (GetBytes (oracle_key o)) ->
  full last -> bytes last -> full prev -> full p -> full dec ->
  (n <= 16)%nat ->
  (forall x, (n <= x < 16)%nat -> dec !!! x = decBlock (GetBytes (oracle_key o)) last !!! x) ->
  (16 * i + 16 <= length d0)%nat ->
  PaddingOracle_bytes n o i prev last p dec
    (take (16 * i + n) d0
       ++ drop n (xorBytes (decBlock (GetBytes (oracle_key o)) last) prev)
       ++ drop (16 * i + 16) d0)
  = Ok (take (16 * i) d0
          ++ xorBytes (decBlock (GetBytes (oracle_key o)) last) prev
          ++ drop (16 * i + 16) d0).
Proof.
  set (inter := decBlock (GetBytes (oracle_key o)) last).
  induction n as [|z IH]; intros p dec Hk Hkb Hlast Hlastb Hprev Hp Hdec Hn Hsolved Hd0.
  - cbn [PaddingOracle_bytes]. rewrite Nat.add_0_r. reflexivity.
  - cbn [PaddingOracle_bytes].
    destruct (findPaddingByte_finds o last Hk Hkb Hlast Hlastb z p dec) as (p' & Hfind & Hp');
      [lia|assumption|assumption|intros x Hx; apply Hsolved; lia|].
    fold inter in Hfind. rewrite Hfind. cbn [bind].
    rewrite toByte_small by (unfold is_byte; lia).
    rewrite lxor_cancel_r.
    rewrite (index_lookup _ _ (prev !!! z))
      by (try lia; rewrite Nat2Z.id; apply list_lookup_lookup_total_lt; rewrite Hprev; lia).
    cbn [bind].
    assert (Hxat : xorBytes inter prev !!! z = Z.lxor (inter !!! z) (prev !!! z)).
    { apply xorBytes_lookup_total; [unfold inter; rewrite decBlock_full|rewrite Hprev]; lia. }
    assert (Hxlen : length (xorBytes inter prev) = 16%nat).
    { rewrite xorBytes_length, Hprev. reflexivity. }
    rewrite store_insert.
    2: { rewrite !length_app, length_take, !length_drop, Hxlen. lia. }
    cbn [bind].
    replace (Z.to_nat (Z.of_nat i * 16 + Z.of_nat z)) with (16 * i + z)%nat by lia.
    assert (Hstep : <[(16 * i + z)%nat := Z.lxor (inter !!! z) (prev !!! z)]>
                      (take (16 * i + S z) d0 ++ drop (S z) (xorBytes inter prev)
                         ++ drop (16 * i + 16) d0)
                    = take (16 * i + z) d0 ++ drop z (xorBytes inter prev)
                        ++ drop (16 * i + 16) d0).
    { replace (16 * i + S z)%nat with (S (16 * i + z)) by lia.
      rewrite (take_S_r d0 (16 * i + z) (d0 !!! (16 * i + z)%nat))
        by (apply list_lookup_lookup_total_lt; lia).
      rewrite <- app_assoc.
      rewrite insert_app_r_alt by (rewrite length_take; lia).
      rewrite length_take.
      replace (16 * i + z - (16 * i + z) `min` length d0)%nat with 0%nat by lia.
      cbn [app insert list_insert].
      rewrite (drop_S (xorBytes inter prev) (xorBytes inter prev !!! z) z)
        by (apply list_lookup_lookup_total_lt; lia).
      rewrite Hxat. reflexivity. }
    rewrite Hstep.
    apply IH; try assumption; try lia.
    + unfold full. rewrite length_insert. exact Hdec.
    + intros x Hx. destruct (decide (x = z)) as [->|Hne].
      * apply list_lookup_total_insert_eq. rewrite Hdec. lia.
      * rewrite list_lookup_total_insert_ne by lia. apply Hsolved. lia.
Qed.

Lemma cbcUnchain_length k cs : forall prev, length (cbcUnchain k prev cs) = length cs.
Proof.
  induction cs as [|c cs IH]; intros prev; cbn [cbcUnchain length]; [|rewrite IH];
    reflexivity.
Qed.

Lemma cbcUnchain_lookup k cs : forall prev (j : nat),
  (j < length cs)%nat ->
  cbcUnchain k prev cs !!! j = xorBytes (decBlock k (cs !!! j)) ((prev :: cs) !!! j).
Proof.
  induction cs as [|c cs IH]; intros prev j Hj; [cbn in Hj; lia|].
  destruct j as [|j]; [reflexivity|].
  cbn [cbcUnchain]. change ((?x :: ?l) !!! S j) with (l !!! j).
  rewrite IH by (cbn in Hj; lia). reflexivity.
Qed.

Lemma cbcUnchain_full k cs : forall prev,
  full prev -> Forall full cs -> Forall full (cbcUnchain k prev cs).
Proof.
  induction cs as [|c cs IH]; intros prev Hprev Hcs; cbn [cbcUnchain]; [constructor|].
  apply Forall_cons in Hcs. destruct Hcs as [Hc Hcs]. constructor.
  - unfold full. rewrite xorBytes_length, Hprev. reflexivity.
  - apply IH; assumption.
Qed.

Lemma PaddingOracle_blocks_run o iv cs d0 (i : nat) :
  length (GetBytes (oracle_key o)) = 16%nat -> bytes (GetBytes (oracle_key o)) ->
  full iv -> Forall full cs -> Forall bytes cs ->
  (i <= length cs)%nat -> length d0 = (16 * (length cs + 1))%nat ->
  PaddingOracle_blocks i o (iv :: cs)
    (take (16 * (i + 1)) d0
       ++ concat (drop i (cbcUnchain (GetBytes (oracle_key o)) iv cs)))
  = Ok (take 16 d0 ++ concat (cbcUnchain (GetBytes (oracle_key o)) iv cs)).
Proof.
  intros Hk Hkb Hiv Hfull Hbytes. set (U := cbcUnchain (GetBytes (oracle_key o)) iv cs).
  induction i as [|i IH]; intros Hi Hd0.
  - cbn [PaddingOracle_blocks]. reflexivity.
  - cbn [PaddingOracle_blocks].
    assert (Hlast : (iv :: cs) !! S i = Some (cs !!! i))
      by (change (cs !! i = Some (cs !!! i)); apply list_lookup_lookup_total_lt; lia).
    assert (Hprev : (iv :: cs) !! i = Some ((iv :: cs) !!! i))
      by (apply list_lookup_lookup_total_lt; cbn [length]; lia).
    rewrite (index_lookup _ _ (cs !!! i)) by (try lia; rewrite Nat2Z.id; exact Hlast).
    cbn [bind].
    rewrite (index_lookup _ _ ((iv :: cs) !!! i))
      by (try lia; replace (Z.to_nat (Z.of_nat (S i) - 1)) with i by lia; exact Hprev).
    cbn [bind].
    assert (Hfl : full (cs !!! i)).
    { apply (Forall_lookup_1 full cs i); [assumption|].
      apply list_lookup_lookup_total_lt. lia. }
    assert (Hbl : bytes (cs !!! i)).
    { apply (Forall_lookup_1 bytes cs i); [assumption|].
      apply list_lookup_lookup_total_lt. lia. }
    assert (Hfp : full ((iv :: cs) !!! i)).
    { apply (Forall_lookup_1 full (iv :: cs) i); [constructor; assumption|exact Hprev]. }
    rewrite copyInto_exact by exact Hfp.
    set (d := take (16 * (S i + 1)) d0 ++ concat (drop (S i) U)).
    assert (HU : length U = length cs) by apply cbcUnchain_length.
    assert (HUfull : Forall full U) by (apply cbcUnchain_full; assumption).
    assert (Hdlen : length d = length d0).
    { unfold d. rewrite length_app, length_take, full_concat_length
        by (apply Forall_drop, HUfull).
      rewrite length_drop, HU. lia. }
    assert (Hd : d = take (16 * S i + 16) d
                   ++ drop 16 (xorBytes (decBlock (GetBytes (oracle_key o)) (cs !!! i))
                                 ((iv :: cs) !!! i))
                   ++ drop (16 * S i + 16) d).
    { rewrite (drop_ge (xorBytes _ _)) by (rewrite xorBytes_length, Hfp; reflexivity).
      cbn [app]. symmetry. apply take_drop. }
    rewrite Hd at 1.
    rewrite (PaddingOracle_bytes_run o (S i) ((iv :: cs) !!! i) (cs !!! i) d 16);
      try assumption; try reflexivity; try lia.
    cbn [bind].
    assert (Hres : take (16 * S i) d
                     ++ xorBytes (decBlock (GetBytes (oracle_key o)) (cs !!! i))
                          ((iv :: cs) !!! i)
                     ++ drop (16 * S i + 16) d
                   = take (16 * (i + 1)) d0 ++ concat (drop i U)).
    { rewrite (drop_S U (U !!! i) i) by (apply list_lookup_lookup_total_lt; lia).
      cbn [concat].
      assert (HUi : U !!! i = xorBytes (decBlock (GetBytes (oracle_key o)) (cs !!! i))
                                ((iv :: cs) !!! i)) by (apply cbcUnchain_lookup; lia).
      rewrite HUi.
      unfold d.
      rewrite take_app_le by (rewrite length_take; lia).
      rewrite take_take.
      replace (Nat.min (16 * S i) (16 * (S i + 1))) with (16 * (i + 1))%nat by lia.
      rewrite drop_app_length' by (rewrite length_take; lia).
      reflexivity. }
    rewrite Hres. apply IH; [lia|assumption].
Qed.

Lemma PaddingOracle_run o iv cs :
  length (GetBytes (oracle_key o)) = 16%nat -> bytes (GetBytes (oracle_key o)) ->
  full iv -> Forall full cs -> Forall bytes cs ->
  PaddingOracle o (iv ++ concat cs)
  = Ok (concat (cbcUnchain (GetBytes (oracle_key o)) iv cs)).
Proof.
  intros Hk Hkb Hiv Hfull Hbytes. unfold PaddingOracle.
  rewrite split_app, split_concat_full by assumption.
  cbn [length]. rewrite Nat.sub_succ, Nat.sub_0_r.
  set (d0 := replicate (length (iv ++ concat cs)) 0).
  assert (Hd0 : length d0 = (16 * (length cs + 1))%nat).
  { unfold d0. rewrite length_replicate, length_app, Hiv, full_concat_length by assumption.
    lia. }
  assert (Hstart : d0 = take (16 * (length cs + 1)) d0
                          ++ concat (drop (length cs)
                                       (cbcUnchain (GetBytes (oracle_key o)) iv cs))).
  { rewrite take_ge by lia.
    rewrite drop_ge by (rewrite cbcUnchain_length; lia).
    cbn [concat]. rewrite app_nil_r. reflexivity. }
  rewrite Hstart at 1.
  rewrite PaddingOracle_blocks_run by (assumption || lia).
  cbn [bind]. rewrite length_app, length_take, Hd0.
  rewrite (proj2 (Nat.ltb_ge _ _)) by lia.
  rewrite drop_app_length' by (rewrite length_take; lia). reflexivity.
Qed.

Lemma cbcChain_bytes k blocks : forall prev,
  bytes k -> Forall bytes blocks -> bytes prev -> Forall bytes (cbcChain k prev blocks).
Proof.
  induction blocks as [|b blocks IH]; intros prev Hk Hb Hprev; cbn [cbcChain];
    [constructor|].
  apply Forall_cons in Hb. destruct Hb as [Hb Hbs].
  assert (bytes (encBlock k (xorBytes b prev)))
    by (apply encBlock_bytes; [|apply xorBytes_bytes]; assumption).
  constructor; [assumption|]. apply IH; assumption.
Qed.

(** The attack reads nothing of the oracle but its answers. *)
Lemma findPaddingByte_loop_answers o1 o2 :
  (forall e, sameAnswer (Oracle_Decrypt o1 e) (Oracle_Decrypt o2 e)) ->
  forall n j prev last z,
    findPaddingByte_loop n j o1 prev last z = findPaddingByte_loop n j o2 prev last z.
Proof.
  intros Hsame. induction n as [|n IH]; intros j prev last z; [reflexivity|].
  cbn [findPaddingByte_loop].
  pose proof (Hsame (<[z := toByte j]> prev ++ last)) as H1.
  destruct (Oracle_Decrypt o1 _) as [[]|e1|p1], (Oracle_Decrypt o2 _) as [[]|e2|p2];
    cbn in H1; try contradiction; try (subst; reflexivity); [|apply IH].
  destruct (z =? 15)%nat; [|reflexivity].
  set (q := <[14%nat := _]> _).
  pose proof (Hsame (q ++ last)) as H2.
  destruct (Oracle_Decrypt o1 _) as [[]|e1|p1], (Oracle_Decrypt o2 _) as [[]|e2|p2];
    cbn in H2; try contradiction; try (subst; reflexivity). apply IH.
Qed.

Lemma PaddingOracle_bytes_answers o1 o2 :
  (forall e, sameAnswer (Oracle_Decrypt o1 e) (Oracle_Decrypt o2 e)) ->
  forall n i prev last p dec decrypted,
    PaddingOracle_bytes n o1 i prev last p dec decrypted
    = PaddingOracle_bytes n o2 i prev last p dec decrypted.
Proof.
  intros Hsame. induction n as [|n IH]; intros i prev last p dec decrypted; [reflexivity|].
  cbn [PaddingOracle_bytes]. unfold findPaddingByte.
  rewrite (findPaddingByte_loop_answers o1 o2 Hsame).
  destruct (findPaddingByte_loop _ _ o2 _ _ _) as [[b p']|e|q]; cbn [bind]; try reflexivity.
  destruct (index prev (Z.of_nat n)) as [pz|e|q]; cbn [bind]; try reflexivity.
  destruct (store decrypted _ _) as [d|e|q]; cbn [bind]; try reflexivity.
  apply IH.
Qed.

Lemma PaddingOracle_answers o1 o2 encrypted :
  (forall e, sameAnswer (Oracle_Decrypt o1 e) (Oracle_Decrypt o2 e)) ->
  PaddingOracle o1 encrypted = PaddingOracle o2 encrypted.
Proof.
  intros Hsame. unfold PaddingOracle.
  enough (H : forall i blocks d,
             PaddingOracle_blocks i o1 blocks d = PaddingOracle_blocks i o2 blocks d)
    by (rewrite H; reflexivity).
  induction i as [|i IH]; intros blocks d; [reflexivity|].
  cbn [PaddingOracle_blocks].
  destruct (index blocks (Z.of_nat (S i))) as [last|e|q]; cbn [bind]; try reflexivity.
  destruct (index blocks (Z.of_nat (S i) - 1)) as [prev|e|q]; cbn [bind]; try reflexivity.
  rewrite (PaddingOracle_bytes_answers o1 o2 Hsame).
  destruct (PaddingOracle_bytes _ o2 _ _ _ _ _ _) as [d'|e|q]; cbn [bind]; try reflexivity.
  apply IH.
Qed.

(** C3. For every key and IV and every plaintext that is not empty, the
    attack on the CBC ciphertext (IV first) returns the padded plaintext,
    and removing the padding gives the plaintext. The oracle it queries
    answers only whether CBC decryption succeeded; the extra query with
    byte 14 flipped is part of [findPaddingByte_loop] at position 15. The
    result depends on the oracle through these answers alone: two oracles
    that answer alike lead to the same result. *)
Theorem padding_oracle_attack (a : AES) (iv plaintext : list byte) :
  aes_ok a -> bytes (GetBytes (key a)) ->
  length iv = 16%nat -> bytes iv ->
  plaintext <> [] -> bytes plaintext ->
  (exists c a' blocks,
      Encrypt CBC plaintext iv a = Ok (c, a')
      /\ take 16 c = iv
      /\ createBlocks plaintext = Ok blocks
      /\ PaddingOracle (mkOracle (key a)) c = Ok (join blocks)
      /\ RemovePadding (join blocks) = Ok plaintext)
  /\ (forall o1 o2 encrypted,
        (forall e, sameAnswer (Oracle_Decrypt o1 e) (Oracle_Decrypt o2 e)) ->
        PaddingOracle o1 encrypted = PaddingOracle o2 encrypted).
Proof.
  intros Hok Hkb Hiv Hivb Hpt Hptb. split; [|exact PaddingOracle_answers].
  destruct (createBlocks_run plaintext Hpt)
    as (blocks & n & Hcb & Hfull & Hne & Hn & Hmod & Hcat).
  destruct (encryptCBC_loop_run blocks [] iv a Hok Hfull Hiv) as (a' & Hrun & _).
  assert (Hbb : Forall bytes blocks).
  { apply Forall_concat_inv. rewrite Hcat.
    apply Forall_app_2; [assumption|]. apply replicate_pad_bytes. lia. }
  exists (iv ++ concat (cbcChain (GetBytes (key a)) iv blocks)), a', blocks.
  split.
  { unfold Encrypt. cbn [Z.eqb CBC ECB Pos.eqb]. unfold encryptCBC.
    rewrite Hcb. cbn [bind]. rewrite Hiv. cbn [Nat.eqb negb].
    rewrite Hrun. reflexivity. }
  split; [apply take_app_length'; symmetry; exact Hiv|].
  split; [exact Hcb|]. split.
  - rewrite PaddingOracle_run; cbn [oracle_key]; try assumption.
    + rewrite cbcUnchain_cbcChain by assumption. reflexivity.
    + apply Hok.
    + apply cbcChain_full.
    + apply cbcChain_bytes; assumption.
  - unfold join. rewrite Hcat. apply RemovePadding_padded; assumption.
Qed.

Lemma padding_oracle_attack_witness :
  exists c a' blocks,
    Encrypt CBC fipsPlainB fipsPlainC1
      (mkAES (NewKey fipsKeyC1) 10 0 (replicate 11 (replicate 16 0))) = Ok (c, a')
    /\ take 16 c = fipsPlainC1
    /\ createBlocks fipsPlainB = Ok blocks
    /\ PaddingOracle (mkOracle (NewKey fipsKeyC1)) c = Ok (join blocks)
    /\ RemovePadding (join blocks) = Ok fipsPlainB.
Proof.
  apply (padding_oracle_attack (mkAES (NewKey fipsKeyC1) 10 0 (replicate 11 (replicate 16 0)))
           fipsPlainC1 fipsPlainB).
  - repeat split; reflexivity.
  - apply bytesb_bytes. reflexivity.
  - reflexivity.
  - apply bytesb_bytes. reflexivity.
  - discriminate.
  - apply bytesb_bytes. reflexivity.
Defined.

(** * The repository's tests, run on the embedding *)

(** [TestEncryptBlock], the two decryption cases. *)
Example TestEncryptBlock_decryption :
  (let* a := New (NewKey fipsKeyB) in
   let* (m, _) := DecryptBlock fipsCipherB a in Ok (convertMatrixToArray m)) = Ok fipsPlainB
  /\ (let* a := New (NewKey fipsKeyC1) in
      let* (m, _) := DecryptBlock fipsCipherC1 a in Ok (convertMatrixToArray m)) = Ok fipsPlainC1.
Proof. split; vm_compute; reflexivity. Qed.

(** [TestPadding]. *)
Example TestPadding :
  padding fipsPlainB = fipsPlainB ++ replicate 16 0x10
  /\ padding [0x32; 0x43; 0xf6; 0xa8]
     = [0x32; 0x43; 0xf6; 0xa8; 0x0c; 0x0c; 0x0c; 0x0c; 0x0c; 0x0c; 0x0c; 0x0c; 0x0c; 0x0c; 0x0c; 0x0c].
Proof. split; reflexivity. Qed.

(** [TestRemovePadding]. *)
Example TestRemovePadding :
  RemovePadding (take 15 fipsPlainB ++ [0x01]) = Ok (take 15 fipsPlainB)
  /\ RemovePadding (take 15 fipsPlainB ++ [0x00]) = Err "Invalid padding"
  /\ RemovePadding [0x32; 0x43; 0xf6; 0x06] = Err "Invalid padding".
Proof. repeat split. Qed.

(** [TestEncryptionECB]. *)
Example TestEncryptionECB :
  onTestKey (encryptECB testPlain) = Ok testECB
  /\ onTestKey (decryptECB testECB) = Ok testPlain
  /\ onTestKey (encryptECB testPlain3) = Ok testECB3
  /\ onTestKey (decryptECB testECB3) = Ok testPlain3.
Proof. repeat split; vm_compute; reflexivity. Qed.

(** [TestEncryptionCBC]. *)
Example TestEncryptionCBC :
  onTestKey (encryptCBC testPlain testIV) = Ok testCBC
  /\ onTestKey (decryptCBC (drop 16 testCBC) (take 16 testCBC)) = Ok testPlain
  /\ onTestKey (decryptCBC (drop 16 testCBCBadPadding) (take 16 testCBCBadPadding))
     = Err "Invalid padding"
  /\ onTestKey (encryptCBC testPlain3 testIV) = Ok testCBC3
  /\ onTestKey (decryptCBC (drop 16 testCBC3) (take 16 testCBC3)) = Ok testPlain3.
Proof. repeat split; vm_compute; reflexivity. Qed.

(** * Further properties of the cipher engine *)

Lemma byteRange_is_byte x : x ∈ byteRange -> is_byte x.
Proof.
  unfold byteRange. intros H. apply list_elem_of_fmap in H.
  destruct H as (n & -> & Hn). apply elem_of_seq in Hn. unfold is_byte. lia.
Qed.

(** A boolean property checked on all pairs of bytes holds of every pair. *)
Lemma byte_forall2 (f : Z -> Z -> bool) :
  forallb (fun x => forallb (f x) byteRange) byteRange = true ->
  forall x y, is_byte x -> is_byte y -> f x y = true.
Proof.
  intros H x y Hx Hy.
  pose proof (byte_forall (fun x => forallb (f x) byteRange) H x Hx) as Hrow.
  exact (byte_forall (f x) Hrow y Hy).
Qed.

Lemma gmul_comm a b : is_byte a -> is_byte b -> gmul a b = gmul b a.
Proof.
  intros Ha Hb. apply Z.eqb_eq.
  apply (byte_forall2 (fun a b => gmul a b =? gmul b a)); [|assumption..].
  vm_compute. reflexivity.
Qed.

Lemma gmul_1_l a : is_byte a -> gmul 1 a = a.
Proof. intros Ha. byte_eq a. Qed.

Lemma gmul_0_r a : is_byte a -> gmul a 0 = 0.
Proof. intros Ha. byte_eq a. Qed.

Lemma gmul_inverse a :
  is_byte a -> a <> 0 -> exists x, is_byte x /\ gmul a x = 1.
Proof.
  intros Ha Hne.
  pose proof (byte_forall
                (fun a => (a =? 0) || existsb (fun x => gmul a x =? 1) byteRange)) as H.
  specialize (H ltac:(vm_compute; reflexivity) a Ha).
  apply orb_true_iff in H. destruct H as [H|H]; [lia|].
  apply existsb_exists in H. destruct H as (x & Hin & Hx).
  exists x. split; [apply byteRange_is_byte, list_elem_of_In, Hin|lia].
Qed.

(** A number between [2^n] and [2^(n+1)] is [2^n] xor the rest. *)
Lemma split_top_bit n x :
  0 <= n -> 2 ^ n <= x < 2 ^ (n + 1) -> x = Z.lxor (2 ^ n) (x - 2 ^ n).
Proof.
  intros Hn Hx.
  assert (Hlow : 0 <= x - 2 ^ n < 2 ^ n) by (rewrite Z.pow_add_r in Hx by lia; lia).
  rewrite <- Z.add_nocarry_lxor; [lia|].
  apply Z.bits_inj'. intros i Hi. rewrite Z.land_spec, Z.bits_0.
  destruct (Z.eq_dec i n) as [->|Hne].
  - assert (Z.testbit (x - 2 ^ n) n = false) as ->; [|apply andb_false_r].
    destruct (Z.eq_dec (x - 2 ^ n) 0) as [->|H0]; [apply Z.bits_0|].
    apply Z.bits_above_log2; [lia|]. apply Z.log2_lt_pow2; lia.
  - rewrite Z.pow2_bits_false by lia. reflexivity.
Qed.

(** Two functions that are xor-additive on bytes and agree on the eight
    powers of two agree on every byte. *)
Lemma additive_ext (f g : Z -> Z) :
  (forall x y, is_byte x -> is_byte y -> f (Z.lxor x y) = Z.lxor (f x) (f y)) ->
  (forall x y, is_byte x -> is_byte y -> g (Z.lxor x y) = Z.lxor (g x) (g y)) ->
  (forall n, 0 <= n < 8 -> f (2 ^ n) = g (2 ^ n)) ->
  forall x, is_byte x -> f x = g x.
Proof.
  intros Hf Hg Hbasis.
  assert (Hz : is_byte 0) by (unfold is_byte; lia).
  assert (H0 : f 0 = g 0).
  { pose proof (Hf 0 0 Hz Hz) as Hf0. pose proof (Hg 0 0 Hz Hz) as Hg0.
    rewrite Z.lxor_0_r in Hf0, Hg0.
    assert (f 0 = 0) by (rewrite Hf0; apply Z.lxor_nilpotent).
    assert (g 0 = 0) by (rewrite Hg0; apply Z.lxor_nilpotent).
    congruence. }
  assert (Hall : forall n : nat, (n <= 8)%nat ->
                   forall x, 0 <= x < 2 ^ Z.of_nat n -> f x = g x).
  { induction n as [|n IH]; intros Hn x Hx.
    - change (2 ^ Z.of_nat 0) with 1 in Hx. assert (x = 0) as -> by lia. exact H0.
    - destruct (Z.lt_ge_cases x (2 ^ Z.of_nat n)) as [Hlt|Hge];
        [apply IH; lia|].
      rewrite Nat2Z.inj_succ, <- Z.add_1_r in Hx.
      assert (Hpow : 2 ^ Z.of_nat n <= 128).
      { change 128 with (2 ^ 7). apply Z.pow_le_mono_r; lia. }
      assert (Hrest : 0 <= x - 2 ^ Z.of_nat n < 2 ^ Z.of_nat n)
        by (rewrite Z.pow_add_r in Hx by lia; lia).
      rewrite (split_top_bit (Z.of_nat n) x) by lia.
      rewrite Hf, Hg, Hbasis by (unfold is_byte; lia). f_equal.
      apply IH; [lia|exact Hrest]. }
  intros x Hx. apply (Hall 8%nat); [lia|exact Hx].
Qed.

Lemma gmul_lxor_l x y c :
  is_byte x -> is_byte y -> is_byte c ->
  gmul (Z.lxor x y) c = Z.lxor (gmul x c) (gmul y c).
Proof.
  intros Hx Hy Hc.
  rewrite (gmul_comm (Z.lxor x y) c) by (try apply lxor_is_byte; assumption).
  rewrite gmul_lxor, (gmul_comm c x), (gmul_comm c y) by assumption. reflexivity.
Qed.

Lemma power_of_two_cases n :
  0 <= n < 8 -> In (2 ^ n) [1; 2; 4; 8; 16; 32; 64; 128].
Proof.
  intros Hn.
  assert (Hcases : n = 0 \/ n = 1 \/ n = 2 \/ n = 3 \/ n = 4 \/ n = 5 \/ n = 6 \/ n = 7)
    by lia.
  destruct Hcases as [->|[->|[->|[->|[->|[->|[->| ->]]]]]]]; cbn; tauto.
Qed.

Lemma gmul_assoc a b c :
  is_byte a -> is_byte b -> is_byte c -> gmul (gmul a b) c = gmul a (gmul b c).
Proof.
  intros Ha Hb Hc.
  apply (additive_ext (fun c => gmul (gmul a b) c) (fun c => gmul a (gmul b c)));
    [intros x y _ _; apply gmul_lxor
    |intros x y _ _; rewrite !gmul_lxor; reflexivity| |exact Hc].
  intros n Hn.
  assert (Hcn : is_byte (2 ^ n)).
  { pose proof (power_of_two_cases n Hn) as Hin. cbn in Hin. unfold is_byte. lia. }
  revert b Hb.
  apply (additive_ext (fun b => gmul (gmul a b) (2 ^ n)) (fun b => gmul a (gmul b (2 ^ n)))).
  - intros x y Hx Hy. rewrite gmul_lxor.
    apply gmul_lxor_l; try apply gmul_is_byte; assumption.
  - intros x y Hx Hy. rewrite gmul_lxor_l by assumption. apply gmul_lxor.
  - intros m Hm. apply Z.eqb_eq.
    pose proof (byte_forall
      (fun a => forallb (fun b => forallb (fun c => gmul (gmul a b) c =? gmul a (gmul b c))
                                    [1; 2; 4; 8; 16; 32; 64; 128])
                  [1; 2; 4; 8; 16; 32; 64; 128])) as H.
    specialize (H ltac:(vm_compute; reflexivity) a Ha).
    rewrite forallb_forall in H. specialize (H (2 ^ m) (power_of_two_cases m Hm)).
    rewrite forallb_forall in H. exact (H (2 ^ n) (power_of_two_cases n Hn)).
Qed.

(** X1. [gmul] is the multiplication of a field on the bytes whose addition
    is xor: it stays within the bytes, is commutative and associative, has
    1 as unit and 0 as absorbing element, distributes over xor, and every
    byte other than 0 has an inverse. *)
Theorem gmul_field (a b c : byte) :
  is_byte a -> is_byte b -> is_byte c ->
  is_byte (gmul a b)
  /\ gmul a b = gmul b a
  /\ gmul (gmul a b) c = gmul a (gmul b c)
  /\ gmul 1 a = a
  /\ gmul a 0 = 0
  /\ gmul a (Z.lxor b c) = Z.lxor (gmul a b) (gmul a c)
  /\ (a <> 0 -> exists x, is_byte x /\ gmul a x = 1).
Proof.
  intros Ha Hb Hc.
  split; [apply gmul_is_byte, Ha|].
  split; [apply gmul_comm; assumption|].
  split; [apply gmul_assoc; assumption|].
  split; [apply gmul_1_l, Ha|].
  split; [apply gmul_0_r, Ha|].
  split; [apply gmul_lxor|].
  apply gmul_inverse, Ha.
Qed.

Lemma gmul_field_witness : gmul 0x57 0x83 = gmul 0x83 0x57.
Proof.
  apply (gmul_field 0x57 0x83 0x13); apply is_byte_const; reflexivity.
Defined.

Lemma mixColumns_linear (s k : matrix) :
  mixColumns (xorMatrix s k) = xorMatrix (mixColumns s) (mixColumns k).
Proof.
  destruct s as [[? ? ? ?] [? ? ? ?] [? ? ? ?] [? ? ? ?]].
  destruct k as [[? ? ? ?] [? ? ? ?] [? ? ? ?] [? ? ? ?]].
  unfold mixColumns, xorMatrix, build. cbn -[gmul Z.lxor].
  rewrite !gmul_lxor. f_equal; f_equal; xor_solve.
Qed.

(** Twice [mixColumns] is the product with the circulant matrix of 5, 0,
    4, 0: each group of terms in one input byte is checked on all bytes. *)
Ltac mix2_group G :=
  match G with
  | context [gmul _ ?x] =>
      is_var x;
      first [ replace G with 0 by (symmetry; byte_eq x)
            | replace G with (gmul 5 x) by (symmetry; byte_eq x)
            | replace G with (gmul 4 x) by (symmetry; byte_eq x) ]
  end.

Ltac mix2_groups :=
  rewrite ?gmul_lxor, lxor_transpose;
  match goal with
  | |- Z.lxor (Z.lxor (Z.lxor ?A ?B) ?C) ?D = _ =>
      mix2_group A; mix2_group B; mix2_group C; mix2_group D
  end;
  rewrite ?Z.lxor_0_r, ?Z.lxor_0_l; first [reflexivity | apply Z.lxor_comm].

Lemma mixColumns_twice s :
  matrix_bytes s ->
  mixColumns (mixColumns s)
  = build (fun i c => Z.lxor (gmul 5 (at_ s i c)) (gmul 4 (at_ s ((i + 2) mod 4) c))).
Proof.
  intros H. matrix_entries s H.
  unfold mixColumns, build. cbn -[gmul Z.lxor].
  f_equal; f_equal; mix2_groups.
Qed.

Ltac mix4_entry :=
  rewrite !gmul_lxor;
  match goal with
  | |- Z.lxor (Z.lxor ?A ?B) (Z.lxor ?C ?D) = ?x =>
      transitivity (Z.lxor (Z.lxor A D) (Z.lxor B C)); [xor_solve|];
      replace (Z.lxor A D) with x by (symmetry; byte_eq x);
      match B with
      | context [gmul _ ?y] =>
          is_var y; replace (Z.lxor B C) with 0 by (symmetry; byte_eq y)
      end;
      apply Z.lxor_0_r
  end.

Lemma mixColumns4 s :
  matrix_bytes s -> mixColumns (mixColumns (mixColumns (mixColumns s))) = s.
Proof.
  intros H.
  rewrite (mixColumns_twice (mixColumns (mixColumns s)))
    by (apply mixColumns_bytes, mixColumns_bytes, H).
  rewrite (mixColumns_twice s H).
  matrix_entries s H.
  unfold build. cbn -[gmul Z.lxor].
  f_equal; f_equal; mix4_entry.
Qed.

(** X2. [mixColumns] is linear for xor: mixing the xor of two states gives
    the xor of the mixed states, so it commutes with [addRoundKey] up to
    mixing the round key. *)
Theorem mixColumns_xorMatrix (s k : matrix) :
  mixColumns (xorMatrix s k) = xorMatrix (mixColumns s) (mixColumns k)
  /\ mixColumns (addRoundKey s k) = addRoundKey (mixColumns s) (mixColumns k).
Proof. split; apply mixColumns_linear. Qed.

(** X23. [mixColumns] has order four: four applications give every state
    of bytes back. So [mixColumns] is a bijection on the states, and three
    applications undo one. *)
Theorem mixColumns_order_four (s t : matrix) :
  matrix_bytes s -> matrix_bytes t ->
  mixColumns (mixColumns (mixColumns (mixColumns s))) = s
  /\ matrix_bytes (mixColumns s)
  /\ (mixColumns s = mixColumns t -> s = t).
Proof.
  intros Hs Ht. split; [apply mixColumns4, Hs|]. split; [apply mixColumns_bytes, Hs|].
  intros E. rewrite <- (mixColumns4 s Hs), <- (mixColumns4 t Ht), E. reflexivity.
Qed.

Lemma mixColumns_order_four_witness :
  mixColumns (mixColumns (mixColumns (mixColumns (convertArrayToMatrix fipsPlainB))))
  = convertArrayToMatrix fipsPlainB.
Proof.
  assert (H : matrix_bytes (convertArrayToMatrix fipsPlainB))
    by (apply convertArrayToMatrix_bytes, bytesb_bytes; reflexivity).
  exact (proj1 (mixColumns_order_four _ _ H H)).
Defined.

(** X3. [shiftRows] and [invShiftRows] undo each other, and [shiftRows]
    commutes with the byte-wise steps [subMatrix] and [addRoundKey]. *)
Theorem shiftRows_laws (s k : matrix) :
  invShiftRows (shiftRows s) = s
  /\ shiftRows (invShiftRows s) = s
  /\ shiftRows (subMatrix s) = subMatrix (shiftRows s)
  /\ shiftRows (addRoundKey s k) = addRoundKey (shiftRows s) (shiftRows k).
Proof.
  destruct s as [[? ? ? ?] [? ? ? ?] [? ? ? ?] [? ? ? ?]].
  destruct k as [[? ? ? ?] [? ? ? ?] [? ? ? ?] [? ? ? ?]].
  repeat split.
Qed.

(** X4. [addRoundKey] with the same round key twice gives the state back,
    and the order of state and key does not matter. *)
Theorem addRoundKey_involutive (s k : matrix) :
  addRoundKey (addRoundKey s k) k = s /\ addRoundKey s k = addRoundKey k s.
Proof.
  split; [apply xorMatrix_involutive|].
  destruct s as [[? ? ? ?] [? ? ? ?] [? ? ? ?] [? ? ? ?]].
  destruct k as [[? ? ? ?] [? ? ? ?] [? ? ? ?] [? ? ? ?]].
  unfold addRoundKey, xorMatrix, build. cbn -[Z.lxor].
  f_equal; f_equal; apply Z.lxor_comm.
Qed.

(** X5. The state is the block laid out column by column: entry (r, c) of
    [convertArrayToMatrix b] is byte [4 * c + r] of [b], and the two
    conversions undo each other. *)
Theorem state_layout (b : list byte) (m : matrix) :
  length b = 16%nat ->
  (forall r c, (r < 4)%nat -> (c < 4)%nat ->
     at_ (convertArrayToMatrix b) r c = b !!! (4 * c + r)%nat)
  /\ convertMatrixToArray (convertArrayToMatrix b) = b
  /\ convertArrayToMatrix (convertMatrixToArray m) = m
  /\ length (convertMatrixToArray m) = 16%nat.
Proof.
  intros Hb. split; [|split; [|split]].
  - intros r c Hr Hc.
    destruct r as [|[|[|[|r]]]]; try lia; destruct c as [|[|[|[|c]]]]; try lia; reflexivity.
  - apply convertMatrixToArray_convertArrayToMatrix, Hb.
  - apply convertArrayToMatrix_convertMatrixToArray.
  - reflexivity.
Qed.

Lemma state_layout_witness :
  convertMatrixToArray (convertArrayToMatrix fipsPlainB) = fipsPlainB.
Proof.
  apply (state_layout fipsPlainB (convertArrayToMatrix fipsPlainB)). reflexivity.
Defined.

(** * Further properties of blocks and padding *)

Lemma split_lookup l : forall (i : nat) b,
  split l !! i = Some b <-> (16 * i < length l)%nat /\ b = blockAt i l.
Proof.
  induction l as [|l Hne IH] using blocks_ind; intros i b.
  - rewrite split_nil. cbn. split; [discriminate|]. intros [H _]. lia.
  - rewrite (split_cons l Hne).
    assert (Hlen : (0 < length l)%nat) by (destruct l; [congruence|cbn; lia]).
    destruct i as [|i].
    + cbn [lookup list_lookup]. unfold blockAt. cbn [Nat.mul drop].
      split.
      * intros [= <-]. split; [lia|reflexivity].
      * intros [_ ->]. reflexivity.
    + change ((take 16 l :: split (drop 16 l)) !! S i) with (split (drop 16 l) !! i).
      rewrite IH. rewrite length_drop. unfold blockAt. rewrite drop_drop.
      replace (16 + 16 * i)%nat with (16 * S i)%nat by lia.
      split; intros [H ->]; (split; [lia|reflexivity]).
Qed.

Lemma split_count l :
  (length l <= 16 * length (split l) < length l + 16)%nat.
Proof.
  induction l as [|l Hne IH] using blocks_ind.
  - rewrite split_nil. cbn. lia.
  - rewrite (split_cons l Hne). cbn [length].
    assert (Hlen : (0 < length l)%nat) by (destruct l; [congruence|cbn; lia]).
    rewrite length_drop in IH. lia.
Qed.

Lemma blockAt_length i l :
  length (blockAt i l) = Nat.min 16 (length l - 16 * i).
Proof. unfold blockAt. rewrite length_take, length_drop. reflexivity. Qed.

(** X6. [split] cuts a byte slice into consecutive blocks: block [i] is
    [l[16*i : 16*i+16]] cut at the end of [l], there are as many blocks as
    it takes to cover [l], no block is empty, only the last one can be
    shorter than 16 bytes, and [join] puts the slice back together. *)
Theorem split_blocks (l : list byte) :
  join (split l) = l
  /\ (length l <= 16 * length (split l) < length l + 16)%nat
  /\ (forall (i : nat) b,
        split l !! i = Some b <-> (16 * i < length l)%nat /\ b = blockAt i l)
  /\ (forall (i : nat) b,
        split l !! i = Some b ->
        (0 < length b <= 16)%nat
        /\ ((S i < length (split l))%nat -> length b = 16%nat)).
Proof.
  split; [apply join_split|]. split; [apply split_count|].
  split; [apply split_lookup|].
  intros i b Hb. apply split_lookup in Hb as Hb'. destruct Hb' as [Hi ->].
  rewrite blockAt_length. split; [lia|].
  intros Hnext. pose proof (split_count l). lia.
Qed.

(** ** The padding of the library and the reference padding of the tests *)

Lemma pad_amount (len : nat) :
  let n := Z.to_nat (16 - Z.rem (Z.of_nat len) 16) in
  (1 <= n <= 16)%nat /\ ((len + n) mod 16 = 0)%nat
  /\ 16 - Z.rem (Z.of_nat len) 16 = Z.of_nat n.
Proof.
  intros n. subst n. rewrite Z.rem_mod_nonneg by lia.
  pose proof (Z.mod_pos_bound (Z.of_nat len) 16 ltac:(lia)) as Hb.
  split; [lia|]. split; [|lia].
  apply Nat2Z.inj. rewrite Nat2Z.inj_mod, Nat2Z.inj_add, Z2Nat.id by lia.
  change (Z.of_nat 16) with 16. change (Z.of_nat 0) with 0.
  clear Hb. Z.div_mod_to_equations. lia.
Qed.

Lemma pad_amount_unique (len n m : nat) :
  (1 <= n <= 16)%nat -> (1 <= m <= 16)%nat ->
  ((len + n) mod 16 = 0)%nat -> ((len + m) mod 16 = 0)%nat -> n = m.
Proof.
  intros Hn Hm H1 H2.
  pose proof (Nat.div_mod_eq (len + n) 16) as E1.
  pose proof (Nat.div_mod_eq (len + m) 16) as E2.
  rewrite H1 in E1. rewrite H2 in E2. lia.
Qed.

Lemma pad_run src :
  exists n : nat,
    (1 <= n <= 16)%nat /\ ((length src + n) mod 16 = 0)%nat
    /\ pad src 16 = Ok (src ++ replicate n (Z.of_nat n)).
Proof.
  destruct (pad_amount (length src)) as (Hn & Hmod & Heq).
  exists (Z.to_nat (16 - Z.rem (Z.of_nat (length src)) 16)).
  split; [exact Hn|]. split; [exact Hmod|].
  unfold pad. cbn [Z.eqb].
  destruct (16 - Z.rem (Z.of_nat (length src)) 16 <? 0) eqn:E.
  - apply Z.ltb_lt in E. lia.
  - rewrite <- Heq. rewrite toByte_small; [reflexivity|]. unfold is_byte. lia.
Qed.

Lemma Z_to_nat_sub_nat (a b : nat) : Z.to_nat (Z.of_nat a - Z.of_nat b) = (a - b)%nat.
Proof. lia. Qed.

Lemma unpad_padded src (n : nat) :
  (1 <= n <= 16)%nat -> unpad (src ++ replicate n (Z.of_nat n)) = Ok src.
Proof.
  intros Hn. unfold unpad.
  rewrite (index_lookup _ _ (Z.of_nat n)).
  - cbn [bind]. rewrite length_app, length_replicate.
    destruct (Z.of_nat n >? Z.of_nat (length src + n)) eqn:E.
    + apply Z.gtb_lt in E. lia.
    + rewrite Z_to_nat_sub_nat.
      replace (length src + n - n)%nat with (length src) by lia.
      rewrite take_app_length. reflexivity.
  - rewrite length_app, length_replicate. lia.
  - rewrite length_app, length_replicate.
    rewrite lookup_app_r by lia.
    apply lookup_replicate_2. lia.
Qed.

(** X7. The library pads as the reference [pad] of the end-to-end tests
    does: [createBlocks] returns the blocks of [pad(src, 16)], and both
    [RemovePadding] and the reference [unpad] give the plaintext back. An
    empty plaintext is padded by [pad] to one block, from which
    [RemovePadding] returns the empty plaintext, although [createBlocks]
    cannot pad it. *)
Theorem createBlocks_pad (src : list byte) :
  exists padded,
    pad src 16 = Ok padded
    /\ (length padded mod 16 = 0)%nat
    /\ (length src < length padded <= length src + 16)%nat
    /\ RemovePadding padded = Ok src
    /\ unpad padded = Ok src
    /\ (src <> [] -> createBlocks src = Ok (split padded)).
Proof.
  destruct (pad_run src) as (n & Hn & Hmod & Hpad).
  exists (src ++ replicate n (Z.of_nat n)).
  split; [exact Hpad|].
  rewrite length_app, length_replicate.
  split; [exact Hmod|]. split; [lia|].
  split; [apply RemovePadding_padded; assumption|].
  split; [apply unpad_padded; assumption|].
  intros Hne.
  destruct (createBlocks_run src Hne) as (blocks & m & Hcb & Hfull & _ & Hm & Hmmod & Hcat).
  rewrite Hcb. f_equal.
  rewrite (pad_amount_unique (length src) n m Hn Hm Hmod Hmmod).
  rewrite <- Hcat. symmetry. apply split_concat_full. exact Hfull.
Qed.

Lemma RemovePadding_nil : RemovePadding [] = Panic IndexOutOfRange.
Proof. reflexivity. Qed.

Lemma last_lookup_snoc (init : list (list byte)) (last : list byte) :
  (0 < length last)%nat ->
  (concat init ++ last) !!! (length (concat init ++ last) - 1)%nat
  = last !!! (length last - 1)%nat.
Proof.
  intros H. rewrite length_app.
  rewrite lookup_total_app_r by lia. f_equal. lia.
Qed.

(** What [RemovePadding] returns for a slice that is not empty, in terms
    of its last byte [p] and of its last block. *)
Lemma RemovePadding_cases b :
  b <> [] ->
  exists init last,
    split b = init ++ [last] /\ b = concat init ++ last
    /\ (0 < length last <= 16)%nat
    /\ let p := b !!! (length b - 1)%nat in
       (RemovePadding b = Err "Invalid padding"
        \/ (RemovePadding b
            = Ok (concat init ++ take (Z.to_nat (Z.of_nat (length last) - p)) last)
            /\ p <> 0 /\ p <= Z.of_nat (length last)
            /\ forall j : nat,
                 (Z.to_nat (Z.of_nat (length last) - p) <= j < length last)%nat ->
                 last !!! j = p)).
Proof.
  intros Hne.
  destruct (split_snoc b Hne) as (init & last & Hsplit & Hfull & Hlast & Hb).
  exists init, last. split; [exact Hsplit|]. split; [exact Hb|]. split; [exact Hlast|].
  intros p.
  assert (Hp : p = last !!! (length last - 1)%nat).
  { subst p. rewrite Hb at 1 2. apply last_lookup_snoc. lia. }
  rewrite (RemovePadding_blocks b init last Hsplit Hb) by lia.
  cbv zeta. rewrite <- Hp.
  destruct ((p =? 0) || (p >? Z.of_nat (length last))) eqn:E; [left; reflexivity|].
  apply orb_false_iff in E. destruct E as [E1 E2].
  apply Z.eqb_neq in E1.
  assert (E2' : p <= Z.of_nat (length last)).
  { destruct (Z.gtb_spec p (Z.of_nat (length last))); [discriminate|lia]. }
  destruct (RemovePadding_loop_cases
              (length last - Z.to_nat (Z.of_nat (length last) - p))
              (Z.to_nat (Z.of_nat (length last) - p)) last p)
    as [[Hok Hall]|[Herr _]].
  - right. rewrite Hok. cbn [bind]. split; [reflexivity|].
    split; [exact E1|]. split; [exact E2'|].
    intros j Hj. apply Hall. lia.
  - left. rewrite Herr. reflexivity.
Qed.

(** X8. [RemovePadding] is stricter than the reference [unpad] of the
    tests: whatever [RemovePadding] accepts, [unpad] accepts with the same
    result, while a slice that ends in a zero byte is rejected by
    [RemovePadding] and returned whole by [unpad]. *)
Theorem RemovePadding_stricter_than_unpad (b : list byte) :
  (forall out, RemovePadding b = Ok out -> unpad b = Ok out)
  /\ (b <> [] -> b !!! (length b - 1)%nat = 0 ->
      RemovePadding b = Err "Invalid padding" /\ unpad b = Ok b).
Proof.
  destruct (decide (b = [])) as [->|Hne].
  { split; [intros out; rewrite RemovePadding_nil; discriminate|congruence]. }
  assert (Hlen : (0 < length b)%nat) by (destruct b; [congruence|cbn; lia]).
  assert (Hidx : index b (Z.of_nat (length b) - 1) = Ok (b !!! (length b - 1)%nat)).
  { apply index_lookup; [lia|].
    replace (Z.to_nat (Z.of_nat (length b) - 1)) with (length b - 1)%nat by lia.
    apply list_lookup_lookup_total_lt. lia. }
  destruct (RemovePadding_cases b Hne) as (init & last & Hsplit & Hb & Hlast & Hcases).
  cbv zeta in Hcases.
  split.
  - intros out Hout.
    destruct Hcases as [Herr|(Hok & Hp0 & Hple & _)]; [congruence|].
    rewrite Hok in Hout. injection Hout as <-.
    unfold unpad. rewrite Hidx. cbn [bind].
    set (p := b !!! (length b - 1)%nat) in *.
    assert (Hlb : length b = (length (concat init) + length last)%nat).
    { rewrite Hb at 1. apply length_app. }
    destruct (p >? Z.of_nat (length b)) eqn:E.
    { apply Z.gtb_lt in E. lia. }
    f_equal. rewrite Hb at 2. rewrite take_app.
    rewrite take_ge by lia. f_equal. f_equal. lia.
  - intros _ Hzero. split.
    + destruct Hcases as [Herr|(_ & Hp0 & _)]; [exact Herr|congruence].
    + unfold unpad. rewrite Hidx, Hzero. cbn [bind].
      destruct (0 >? Z.of_nat (length b)) eqn:E.
      { apply Z.gtb_lt in E. lia. }
      rewrite take_ge by lia. reflexivity.
Qed.

Lemma RemovePadding_stricter_than_unpad_witness :
  RemovePadding [0x41; 0x42; 0x00] = Err "Invalid padding"
  /\ unpad [0x41; 0x42; 0x00] = Ok [0x41; 0x42; 0x00].
Proof.
  apply (RemovePadding_stricter_than_unpad [0x41; 0x42; 0x00]);
    [discriminate|reflexivity].
Defined.

Lemma drop_replicate_tail (l : list byte) (k : nat) (p : byte) :
  (k <= length l)%nat ->
  (forall j : nat, (k <= j < length l)%nat -> l !!! j = p) ->
  l = take k l ++ replicate (length l - k) p.
Proof.
  intros Hk H. rewrite <- (take_drop k l) at 1. f_equal.
  symmetry. apply replicate_as_Forall. split; [apply length_drop|].
  apply Forall_lookup_2. intros i x Hix.
  rewrite lookup_drop in Hix.
  assert (Hlt : (k + i < length l)%nat) by (apply lookup_lt_is_Some; eauto).
  rewrite <- (H (k + i)%nat) by lia.
  apply list_lookup_total_correct in Hix. congruence.
Qed.

(** X9. [RemovePadding] on any slice of bytes: the empty slice stops it
    with an index out of range, and any other slice is either rejected
    with "Invalid padding" or it is the returned bytes followed by [n]
    bytes of value [n], for some [n] from 1 to 16. *)
Theorem RemovePadding_shape (b : list byte) :
  bytes b ->
  (b = [] -> RemovePadding b = Panic IndexOutOfRange)
  /\ (b <> [] ->
      RemovePadding b = Err "Invalid padding"
      \/ exists out (n : nat),
           RemovePadding b = Ok out /\ (1 <= n <= 16)%nat
           /\ b = out ++ replicate n (Z.of_nat n)).
Proof.
  intros Hbytes. split; [intros ->; reflexivity|]. intros Hne.
  destruct (RemovePadding_cases b Hne) as (init & last & Hsplit & Hb & Hlast & Hcases).
  cbv zeta in Hcases.
  destruct Hcases as [Herr|(Hok & Hp0 & Hple & Hall)]; [left; exact Herr|].
  right.
  set (p := b !!! (length b - 1)%nat) in *.
  assert (Hpb : is_byte p) by (apply lookup_total_bytes, Hbytes).
  unfold is_byte in Hpb.
  exists (concat init ++ take (Z.to_nat (Z.of_nat (length last) - p)) last), (Z.to_nat p).
  split; [exact Hok|]. split; [lia|].
  rewrite Z2Nat.id by lia.
  rewrite <- app_assoc. rewrite Hb at 1. f_equal.
  replace (Z.to_nat p) with (length last - Z.to_nat (Z.of_nat (length last) - p))%nat by lia.
  apply drop_replicate_tail; [lia|exact Hall].
Qed.

Lemma RemovePadding_shape_witness :
  RemovePadding [] = Panic IndexOutOfRange.
Proof.
  apply (RemovePadding_shape []); [constructor|reflexivity].
Defined.

(** * Further properties of the modes of operation *)

Lemma padded_length (len n : nat) :
  (1 <= n <= 16)%nat -> ((len + n) mod 16 = 0)%nat ->
  (len + n = 16 * (len / 16 + 1))%nat.
Proof.
  intros Hn Hmod.
  pose proof (Nat.div_mod_eq (len + n) 16) as E1.
  pose proof (Nat.div_mod_eq len 16) as E2.
  pose proof (Nat.mod_upper_bound len 16 ltac:(lia)) as Hb.
  rewrite Hmod in E1. lia.
Qed.

Lemma fmap_encBlock_full k (blocks : list (list byte)) : Forall full (encBlock k <$> blocks).
Proof. apply Forall_fmap, Forall_forall. intros b _. reflexivity. Qed.

Lemma fmap_decBlock_full k (blocks : list (list byte)) : Forall full (decBlock k <$> blocks).
Proof. apply Forall_fmap, Forall_forall. intros b _. reflexivity. Qed.

Lemma ctrStream_concat_length k counter pt :
  length (concat (ctrStream k counter (split pt))) = length pt.
Proof.
  rewrite (Forall2_same_length_concat _ _
             (ctrStream_lengths k (split pt) counter (split_blocks_le pt))).
  fold (join (split pt)). rewrite join_split. reflexivity.
Qed.

(** X10. The length of the ciphertext: ECB returns the plaintext length
    rounded up to the next multiple of 16 that is larger (one to sixteen
    bytes of padding), CBC returns 16 bytes more (the IV in front), and CTR
    returns the plaintext length plus the 16 bytes of the nonce. *)
Theorem ciphertext_length (a : AES) (plaintext rand : list byte) :
  aes_ok a -> plaintext <> [] -> length rand = 16%nat ->
  exists e c n a1 a2 a3,
    Encrypt ECB plaintext rand a = Ok (e, a1)
    /\ Encrypt CBC plaintext rand a = Ok (c, a2)
    /\ Encrypt CTR plaintext rand a = Ok (n, a3)
    /\ length e = (16 * (length plaintext / 16 + 1))%nat
    /\ length c = (16 + 16 * (length plaintext / 16 + 1))%nat
    /\ length n = (16 + length plaintext)%nat.
Proof.
  intros Hok Hpt Hrand.
  destruct (encryptECB_run plaintext a Hok Hpt)
    as (blocks & n & a1 & Hrun1 & _ & Hfull1 & Hn1 & Hmod1 & Hcat1).
  destruct (encryptCBC_run plaintext rand a Hok Hpt Hrand)
    as (blocks2 & n2 & a2 & Hrun2 & _ & Hfull2 & _ & Hn2 & Hmod2 & Hcat2).
  destruct (encryptCTR_run plaintext rand a Hok Hrand) as (a3 & Hrun3 & _).
  eexists _, _, _, a1, a2, a3.
  split; [exact Hrun1|]. split; [exact Hrun2|]. split; [exact Hrun3|].
  split; [|split].
  - rewrite (full_concat_length _ (fmap_encBlock_full _ _)), length_fmap.
    rewrite <- (full_concat_length _ Hfull1), Hcat1, length_app, length_replicate.
    apply padded_length; assumption.
  - rewrite length_app, Hrand.
    rewrite (full_concat_length _ (cbcChain_full _ _ _)), cbcChain_length.
    rewrite <- (full_concat_length _ Hfull2), Hcat2, length_app, length_replicate.
    f_equal. apply padded_length; assumption.
  - rewrite length_app, Hrand, ctrStream_concat_length. reflexivity.
Qed.

Lemma ciphertext_length_witness :
  exists e c n a1 a2 a3,
    Encrypt ECB testPlain testIV (mkAES (NewKey testKey) 10 0 (replicate 11 (replicate 16 0)))
    = Ok (e, a1)
    /\ Encrypt CBC testPlain testIV (mkAES (NewKey testKey) 10 0 (replicate 11 (replicate 16 0)))
       = Ok (c, a2)
    /\ Encrypt CTR testPlain testIV (mkAES (NewKey testKey) 10 0 (replicate 11 (replicate 16 0)))
       = Ok (n, a3)
    /\ length e = (16 * (length testPlain / 16 + 1))%nat
    /\ length c = (16 + 16 * (length testPlain / 16 + 1))%nat
    /\ length n = (16 + length testPlain)%nat.
Proof.
  apply (ciphertext_length (mkAES (NewKey testKey) 10 0 (replicate 11 (replicate 16 0)))
           testPlain testIV).
  - repeat split; reflexivity.
  - discriminate.
  - reflexivity.
Defined.

(** X11. In CTR mode [Encrypt] accepts the empty plaintext, whatever the
    cipher object, and returns the nonce alone; [Decrypt] rejects that
    ciphertext as too short. *)
Theorem CTR_empty_plaintext (rand : list byte) (a a2 : AES) :
  Encrypt CTR [] rand a = Ok (rand, a)
  /\ ((length rand <= 16)%nat ->
      Decrypt CTR rand a2
      = Err "Invalid encrypted text. Must have at least 2 blocks: nonce + encrypted block").
Proof.
  split.
  - unfold Encrypt. cbn [Z.eqb CTR CBC ECB Pos.eqb]. unfold encryptCTR.
    rewrite split_nil, copyInto_exact by reflexivity. reflexivity.
  - intros Hlen. unfold Decrypt. cbn [Z.eqb CTR CBC ECB Pos.eqb].
    rewrite (proj2 (Nat.leb_le _ _)) by exact Hlen. reflexivity.
Qed.

Lemma aligned_drop_full (encrypted : list byte) :
  (length encrypted mod 16 = 0)%nat -> (16 <= length encrypted)%nat ->
  full (take 16 encrypted) /\ Forall full (split (drop 16 encrypted)).
Proof.
  intros Hmod Hlen. split.
  - unfold full. rewrite length_take. lia.
  - apply split_length_full. rewrite length_drop.
    pose proof (Nat.div_mod_eq (length encrypted) 16) as E. rewrite Hmod in E.
    replace (length encrypted - 16)%nat with ((length encrypted / 16 - 1) * 16)%nat by lia.
    apply Nat.Div0.mod_mul.
Qed.

Lemma RemovePadding_no_panic b :
  b <> [] ->
  RemovePadding b = Err "Invalid padding" \/ exists out, RemovePadding b = Ok out.
Proof.
  intros Hne.
  destruct (RemovePadding_cases b Hne) as (init & last & _ & _ & _ & Hcases).
  cbv zeta in Hcases. destruct Hcases as [H|[H _]]; eauto.
Qed.

Lemma concat_full_nonempty (bs : list (list byte)) :
  Forall full bs -> bs <> [] -> concat bs <> [].
Proof.
  intros Hfull Hne Hnil. apply (f_equal length) in Hnil.
  rewrite (full_concat_length _ Hfull) in Hnil.
  destruct bs; [congruence|]. cbn in Hnil. lia.
Qed.

Lemma unchained_nonempty k (encrypted : list byte) :
  (length encrypted mod 16 = 0)%nat -> (32 <= length encrypted)%nat ->
  concat (cbcUnchain k (take 16 encrypted) (split (drop 16 encrypted))) <> [].
Proof.
  intros Hmod Hlen.
  destruct (aligned_drop_full encrypted Hmod ltac:(lia)) as [Hiv Hfull].
  apply concat_full_nonempty.
  - apply cbcUnchain_full; assumption.
  - intros Hnil. apply (f_equal length) in Hnil.
    rewrite cbcUnchain_length in Hnil. cbn in Hnil.
    apply length_zero_iff_nil, split_eq_nil in Hnil.
    apply (f_equal length) in Hnil. rewrite length_drop in Hnil. cbn in Hnil. lia.
Qed.

(** [Decrypt] in CBC mode on whole blocks: the chaining is undone and the
    padding removed. *)
Lemma Decrypt_CBC_whole_blocks (a : AES) (encrypted : list byte) :
  aes_ok a -> (length encrypted mod 16 = 0)%nat -> (32 <= length encrypted)%nat ->
  exists a',
    same_cipher a a'
    /\ Decrypt CBC encrypted a
       = let* b := RemovePadding
                     (concat (cbcUnchain (GetBytes (key a)) (take 16 encrypted)
                                (split (drop 16 encrypted)))) in
         Ok (b, a').
Proof.
  intros Hok Hmod Hlen.
  destruct (aligned_drop_full encrypted Hmod ltac:(lia)) as [Hiv Hfull].
  destruct (decryptCBC_loop_run (split (drop 16 encrypted)) [] (take 16 encrypted) a Hok Hfull)
    as (a' & Hrun & Hsame).
  exists a'. split; [exact Hsame|].
  unfold Decrypt. cbn [Z.eqb CTR CBC ECB Pos.eqb].
  rewrite (proj2 (Nat.ltb_ge _ _)) by exact Hlen.
  unfold decryptCBC. rewrite Hiv. cbn [Nat.eqb negb].
  rewrite Hrun. reflexivity.
Qed.

(** X12. [Decrypt] in CBC mode on a ciphertext whose length is a multiple
    of 16 never panics. Below 32 bytes it returns the error about the two
    blocks; from 32 bytes on it undoes the chaining of every block after
    the IV and returns what [RemovePadding] makes of the result: the error
    "Invalid padding" or the plaintext. *)
Theorem Decrypt_CBC_aligned (a : AES) (encrypted : list byte) :
  aes_ok a -> (length encrypted mod 16 = 0)%nat ->
  ((length encrypted < 32)%nat ->
   Decrypt CBC encrypted a
   = Err "Invalid encrypted text. Must have at least 2 blocks: iv + encrypted block")
  /\ ((32 <= length encrypted)%nat ->
      let r := concat (cbcUnchain (GetBytes (key a)) (take 16 encrypted)
                         (split (drop 16 encrypted))) in
      returned (Decrypt CBC encrypted a) = RemovePadding r
      /\ (Decrypt CBC encrypted a = Err "Invalid padding"
          \/ exists pt a', Decrypt CBC encrypted a = Ok (pt, a') /\ same_cipher a a')).
Proof.
  intros Hok Hmod. split.
  - intros Hlen. unfold Decrypt. cbn [Z.eqb CTR CBC ECB Pos.eqb].
    rewrite (proj2 (Nat.ltb_lt _ _)) by exact Hlen. reflexivity.
  - intros Hlen r.
    destruct (Decrypt_CBC_whole_blocks a encrypted Hok Hmod Hlen) as (a' & Hsame & Hd).
    rewrite Hd. fold r.
    destruct (RemovePadding_no_panic r (unchained_nonempty _ _ Hmod Hlen)) as [E|[out E]];
      rewrite E; cbn.
    + split; [reflexivity|left; reflexivity].
    + split; [reflexivity|right; eauto].
Qed.

Lemma Decrypt_CBC_aligned_witness :
  returned (Decrypt CBC testCBC (mkAES (NewKey testKey) 10 0 (replicate 11 (replicate 16 0))))
  = RemovePadding (concat (cbcUnchain testKey (take 16 testCBC) (split (drop 16 testCBC)))).
Proof.
  apply (Decrypt_CBC_aligned (mkAES (NewKey testKey) 10 0 (replicate 11 (replicate 16 0)))
           testCBC).
  - repeat split; reflexivity.
  - reflexivity.
  - cbn. lia.
Defined.

(** X13. [Decrypt] in ECB mode never returns an error: the empty
    ciphertext stops it with an index out of range, and a ciphertext of
    whole blocks whose decryption is not validly padded stops it with the
    panic "Invalid padding", where CBC mode returns that message as an
    error. Otherwise it returns what [RemovePadding] makes of the decrypted
    blocks. *)
Theorem Decrypt_ECB_panics_on_padding (a : AES) (encrypted : list byte) :
  aes_ok a ->
  (forall e, Decrypt ECB encrypted a <> Err e)
  /\ (encrypted = [] -> Decrypt ECB encrypted a = Panic IndexOutOfRange)
  /\ (encrypted <> [] -> (length encrypted mod 16 = 0)%nat ->
      let r := concat (decBlock (GetBytes (key a)) <$> split encrypted) in
      (RemovePadding r = Err "Invalid padding"
       /\ Decrypt ECB encrypted a = Panic (Explicit "Invalid padding"))
      \/ exists pt a',
           RemovePadding r = Ok pt /\ Decrypt ECB encrypted a = Ok (pt, a')
           /\ same_cipher a a').
Proof.
  intros Hok.
  assert (Hnil : Decrypt ECB [] a = Panic IndexOutOfRange) by reflexivity.
  assert (Haligned : encrypted <> [] -> (length encrypted mod 16 = 0)%nat ->
            let r := concat (decBlock (GetBytes (key a)) <$> split encrypted) in
            (RemovePadding r = Err "Invalid padding"
             /\ Decrypt ECB encrypted a = Panic (Explicit "Invalid padding"))
            \/ exists pt a',
                 RemovePadding r = Ok pt /\ Decrypt ECB encrypted a = Ok (pt, a')
                 /\ same_cipher a a').
  { intros Hne Hmod r.
    pose proof (split_length_full encrypted Hmod) as Hfull.
    destruct (decryptECB_loop_run (split encrypted) [] a Hok Hfull) as (a' & Hrun & Hsame).
    unfold Decrypt. cbn [Z.eqb CTR CBC ECB Pos.eqb]. unfold decryptECB.
    rewrite Hrun. cbn [bind app]. fold r.
    assert (Hr : r <> []).
    { apply concat_full_nonempty; [apply fmap_decBlock_full|].
      intros E. apply fmap_nil_inv, split_eq_nil in E. congruence. }
    destruct (RemovePadding_no_panic r Hr) as [E|[out E]]; rewrite E.
    - left. split; reflexivity.
    - right. exists out, a'. repeat split; try reflexivity; apply Hsame. }
  split; [|split; [intros ->; exact Hnil|exact Haligned]].
  intros e He.
  destruct (decide (encrypted = [])) as [->|Hne]; [congruence|].
  destruct (decide (length encrypted mod 16 = 0)%nat) as [Hmod|Hmod].
  - destruct (Haligned Hne Hmod) as [[_ H]|(pt & a' & _ & H & _)]; congruence.
  - unfold Decrypt in He. cbn [Z.eqb CTR CBC ECB Pos.eqb] in He. unfold decryptECB in He.
    rewrite (decryptECB_loop_short encrypted [] a Hok Hmod) in He. discriminate.
Qed.

Lemma Decrypt_ECB_panics_on_padding_witness :
  Decrypt ECB [] (mkAES (NewKey testKey) 10 0 (replicate 11 (replicate 16 0)))
  = Panic IndexOutOfRange.
Proof.
  apply (Decrypt_ECB_panics_on_padding
           (mkAES (NewKey testKey) 10 0 (replicate 11 (replicate 16 0))) []).
  - repeat split; reflexivity.
  - reflexivity.
Defined.

(** * What an attacker can do to the modes without the key *)

Lemma xorBytes_nil_l b : xorBytes [] b = [].
Proof. reflexivity. Qed.

Lemma xorBytes_nil_r a : xorBytes a [] = [].
Proof. destruct a; reflexivity. Qed.

Lemma xorBytes_swap a : forall b c,
  xorBytes (xorBytes a b) c = xorBytes (xorBytes a c) b.
Proof.
  induction a as [|x a IH]; intros [|y b] [|z c]; try reflexivity;
    unfold xorBytes in *; cbn;
    first [ apply zip_with_nil_r | symmetry; apply zip_with_nil_r
          | f_equal; [xor_solve|apply IH] ].
Qed.

Lemma xorBytes_same_stream a : forall b s,
  (length a <= length s)%nat -> (length b <= length s)%nat ->
  xorBytes (xorBytes a s) (xorBytes b s) = xorBytes a b.
Proof.
  induction a as [|x a IH]; intros [|y b] [|z s] Ha Hb; try reflexivity;
    cbn in Ha, Hb; try lia;
    unfold xorBytes in *; cbn;
    first [ apply zip_with_nil_r | f_equal; [xor_solve|apply IH; lia] ].
Qed.

Lemma xorBytes_nonempty a b : a <> [] -> b <> [] -> xorBytes a b <> [].
Proof. destruct a, b; try congruence. discriminate. Qed.

Lemma xorBytes_take n a b : take n (xorBytes a b) = xorBytes (take n a) (take n b).
Proof. apply zip_with_take. Qed.

Lemma xorBytes_drop n a b : drop n (xorBytes a b) = xorBytes (drop n a) (drop n b).
Proof. apply zip_with_drop. Qed.

Lemma xorBytes_app a1 a2 b1 b2 :
  length a1 = length b1 ->
  xorBytes (a1 ++ a2) (b1 ++ b2) = xorBytes a1 b1 ++ xorBytes a2 b2.
Proof. apply zip_with_app. Qed.

Lemma ctrStream_xor k l : forall delta counter,
  length delta = length l ->
  concat (ctrStream k counter (split (xorBytes l delta)))
  = xorBytes (concat (ctrStream k counter (split l))) delta.
Proof.
  induction l as [|l Hne IH] using blocks_ind; intros delta counter Hlen.
  - rewrite xorBytes_nil_l, split_nil. reflexivity.
  - assert (Hd : delta <> []).
    { destruct delta; [|discriminate]. destruct l; [congruence|discriminate]. }
    rewrite (split_cons (xorBytes l delta)) by (apply xorBytes_nonempty; assumption).
    rewrite (split_cons l Hne). cbn [ctrStream concat].
    rewrite xorBytes_take, xorBytes_drop.
    rewrite IH by (rewrite !length_drop; lia).
    set (s := encBlock k (take 16 counter)).
    set (rest := concat (ctrStream k (addOneToByteSlice counter) (split (drop 16 l)))).
    transitivity (xorBytes (xorBytes (take 16 l) s ++ rest) (take 16 delta ++ drop 16 delta));
      [|rewrite take_drop; reflexivity].
    rewrite xorBytes_app.
    + f_equal. apply xorBytes_swap.
    + subst s. rewrite xorBytes_length, !length_take, encBlock_full. lia.
Qed.

(** X14. CTR mode is malleable: whoever xors a mask into the bytes of a
    ciphertext after the nonce makes [Decrypt] return the plaintext with
    the same mask xored in, without an error. *)
Theorem CTR_malleable (a : AES) (plaintext rand delta : list byte) :
  aes_ok a -> plaintext <> [] -> length rand = 16%nat ->
  length delta = length plaintext ->
  exists c a',
    Encrypt CTR plaintext rand a = Ok (c, a')
    /\ forall a2, same_cipher a a2 ->
         exists a'',
           Decrypt CTR (take 16 c ++ xorBytes (drop 16 c) delta) a2
           = Ok (xorBytes plaintext delta, a'').
Proof.
  intros Hok Hpt Hrand Hdelta.
  destruct (encryptCTR_run plaintext rand a Hok Hrand) as (a' & Hrun & _).
  eexists _, a'. split; [exact Hrun|].
  intros a2 [Hok2 Hkey2].
  rewrite take_app_length', drop_app_length' by (symmetry; exact Hrand).
  rewrite <- ctrStream_xor by exact Hdelta.
  apply Decrypt_CTR_run; [exact Hok2|rewrite Hkey2; reflexivity|exact Hrand|].
  apply xorBytes_nonempty; [exact Hpt|].
  destruct delta; [|discriminate]. destruct plaintext; [congruence|discriminate].
Qed.

Lemma CTR_malleable_witness :
  exists c a',
    Encrypt CTR testPlain testIV (mkAES (NewKey testKey) 10 0 (replicate 11 (replicate 16 0)))
    = Ok (c, a')
    /\ forall a2,
         same_cipher (mkAES (NewKey testKey) 10 0 (replicate 11 (replicate 16 0))) a2 ->
         exists a'',
           Decrypt CTR (take 16 c ++ xorBytes (drop 16 c) (replicate 30 0x20)) a2
           = Ok (xorBytes testPlain (replicate 30 0x20), a'').
Proof.
  apply (CTR_malleable (mkAES (NewKey testKey) 10 0 (replicate 11 (replicate 16 0)))
           testPlain testIV (replicate 30 0x20)).
  - repeat split; reflexivity.
  - discriminate.
  - reflexivity.
  - reflexivity.
Defined.

(** ** The counter after it has overflowed *)

Lemma addOneToByteSlice_all_ff :
  addOneToByteSlice (replicate 16 0xff) = 1 :: replicate 15 0 ++ [0].
Proof. reflexivity. Qed.

Lemma addOneToByteSlice_overflowed (m : Z) :
  m < 255 ->
  addOneToByteSlice (1 :: replicate 15 0 ++ [m]) = 1 :: replicate 15 0 ++ [m + 1].
Proof.
  intros Hm. unfold addOneToByteSlice. cbn.
  rewrite (proj2 (Z.ltb_lt m 255) Hm). reflexivity.
Qed.

Lemma ctrStream_overflowed k (bs : list (list byte)) : forall (m i : nat) b,
  (m + i <= 255)%nat -> bs !! i = Some b ->
  ctrStream k (1 :: replicate 15 0 ++ [Z.of_nat m]) bs !! i
  = Some (xorBytes b (encBlock k (1 :: replicate 15 0))).
Proof.
  induction bs as [|b0 bs IH]; intros m i b Hmi Hb; [discriminate|].
  destruct i as [|i].
  - injection Hb as ->. reflexivity.
  - cbn [ctrStream]. cbn [lookup list_lookup] in Hb |- *.
    rewrite addOneToByteSlice_overflowed by lia.
    replace (Z.of_nat m + 1) with (Z.of_nat (S m)) by lia.
    apply IH; [lia|exact Hb].
Qed.

Lemma blockAt_after_nonce (rand x : list byte) (i : nat) :
  length rand = 16%nat -> blockAt (S i) (rand ++ x) = blockAt i x.
Proof.
  intros H. unfold blockAt.
  replace (16 * S i)%nat with (length rand + 16 * i)%nat by lia.
  rewrite drop_app_add. reflexivity.
Qed.

Lemma ctrStream_blockAt k counter pt (i : nat) c :
  ctrStream k counter (split pt) !! i = Some c ->
  blockAt i (concat (ctrStream k counter (split pt))) = c.
Proof.
  intros Hc.
  pose proof (ctrStream_lengths k (split pt) counter (split_blocks_le pt)) as Hshape.
  rewrite <- (split_concat_like _ pt Hshape) in Hc.
  apply split_lookup in Hc. destruct Hc as [_ ->]. reflexivity.
Qed.

(** X15. A nonce of sixteen 0xff bytes makes CTR mode reuse its keystream:
    the increment after the first block gives a counter of 17 bytes, of
    which [EncryptBlock] takes the first sixteen, and these stay the same
    for the next 256 increments. So for the plaintext blocks 1 to 256 the
    xor of two ciphertext blocks is the xor of the two plaintext blocks. *)
Theorem CTR_overflow_reuses_keystream (a : AES) (plaintext : list byte) (i j : nat) :
  aes_ok a ->
  (1 <= i <= 256)%nat -> (1 <= j <= 256)%nat ->
  (16 * i < length plaintext)%nat -> (16 * j < length plaintext)%nat ->
  exists c a',
    Encrypt CTR plaintext (replicate 16 0xff) a = Ok (c, a')
    /\ xorBytes (blockAt (S i) c) (blockAt (S j) c)
       = xorBytes (blockAt i plaintext) (blockAt j plaintext).
Proof.
  intros Hok Hi Hj Hil Hjl.
  destruct (encryptCTR_run plaintext (replicate 16 0xff) a Hok eq_refl) as (a' & Hrun & _).
  eexists _, a'. split; [exact Hrun|].
  set (k := GetBytes (key a)).
  assert (Hblock : forall n : nat,
            (1 <= n <= 256)%nat -> (16 * n < length plaintext)%nat ->
            blockAt (S n) (replicate 16 0xff
                             ++ concat (ctrStream k (replicate 16 0xff) (split plaintext)))
            = xorBytes (blockAt n plaintext) (encBlock k (1 :: replicate 15 0))).
  { intros n Hn Hnl.
    rewrite blockAt_after_nonce by reflexivity.
    apply ctrStream_blockAt.
    assert (Hb : split plaintext !! n = Some (blockAt n plaintext))
      by (apply split_lookup; split; [exact Hnl|reflexivity]).
    destruct (split plaintext) as [|b0 bs]; [discriminate|].
    destruct n as [|n]; [lia|].
    cbn [ctrStream]. cbn [lookup list_lookup] in Hb |- *.
    rewrite addOneToByteSlice_all_ff.
    apply (ctrStream_overflowed k bs 0 n); [lia|exact Hb]. }
  rewrite (Hblock i Hi Hil), (Hblock j Hj Hjl).
  apply xorBytes_same_stream; rewrite blockAt_length, encBlock_full; lia.
Qed.

Lemma CTR_overflow_reuses_keystream_witness :
  exists c a',
    Encrypt CTR testPlain3 (replicate 16 0xff)
      (mkAES (NewKey testKey) 10 0 (replicate 11 (replicate 16 0))) = Ok (c, a')
    /\ xorBytes (blockAt 2 c) (blockAt 3 c)
       = xorBytes (blockAt 1 testPlain3) (blockAt 2 testPlain3).
Proof.
  apply (CTR_overflow_reuses_keystream
           (mkAES (NewKey testKey) 10 0 (replicate 11 (replicate 16 0))) testPlain3 1 2).
  - repeat split; reflexivity.
  - lia.
  - lia.
  - cbn. lia.
  - cbn. lia.
Defined.

(** X24. CTR mode has no integrity check: [Decrypt] accepts every
    ciphertext of more than 16 bytes and returns as many bytes as follow
    the nonce, and encrypting these bytes under the same nonce gives the
    ciphertext back. So every such byte string is the ciphertext of some
    plaintext. *)
Theorem Decrypt_CTR_accepts_any (a : AES) (encrypted : list byte) :
  aes_ok a -> (16 < length encrypted)%nat ->
  exists pt a',
    Decrypt CTR encrypted a = Ok (pt, a')
    /\ same_cipher a a'
    /\ length pt = (length encrypted - 16)%nat
    /\ exists a'', Encrypt CTR pt (take 16 encrypted) a' = Ok (encrypted, a'').
Proof.
  intros Hok Hlen.
  set (k := GetBytes (key a)).
  set (nonce := take 16 encrypted). set (body := drop 16 encrypted).
  assert (Hnonce : full nonce) by (unfold full, nonce; rewrite length_take; lia).
  destruct (encryptCTR_run body nonce a Hok Hnonce) as (a' & Hrun & Hsame).
  exists (concat (ctrStream k nonce (split body))), a'.
  assert (Hdec : Decrypt CTR encrypted a = Ok (concat (ctrStream k nonce (split body)), a')).
  { unfold Decrypt. cbn [Z.eqb CTR CBC ECB Pos.eqb].
    rewrite (proj2 (Nat.leb_gt _ _)) by exact Hlen.
    fold nonce body. rewrite Hrun. cbn [bind].
    rewrite drop_app_length' by (symmetry; exact Hnonce). reflexivity. }
  split; [exact Hdec|]. split; [exact Hsame|].
  split; [rewrite ctrStream_concat_length; apply length_drop|].
  destruct Hsame as [Hok' Hkey'].
  destruct (encryptCTR_run (concat (ctrStream k nonce (split body))) nonce a' Hok' Hnonce)
    as (a'' & Hrun' & _).
  exists a''. unfold Encrypt. cbn [Z.eqb CTR CBC ECB Pos.eqb].
  rewrite Hrun'. rewrite Hkey'. fold k.
  pose proof (ctrStream_lengths k (split body) nonce (split_blocks_le body)) as Hshape.
  rewrite (split_concat_like _ body Hshape).
  rewrite ctrStream_involutive by apply split_blocks_le.
  fold (join (split body)). rewrite join_split.
  unfold nonce, body. rewrite take_drop. reflexivity.
Qed.

Lemma Decrypt_CTR_accepts_any_witness :
  exists pt a',
    Decrypt CTR testCBC (mkAES (NewKey testKey) 10 0 (replicate 11 (replicate 16 0)))
    = Ok (pt, a')
    /\ same_cipher (mkAES (NewKey testKey) 10 0 (replicate 11 (replicate 16 0))) a'
    /\ length pt = (length testCBC - 16)%nat
    /\ exists a'', Encrypt CTR pt (take 16 testCBC) a' = Ok (testCBC, a'').
Proof.
  apply (Decrypt_CTR_accepts_any
           (mkAES (NewKey testKey) 10 0 (replicate 11 (replicate 16 0))) testCBC).
  - repeat split; reflexivity.
  - cbn. lia.
Defined.

(** * Further properties of the padding-oracle attack *)

(** X16. The oracle leaks whether a forged block fits: for a 16-byte block
    [q] in front of a cipher block [last] its answer is success exactly
    when the inverse cipher of [last], xored with [q], ends in a valid
    padding, and otherwise it is the error "Invalid padding"; it never
    panics on such a query. *)
Theorem oracle_answers_padding_validity (o : Oracle) (q last : list byte) :
  length (GetBytes (oracle_key o)) = 16%nat -> length q = 16%nat -> length last = 16%nat ->
  (Oracle_Decrypt o (q ++ last) = Ok tt
   <-> validPadding (xorBytes (decBlock (GetBytes (oracle_key o)) last) q))
  /\ (Oracle_Decrypt o (q ++ last) = Err "Invalid padding"
      <-> ~ validPadding (xorBytes (decBlock (GetBytes (oracle_key o)) last) q)).
Proof.
  intros Hk Hq Hlast.
  destruct (Oracle_Decrypt_forged o q last Hk Hq Hlast) as [[E V]|[E V]]; rewrite E;
    split; split; intros H;
    first [ discriminate H | reflexivity | assumption | contradiction ].
Qed.

Lemma oracle_answers_padding_validity_witness :
  Oracle_Decrypt (mkOracle (NewKey testKey)) (take 16 (drop 16 testCBC) ++ drop 32 testCBC)
  = Ok tt
  <-> validPadding
        (xorBytes (decBlock testKey (drop 32 testCBC)) (take 16 (drop 16 testCBC))).
Proof.
  apply (oracle_answers_padding_validity (mkOracle (NewKey testKey))
           (take 16 (drop 16 testCBC)) (drop 32 testCBC)); reflexivity.
Defined.

(** X17. [findPaddingByte] at position [z], once the bytes above [z] are
    solved in [dec]: whatever the working block holds, it finds a byte and
    does not reach its panic, and the byte it returns, xored with the
    padding value [16 - z], is byte [z] of the inverse cipher of the
    attacked block. At position 15 this holds thanks to the second query
    with byte 14 flipped. *)
Theorem findPaddingByte_solves (o : Oracle) (prev last dec : list byte) (z : nat) :
  length (GetBytes (oracle_key o)) = 16%nat -> bytes (GetBytes (oracle_key o)) ->
  length last = 16%nat -> bytes last ->
  length prev = 16%nat -> length dec = 16%nat -> (z < 16)%nat ->
  (forall x, (z < x < 16)%nat -> dec !!! x = decBlock (GetBytes (oracle_key o)) last !!! x) ->
  exists b prev',
    findPaddingByte o prev last dec z = Ok (b, prev')
    /\ length prev' = 16%nat
    /\ Z.lxor b (16 - Z.of_nat z) = decBlock (GetBytes (oracle_key o)) last !!! z.
Proof.
  intros Hk Hkb Hlast Hlastb Hprev Hdec Hz Hsolved.
  destruct (findPaddingByte_finds o last Hk Hkb Hlast Hlastb z prev dec Hz Hprev Hdec Hsolved)
    as (prev' & Hrun & Hfull).
  eexists _, prev'. split; [exact Hrun|]. split; [exact Hfull|].
  apply lxor_cancel_r.
Qed.

Lemma findPaddingByte_solves_witness :
  exists b prev',
    findPaddingByte (mkOracle (NewKey testKey)) (replicate 16 0) (drop 32 testCBC)
      (replicate 16 0) 15 = Ok (b, prev')
    /\ length prev' = 16%nat
    /\ Z.lxor b (16 - Z.of_nat 15) = decBlock testKey (drop 32 testCBC) !!! 15%nat.
Proof.
  apply (findPaddingByte_solves (mkOracle (NewKey testKey)) (replicate 16 0)
           (drop 32 testCBC) (replicate 16 0) 15);
    first [ reflexivity | apply bytesb_bytes; reflexivity | lia | intros x Hx; lia ].
Defined.

Lemma bytes_split (l : list byte) : bytes l -> Forall bytes (split l).
Proof.
  intros H. apply Forall_concat_inv. fold (join (split l)). rewrite join_split. exact H.
Qed.

Lemma cbcUnchain_bytes k cs : forall prev,
  bytes k -> Forall bytes cs -> bytes prev -> Forall bytes (cbcUnchain k prev cs).
Proof.
  induction cs as [|c cs IH]; intros prev Hk Hcs Hprev; [constructor|].
  apply Forall_cons in Hcs. destruct Hcs as [Hc Hcs].
  cbn [cbcUnchain]. constructor.
  - apply xorBytes_bytes; [apply decBlock_bytes; assumption|exact Hprev].
  - apply IH; assumption.
Qed.

Lemma PaddingOracle_whole_blocks o encrypted :
  length (GetBytes (oracle_key o)) = 16%nat -> bytes (GetBytes (oracle_key o)) ->
  bytes encrypted -> (length encrypted mod 16 = 0)%nat -> (16 <= length encrypted)%nat ->
  PaddingOracle o encrypted
  = Ok (concat (cbcUnchain (GetBytes (oracle_key o)) (take 16 encrypted)
                  (split (drop 16 encrypted)))).
Proof.
  intros Hk Hkb Hb Hmod Hlen.
  destruct (aligned_drop_full encrypted Hmod Hlen) as [Hiv Hfull].
  rewrite <- (take_drop 16 encrypted) at 1.
  rewrite <- (join_split (drop 16 encrypted)) at 1. unfold join.
  apply PaddingOracle_run; try assumption.
  apply bytes_split. unfold bytes. apply Forall_drop. exact Hb.
Qed.

(** X18. The attack works on any ciphertext of whole blocks, whoever made
    it: for an IV followed by any number of 16-byte blocks, [PaddingOracle]
    returns as many bytes as follow the IV, and they are the bytes from
    which the key holder's own [Decrypt] in CBC mode removes the padding.
    For the IV alone it returns no bytes. *)
Theorem PaddingOracle_matches_Decrypt (o : Oracle) (encrypted : list byte) :
  length (GetBytes (oracle_key o)) = 16%nat -> bytes (GetBytes (oracle_key o)) ->
  bytes encrypted -> (length encrypted mod 16 = 0)%nat -> (16 <= length encrypted)%nat ->
  exists r,
    PaddingOracle o encrypted = Ok r
    /\ length r = (length encrypted - 16)%nat
    /\ bytes r
    /\ forall a, aes_ok a -> key a = oracle_key o -> (32 <= length encrypted)%nat ->
         returned (Decrypt CBC encrypted a) = RemovePadding r.
Proof.
  intros Hk Hkb Hb Hmod Hlen.
  destruct (aligned_drop_full encrypted Hmod Hlen) as [Hiv Hfull].
  eexists. split; [exact (PaddingOracle_whole_blocks o encrypted Hk Hkb Hb Hmod Hlen)|].
  assert (Hubytes : Forall bytes (cbcUnchain (GetBytes (oracle_key o)) (take 16 encrypted)
                                    (split (drop 16 encrypted)))).
  { apply cbcUnchain_bytes; [exact Hkb| |].
    - apply bytes_split. unfold bytes. apply Forall_drop. exact Hb.
    - unfold bytes. apply Forall_take. exact Hb. }
  split; [|split].
  - rewrite (full_concat_length _ (cbcUnchain_full _ _ _ Hiv Hfull)), cbcUnchain_length.
    rewrite <- (full_concat_length _ Hfull).
    fold (join (split (drop 16 encrypted))). rewrite join_split, length_drop. reflexivity.
  - unfold bytes. apply Forall_concat. exact Hubytes.
  - intros a Hok Hkey Hlen2.
    destruct (Decrypt_CBC_whole_blocks a encrypted Hok Hmod Hlen2) as (a' & _ & Hd).
    rewrite Hd, Hkey.
    set (r := concat (cbcUnchain _ _ _)).
    destruct (RemovePadding r) as [out|e|p]; reflexivity.
Qed.

Lemma PaddingOracle_matches_Decrypt_witness :
  exists r,
    PaddingOracle (mkOracle (NewKey testKey)) testCBC = Ok r
    /\ length r = (length testCBC - 16)%nat
    /\ bytes r
    /\ forall a, aes_ok a -> key a = oracle_key (mkOracle (NewKey testKey)) ->
         (32 <= length testCBC)%nat ->
         returned (Decrypt CBC testCBC a) = RemovePadding r.
Proof.
  apply (PaddingOracle_matches_Decrypt (mkOracle (NewKey testKey)) testCBC);
    first [ reflexivity | apply bytesb_bytes; reflexivity | cbn; lia ].
Defined.

(** ** Ciphertexts that are not whole blocks *)

Lemma Oracle_Decrypt_too_short o (e : list byte) :
  length (GetBytes (oracle_key o)) = 16%nat -> (length e < 32)%nat ->
  Oracle_Decrypt o e
  = Err "Invalid encrypted text. Must have at least 2 blocks: iv + encrypted block".
Proof.
  intros Hk Hlen. unfold Oracle_Decrypt. rewrite New_16 by exact Hk. cbn [bind].
  unfold Decrypt. cbn [Z.eqb CTR CBC ECB Pos.eqb].
  rewrite (proj2 (Nat.ltb_lt _ _)) by exact Hlen. reflexivity.
Qed.

Lemma findPaddingByte_loop_short o last z n : forall j prev,
  length (GetBytes (oracle_key o)) = 16%nat ->
  (length prev + length last < 32)%nat ->
  findPaddingByte_loop n j o prev last z = Panic (Explicit "Could not find padding byte").
Proof.
  induction n as [|n IH]; intros j prev Hk Hlen; [reflexivity|].
  cbn [findPaddingByte_loop].
  rewrite Oracle_Decrypt_too_short
    by (try exact Hk; rewrite length_app, length_insert; exact Hlen).
  apply IH; [exact Hk|]. rewrite length_insert. exact Hlen.
Qed.

Lemma copyInto_length n src : length (copyInto n src) = n.
Proof. unfold copyInto. rewrite length_app, length_take, length_replicate. lia. Qed.

(** X19. What the attack does with a ciphertext that is not whole blocks:
    below 16 bytes it stops with a slice out of bounds when it drops the
    IV, and above 16 bytes with a last block that is short, the oracle
    rejects every one of the 256 candidates for the last byte, so that
    [findPaddingByte] stops with "Could not find padding byte". *)
Theorem PaddingOracle_malformed (o : Oracle) (encrypted : list byte) :
  length (GetBytes (oracle_key o)) = 16%nat ->
  ((length encrypted < 16)%nat -> PaddingOracle o encrypted = Panic SliceBounds)
  /\ ((16 < length encrypted)%nat -> (length encrypted mod 16 <> 0)%nat ->
      PaddingOracle o encrypted = Panic (Explicit "Could not find padding byte")).
Proof.
  intros Hk. split.
  - intros Hlen. unfold PaddingOracle.
    assert (Hblocks : (length (split encrypted) - 1 = 0)%nat).
    { pose proof (split_count encrypted). lia. }
    rewrite Hblocks. cbn [PaddingOracle_blocks bind].
    rewrite length_replicate, (proj2 (Nat.ltb_lt _ _)) by exact Hlen. reflexivity.
  - intros Hlen Hmod.
    assert (Hne : encrypted <> []) by (intros ->; cbn in Hlen; lia).
    destruct (split_snoc encrypted Hne) as (init & last & Hsplit & Hfull & Hlast & Hcat).
    assert (Hinit : length (concat init) = (16 * length init)%nat)
      by (apply full_concat_length; exact Hfull).
    assert (Hlen' : length encrypted = (16 * length init + length last)%nat).
    { rewrite Hcat at 1. rewrite length_app, Hinit. reflexivity. }
    assert (Hshort : (length last < 16)%nat).
    { destruct (decide (length last = 16%nat)) as [E|E]; [|lia].
      exfalso. apply Hmod. rewrite Hlen', E.
      replace (16 * length init + 16)%nat with ((length init + 1) * 16)%nat by lia.
      apply Nat.Div0.mod_mul. }
    assert (Hi : (0 < length init)%nat) by lia.
    unfold PaddingOracle. rewrite Hsplit, length_app. cbn [length].
    replace (length init + 1 - 1)%nat with (S (length init - 1)) by lia.
    cbn [PaddingOracle_blocks].
    replace (Z.of_nat (S (length init - 1))) with (Z.of_nat (length init)) by lia.
    rewrite (index_lookup _ _ last);
      [|lia|rewrite Nat2Z.id; apply list_lookup_middle; reflexivity].
    cbn [bind].
    destruct (init !! (length init - 1)%nat) as [prev|] eqn:Eprev;
      [|apply lookup_ge_None in Eprev; lia].
    rewrite (index_lookup _ _ prev);
      [|lia|replace (Z.to_nat (Z.of_nat (length init) - 1)) with (length init - 1)%nat by lia;
            apply lookup_app_l_Some; exact Eprev].
    cbn [bind PaddingOracle_bytes].
    unfold findPaddingByte.
    change (toByte (16 - Z.of_nat 15) >? 1) with false. cbv iota.
    rewrite findPaddingByte_loop_short; [reflexivity|exact Hk|].
    rewrite copyInto_length. lia.
Qed.

Lemma PaddingOracle_malformed_witness :
  PaddingOracle (mkOracle (NewKey testKey)) (take 40 testCBC)
  = Panic (Explicit "Could not find padding byte").
Proof.
  apply (PaddingOracle_malformed (mkOracle (NewKey testKey)) (take 40 testCBC));
    [reflexivity|cbn; lia|cbn; lia].
Defined.

(** * Block structure of ECB and CBC *)

Lemma encryptOneBlock_run k b :
  length (GetBytes k) = 16%nat -> encryptOneBlock k b = Ok (encBlock (GetBytes k) b).
Proof.
  intros Hk. unfold encryptOneBlock. rewrite New_16 by exact Hk. cbn [bind].
  rewrite EncryptBlock_run by (repeat split; assumption). reflexivity.
Qed.

Lemma blockAt_concat_full (bs : list (list byte)) (i : nat) b :
  Forall full bs -> bs !! i = Some b -> blockAt i (concat bs) = b.
Proof.
  intros Hfull Hb. rewrite <- (split_concat_full bs Hfull) in Hb.
  apply split_lookup in Hb. destruct Hb as [_ ->]. reflexivity.
Qed.

Lemma blockAt_app_l (l pad : list byte) (i : nat) :
  (16 * i + 16 <= length l)%nat -> blockAt i (l ++ pad) = blockAt i l.
Proof.
  intros H. unfold blockAt. rewrite drop_app_le by lia.
  rewrite take_app_le by (rewrite length_drop; lia). reflexivity.
Qed.

Lemma ECB_block k (a : AES) (plaintext : list byte) :
  aes_ok a -> GetBytes (key a) = k -> plaintext <> [] ->
  exists c a',
    encryptECB plaintext a = Ok (c, a')
    /\ forall i : nat, (16 * i + 16 <= length plaintext)%nat ->
         blockAt i c = encBlock k (blockAt i plaintext).
Proof.
  intros Hok Hk Hpt.
  destruct (encryptECB_run plaintext a Hok Hpt)
    as (blocks & n & a' & Hrun & _ & Hfull & Hn & Hmod & Hcat).
  eexists _, a'. split; [exact Hrun|]. intros i Hi. rewrite Hk.
  assert (Hb : blocks !! i = Some (blockAt i plaintext)).
  { rewrite <- (split_concat_full blocks Hfull), Hcat.
    apply split_lookup. rewrite length_app. split; [lia|].
    symmetry. apply blockAt_app_l. exact Hi. }
  apply blockAt_concat_full; [apply fmap_encBlock_full|].
  rewrite list_lookup_fmap, Hb. reflexivity.
Qed.

(** X20. ECB mode encrypts every block on its own: block [i] of the
    ciphertext is what [EncryptBlock] returns for block [i] of the
    plaintext, whatever the other blocks are. So equal plaintext blocks
    give equal ciphertext blocks. *)
Theorem ECB_blocks_independent (a : AES) (plaintext rand : list byte) :
  aes_ok a -> plaintext <> [] ->
  exists c a',
    Encrypt ECB plaintext rand a = Ok (c, a')
    /\ (forall i : nat, (16 * i + 16 <= length plaintext)%nat ->
          encryptOneBlock (key a) (blockAt i plaintext) = Ok (blockAt i c))
    /\ (forall i j : nat,
          (16 * i + 16 <= length plaintext)%nat -> (16 * j + 16 <= length plaintext)%nat ->
          blockAt i plaintext = blockAt j plaintext -> blockAt i c = blockAt j c).
Proof.
  intros Hok Hpt.
  destruct (ECB_block (GetBytes (key a)) a plaintext Hok eq_refl Hpt) as (c & a' & Hrun & Hblock).
  exists c, a'. split; [exact Hrun|]. split.
  - intros i Hi. rewrite encryptOneBlock_run by apply Hok.
    rewrite (Hblock i Hi). reflexivity.
  - intros i j Hi Hj E. rewrite (Hblock i Hi), (Hblock j Hj), E. reflexivity.
Qed.

Lemma ECB_blocks_independent_witness :
  exists c a',
    Encrypt ECB testPlain3 testIV (mkAES (NewKey testKey) 10 0 (replicate 11 (replicate 16 0)))
    = Ok (c, a')
    /\ (forall i : nat, (16 * i + 16 <= length testPlain3)%nat ->
          encryptOneBlock (key (mkAES (NewKey testKey) 10 0 (replicate 11 (replicate 16 0))))
            (blockAt i testPlain3) = Ok (blockAt i c))
    /\ (forall i j : nat,
          (16 * i + 16 <= length testPlain3)%nat -> (16 * j + 16 <= length testPlain3)%nat ->
          blockAt i testPlain3 = blockAt j testPlain3 -> blockAt i c = blockAt j c).
Proof.
  apply (ECB_blocks_independent (mkAES (NewKey testKey) 10 0 (replicate 11 (replicate 16 0)))
           testPlain3 testIV).
  - repeat split; reflexivity.
  - discriminate.
Defined.

(** ** Flipping bits of the IV *)

Lemma mod16_sub (n : nat) :
  (n mod 16 = 0)%nat -> (16 <= n)%nat -> ((n - 16) mod 16 = 0)%nat.
Proof.
  intros Hmod Hn. pose proof (Nat.div_mod_eq n 16) as E. rewrite Hmod in E.
  replace (n - 16)%nat with ((n / 16 - 1) * 16)%nat by lia.
  apply Nat.Div0.mod_mul.
Qed.

Lemma xorBytes_assoc a : forall b c,
  xorBytes a (xorBytes b c) = xorBytes (xorBytes a b) c.
Proof.
  induction a as [|x a IH]; intros [|y b] [|z c]; try reflexivity;
    unfold xorBytes in *; cbn; f_equal; [xor_solve|apply IH].
Qed.

Lemma RemovePadding_app_full (A R : list byte) :
  full A -> R <> [] ->
  RemovePadding (A ++ R) = let* out := RemovePadding R in Ok (A ++ out).
Proof.
  intros HA HR.
  destruct (split_snoc R HR) as (init & last & Hsplit & Hfull & Hlast & Hcat).
  rewrite (RemovePadding_blocks R init last Hsplit Hcat) by lia.
  rewrite (RemovePadding_blocks (A ++ R) (A :: init) last).
  - cbv zeta.
    destruct ((_ =? 0) || (_ >? _)); [reflexivity|].
    destruct (RemovePadding_loop _ _ _ _); cbn [bind concat]; try reflexivity.
    rewrite <- app_assoc. reflexivity.
  - rewrite split_app by exact HA. rewrite Hsplit. reflexivity.
  - cbn [concat]. rewrite <- app_assoc. f_equal. exact Hcat.
  - lia.
Qed.

(** X21. CBC mode lets whoever holds a ciphertext choose changes of the
    first plaintext block: with at least two blocks after the IV, xoring a
    mask into the IV makes [Decrypt] return the same plaintext with that
    mask xored into its first 16 bytes, without an error. *)
Theorem CBC_iv_bitflip (a : AES) (encrypted delta pt : list byte) (a' : AES) :
  aes_ok a -> (length encrypted mod 16 = 0)%nat -> (48 <= length encrypted)%nat ->
  length delta = 16%nat ->
  Decrypt CBC encrypted a = Ok (pt, a') ->
  exists a'',
    Decrypt CBC (xorBytes (take 16 encrypted) delta ++ drop 16 encrypted) a
    = Ok (xorBytes (take 16 pt) delta ++ drop 16 pt, a'').
Proof.
  intros Hok Hmod Hlen Hdelta Hdec.
  set (k := GetBytes (key a)).
  destruct (aligned_drop_full encrypted Hmod ltac:(lia)) as [Hiv Hfull].
  set (iv := take 16 encrypted) in *. set (body := drop 16 encrypted) in *.
  assert (Hbody : length body = (length encrypted - 16)%nat) by apply length_drop.
  assert (Hiv' : full (xorBytes iv delta)).
  { unfold full. rewrite xorBytes_length, Hiv, Hdelta. reflexivity. }
  set (forged := xorBytes iv delta ++ body).
  assert (Htake : take 16 forged = xorBytes iv delta)
    by (apply take_app_length'; symmetry; exact Hiv').
  assert (Hdrop : drop 16 forged = body)
    by (apply drop_app_length'; symmetry; exact Hiv').
  assert (Hflen : length forged = length encrypted).
  { unfold forged. rewrite length_app, Hiv', Hbody. lia. }
  destruct (Decrypt_CBC_whole_blocks a encrypted Hok Hmod ltac:(lia)) as (a1 & _ & Hd1).
  destruct (Decrypt_CBC_whole_blocks a forged Hok ltac:(rewrite Hflen; exact Hmod)
              ltac:(rewrite Hflen; lia)) as (a2 & _ & Hd2).
  rewrite Htake, Hdrop in Hd2. fold iv body k in Hd1, Hd2.
  exists a2. rewrite Hd2. rewrite Hd1 in Hdec. clear Hd1 Hd2.
  assert (Hne : body <> []) by (intros E; rewrite E in Hbody; cbn in Hbody; lia).
  rewrite (split_cons body Hne) in Hdec |- *. cbn [cbcUnchain concat] in Hdec |- *.
  set (c1 := take 16 body) in *.
  set (rest := concat (cbcUnchain k c1 (split (drop 16 body)))) in *.
  assert (Hrest : rest <> []).
  { apply concat_full_nonempty.
    - apply cbcUnchain_full.
      + unfold full, c1. rewrite length_take. lia.
      + apply (aligned_drop_full body); [|lia].
        rewrite Hbody. apply mod16_sub; [exact Hmod|lia].
    - intros E. apply (f_equal length) in E. rewrite cbcUnchain_length in E.
      apply length_zero_iff_nil, split_eq_nil in E.
      apply (f_equal length) in E. rewrite length_drop in E. cbn in E. lia. }
  assert (Hfirst : full (xorBytes (decBlock k c1) iv)).
  { unfold full. rewrite xorBytes_length, decBlock_full, Hiv. reflexivity. }
  assert (Hflip : full (xorBytes (xorBytes (decBlock k c1) iv) delta)).
  { unfold full. rewrite xorBytes_length, Hdelta.
    unfold full in Hfirst. rewrite Hfirst. reflexivity. }
  rewrite xorBytes_assoc.
  rewrite (RemovePadding_app_full _ rest Hfirst Hrest) in Hdec.
  rewrite (RemovePadding_app_full _ rest Hflip Hrest).
  set (blk := xorBytes (decBlock k c1) iv) in *.
  clearbody blk rest.
  destruct (RemovePadding rest) as [out|e|p]; cbn [bind] in Hdec |- *; try discriminate Hdec.
  assert (Hpt : pt = blk ++ out) by (injection Hdec as E _; symmetry; exact E).
  rewrite Hpt, take_app_length', drop_app_length' by (symmetry; exact Hfirst).
  reflexivity.
Qed.

Lemma CBC_iv_bitflip_witness :
  exists a'',
    Decrypt CBC (xorBytes (take 16 testCBC) (replicate 16 0x20) ++ drop 16 testCBC)
      (mkAES (NewKey testKey) 10 0 (replicate 11 (replicate 16 0)))
    = Ok (xorBytes (take 16 testPlain) (replicate 16 0x20) ++ drop 16 testPlain, a'').
Proof.
  apply (CBC_iv_bitflip (mkAES (NewKey testKey) 10 0 (replicate 11 (replicate 16 0)))
           testCBC (replicate 16 0x20) testPlain
           (mkAES (NewKey testKey) 10 (-1) (keySchedule testKey))).
  - repeat split; reflexivity.
  - reflexivity.
  - cbn. lia.
  - reflexivity.
  - vm_compute. reflexivity.
Defined.

(** * The key schedule can be run backwards *)

Lemma lxor_chain a b x y : Z.lxor a x = Z.lxor b y -> a = b -> x = y.
Proof.
  intros H ->. rewrite <- (lxor_cancel_l b x), H. apply lxor_cancel_l.
Qed.

Lemma lxor_inj_r x y t : Z.lxor x t = Z.lxor y t -> x = y.
Proof.
  intros H. rewrite <- (lxor_cancel_r x t), H. apply lxor_cancel_r.
Qed.

(** Words 1 to 3 of the previous round key are recovered by xoring
    neighbouring words of the round key, and then word 0, for which the
    substituted and rotated word 3 is needed. *)
Lemma nextRoundKey_inj round p q :
  length p = 16%nat -> length q = 16%nat ->
  nextRoundKey round p = nextRoundKey round q -> p = q.
Proof.
  intros Hp Hq H.
  do 17 (destruct p as [|? p]; try discriminate Hp).
  do 17 (destruct q as [|? q]; try discriminate Hq).
  clear Hp Hq.
  unfold nextRoundKey in H.
  set (rc := rconTable !!! Z.to_nat (round - 1)) in H. clearbody rc.
  unfold slice, xor, subWord, rotWord in H. cbn -[Z.lxor sub sBox] in H.
  injection H. intros.
  repeat match goal with
         | H1 : ?a = ?b, H2 : Z.lxor ?a ?x = Z.lxor ?b ?y |- _ =>
             is_var x; is_var y;
             lazymatch goal with
             | _ : x = y |- _ => fail
             | _ => pose proof (lxor_chain a b x y H2 H1)
             end
         end.
  subst.
  repeat match goal with
         | H : Z.lxor ?x ?t = Z.lxor ?y ?t |- _ => apply lxor_inj_r in H; subst
         end.
  reflexivity.
Qed.

Lemma keysFrom_inj n : forall round p q (i : nat),
  (i < n)%nat -> length p = 16%nat -> length q = 16%nat ->
  keysFrom n round p !! i = keysFrom n round q !! i -> p = q.
Proof.
  induction n as [|n IH]; intros round p q i Hi Hp Hq H; [lia|].
  cbn [keysFrom] in H. destruct i as [|i].
  - change (Some (nextRoundKey round p) = Some (nextRoundKey round q)) in H.
    apply (inj Some) in H. exact (nextRoundKey_inj round p q Hp Hq H).
  - cbn [lookup list_lookup] in H.
    apply (nextRoundKey_inj round p q Hp Hq).
    apply (IH (round + 1) _ _ i); [lia|reflexivity|reflexivity|exact H].
Qed.

Lemma keySchedule_inj k k' (i : nat) :
  length k = 16%nat -> length k' = 16%nat -> (i < 11)%nat ->
  keySchedule k !! i = keySchedule k' !! i -> k = k'.
Proof.
  intros Hk Hk' Hi H. unfold keySchedule in H.
  rewrite !take_ge in H by lia.
  destruct i as [|i].
  - change (Some k = Some k') in H. apply (inj Some) in H. exact H.
  - cbn [lookup list_lookup] in H.
    apply (keysFrom_inj 10 1 k k' i); [lia|assumption|assumption|exact H].
Qed.

(** X22. Every round key determines the cipher key: when the schedules
    that [generateAllKeys] stores for two cipher objects agree in any one
    of their eleven round keys, the two keys are the same. Round key 0 is
    the cipher key itself. *)
Theorem round_key_determines_key (a a' : AES) (i : nat) :
  aes_ok a -> aes_ok a' -> (i < 11)%nat ->
  exists s s',
    generateAllKeys a = Ok s /\ generateAllKeys a' = Ok s'
    /\ roundKeys s !! 0%nat = Some (GetBytes (key a))
    /\ (roundKeys s !! i = roundKeys s' !! i -> GetBytes (key a) = GetBytes (key a')).
Proof.
  intros Hok Hok' Hi.
  eexists _, _.
  split; [apply generateAllKeys_run, Hok|].
  split; [apply generateAllKeys_run, Hok'|].
  cbn [roundKeys].
  destruct Hok as (Hk & _). destruct Hok' as (Hk' & _).
  split.
  - unfold keySchedule. rewrite take_ge by lia. reflexivity.
  - apply keySchedule_inj; assumption.
Qed.

Lemma round_key_determines_key_witness :
  exists s s',
    generateAllKeys (mkAES (NewKey testKey) 10 0 (replicate 11 (replicate 16 0))) = Ok s
    /\ generateAllKeys (mkAES (NewKey testKey) 10 7 (keySchedule fipsKeyB)) = Ok s'
    /\ roundKeys s !! 0%nat = Some testKey
    /\ (roundKeys s !! 10%nat = roundKeys s' !! 10%nat -> testKey = testKey).
Proof.
  apply (round_key_determines_key
           (mkAES (NewKey testKey) 10 0 (replicate 11 (replicate 16 0)))
           (mkAES (NewKey testKey) 10 7 (keySchedule fipsKeyB)) 10).
  - repeat split; reflexivity.
  - repeat split; reflexivity.
  - lia.
Defined.
